(** * The bootstrap memory manager of OpenNexus (memory.c)

    A shallow embedding of the kernel heap allocator (an intrusive,
    doubly linked list of block headers with first-fit search, splitting
    and forward coalescing) and of the registry of memory pools built on
    top of it, followed by the properties of the allocator.

    Target model.  The kernel stores pointers in [u32] fields
    ([pool->base_address = (u32)pool_memory], [(MemoryBlock* )heap_start]
    with [u32 heap_start]), so the embedding is that of a 32-bit target:
    every [u32] and every pointer is an integer taken modulo [2^32], and
    [sizeof(MemoryBlock)] is 16 (a [u32], a [bool] padded to four bytes
    and two pointers). *)

From Stdlib Require Import ZArith Lia.
From stdpp Require Import base option list gmap strings.

Local Open Scope Z_scope.

(** ** Machine integers and constants *)

Definition u32 (z : Z) : Z := z mod 2 ^ 32.

Definition KB : Z := 1024.
Definition MB : Z := 1024 * 1024.
Definition NULL : Z := 0.
Definition sizeof_MemoryBlock : Z := 16.

(** The heap arena installed by [memory_init]. *)
Definition heap_start : Z := 1048576.   (* 0x100000 *)
Definition heap_size : Z := 4 * MB.

Inductive ErrorCode : Set := ERR_SUCCESS | ERR_INVALID_ARG | ERR_GENERIC.

Inductive MemoryPoolType : Set :=
  | MEM_POOL_DEFAULT | MEM_POOL_SMALL | MEM_POOL_MEDIUM
  | MEM_POOL_LARGE | MEM_POOL_SPECIAL.

(** ** Data model *)

(** [struct MemoryBlock]: the header in front of every payload. *)
Record MemoryBlock : Set := mkBlock {
  blk_size : Z;
  blk_free : bool;
  blk_next : Z;
  blk_prev : Z
}.

(** [MemoryPool], with the fields memory.c reads and writes. *)
Record MemoryPool : Set := mkPool {
  pool_id : Z;
  pool_name : string;
  pool_type : MemoryPoolType;
  pool_base_address : Z;
  pool_size : Z;
  pool_block_size : Z;
  pool_flags : Z;
  pool_used : Z;
  pool_allocations : Z;
  pool_frees : Z;
  pool_peak_usage : Z
}.

(** Constants of memory.h that memory.c only names. *)
Record Platform : Set := mkPlatform {
  MAX_MEMPOOLS : nat;          (* capacity of the registry array *)
  sizeof_MemoryPool : Z;       (* sizeof(MemoryPool) *)
  sizeof_pool_name : nat       (* sizeof(pool->name) *)
}.

(** The file-level statics together with the memory they point into.
    [ram] holds the block headers by address and [pool_ram] the pool
    structures by address; an address that was never written holds no
    object.  The counter [memory_free] of the source is [memory_free_ctr]
    here, the name [memory_free] being that of the release function.

    Headers and pool structures are kept as whole objects, one per
    address, and the payloads are not kept at all.  For the headers of
    the Block List and the structures of the live pools this is the
    memory of the machine: they lie in disjoint ranges, and the code
    writes to them and, when it splits, inside a free block only.  A
    header that coalescing spliced out of the list is dead storage: a
    later split inside the merged block, the contents of a payload or a
    pool structure placed there may overwrite part of it, and [ram], with
    [pool_ram] beside the arena, does not follow that.  So what is stated
    below of a [memory_free] that comes after other calls is stated of a
    pointer to a block of the Block List, or to the block that was
    released just before. *)
Record Kernel : Type := mkKernel {
  ram : gmap Z MemoryBlock;
  pool_ram : gmap Z MemoryPool;
  memory_total : Z;
  memory_used : Z;
  memory_free_ctr : Z;
  memory_block_count : Z;
  memory_list : Z;
  memory_pools : list Z;
  memory_pool_count : Z
}.

Definition set_ram (f : gmap Z MemoryBlock → gmap Z MemoryBlock) (k : Kernel) : Kernel :=
  mkKernel (f (ram k)) (pool_ram k) (memory_total k) (memory_used k)
    (memory_free_ctr k) (memory_block_count k) (memory_list k)
    (memory_pools k) (memory_pool_count k).
Definition set_pool_ram (f : gmap Z MemoryPool → gmap Z MemoryPool) (k : Kernel) : Kernel :=
  mkKernel (ram k) (f (pool_ram k)) (memory_total k) (memory_used k)
    (memory_free_ctr k) (memory_block_count k) (memory_list k)
    (memory_pools k) (memory_pool_count k).
Definition set_memory_total (v : Z) (k : Kernel) : Kernel :=
  mkKernel (ram k) (pool_ram k) v (memory_used k)
    (memory_free_ctr k) (memory_block_count k) (memory_list k)
    (memory_pools k) (memory_pool_count k).
Definition set_memory_used (v : Z) (k : Kernel) : Kernel :=
  mkKernel (ram k) (pool_ram k) (memory_total k) v
    (memory_free_ctr k) (memory_block_count k) (memory_list k)
    (memory_pools k) (memory_pool_count k).
Definition set_memory_free_ctr (v : Z) (k : Kernel) : Kernel :=
  mkKernel (ram k) (pool_ram k) (memory_total k) (memory_used k)
    v (memory_block_count k) (memory_list k)
    (memory_pools k) (memory_pool_count k).
Definition set_memory_block_count (v : Z) (k : Kernel) : Kernel :=
  mkKernel (ram k) (pool_ram k) (memory_total k) (memory_used k)
    (memory_free_ctr k) v (memory_list k)
    (memory_pools k) (memory_pool_count k).
Definition set_memory_list (v : Z) (k : Kernel) : Kernel :=
  mkKernel (ram k) (pool_ram k) (memory_total k) (memory_used k)
    (memory_free_ctr k) (memory_block_count k) v
    (memory_pools k) (memory_pool_count k).
Definition set_memory_pools (v : list Z) (k : Kernel) : Kernel :=
  mkKernel (ram k) (pool_ram k) (memory_total k) (memory_used k)
    (memory_free_ctr k) (memory_block_count k) (memory_list k)
    v (memory_pool_count k).
Definition set_memory_pool_count (v : Z) (k : Kernel) : Kernel :=
  mkKernel (ram k) (pool_ram k) (memory_total k) (memory_used k)
    (memory_free_ctr k) (memory_block_count k) (memory_list k)
    (memory_pools k) v.

(** ** Computations over the kernel state

    A call either returns a value and a new state, reads an address that
    holds no object ([Fault], undefined behaviour of the C program),
    exhausts the iteration budget of one of its loops ([OutOfFuel]) or
    stops the kernel ([Panic]). *)
Inductive outcome (A : Type) : Type :=
  | Ret (a : A) (k : Kernel)
  | Fault
  | OutOfFuel
  | Panic.
Arguments Ret {A} a k.
Arguments Fault {A}.
Arguments OutOfFuel {A}.
Arguments Panic {A}.

Definition M (A : Type) : Type := Kernel → outcome A.

Definition ret {A} (a : A) : M A := fun k => Ret a k.
Definition bind {A B} (c : M A) (f : A → M B) : M B :=
  fun k => match c k with
           | Ret a k' => f a k'
           | Fault => Fault
           | OutOfFuel => OutOfFuel
           | Panic => Panic
           end.
Definition get {A} (f : Kernel → A) : M A := fun k => Ret (f k) k.
Definition modify (f : Kernel → Kernel) : M unit := fun k => Ret tt (f k).
Definition fault {A} : M A := fun _ => Fault.
Definition out_of_fuel {A} : M A := fun _ => OutOfFuel.
Definition panic {A} : M A := fun _ => Panic.

Notation "'let*' x ':=' c 'in' k" := (bind c (fun x => k))
  (at level 10, x name, c at level 100, k at level 200).

(** *** Header and pool accesses *)

Definition with_size (v : Z) (b : MemoryBlock) : MemoryBlock :=
  mkBlock v (blk_free b) (blk_next b) (blk_prev b).
Definition with_free (v : bool) (b : MemoryBlock) : MemoryBlock :=
  mkBlock (blk_size b) v (blk_next b) (blk_prev b).
Definition with_next (v : Z) (b : MemoryBlock) : MemoryBlock :=
  mkBlock (blk_size b) (blk_free b) v (blk_prev b).
Definition with_prev (v : Z) (b : MemoryBlock) : MemoryBlock :=
  mkBlock (blk_size b) (blk_free b) (blk_next b) v.

Definition blank : MemoryBlock := mkBlock 0 false 0 0.

(** Reading [a->field]: the whole header at [a], which must hold one. *)
Definition load (a : Z) : M MemoryBlock :=
  fun k => match ram k !! a with
           | Some b => Ret b k
           | None => Fault
           end.

(** Writing one field of the header at [a].  A write always succeeds; the
    first write to a fresh address brings the header into [ram] with its
    other fields zeroed (the code writes all four fields of a new header
    before it reads any of them). *)
Definition store (a : Z) (f : MemoryBlock → MemoryBlock) : M unit :=
  modify (set_ram (fun m => <[a := f (default blank (m !! a))]> m)).

Definition load_pool (a : Z) : M MemoryPool :=
  fun k => match pool_ram k !! a with
           | Some p => Ret p k
           | None => Fault
           end.

Definition store_pool (a : Z) (p : MemoryPool) : M unit :=
  modify (set_pool_ram (fun m => <[a := p]> m)).

(** ** The heap allocator *)

(** [(size + 7) & ~7] on [u32]. *)
Definition align8 (size : Z) : Z :=
  Z.land (u32 (size + 7)) (u32 (Z.lnot 7)).

(** Lines 74-92: the body of the [if] in [memory_alloc]. *)
Definition split_block (current size : Z) : M Z :=
  let new_block := u32 (current + sizeof_MemoryBlock + size) in
  let* cur := load current in
  let* _ := store new_block
              (with_size (u32 (blk_size cur - size - sizeof_MemoryBlock))) in
  let* _ := store new_block (with_free true) in
  let* cur := load current in
  let* _ := store new_block (with_next (blk_next cur)) in
  let* _ := store new_block (with_prev current) in
  let* cur := load current in
  let* _ := (if blk_next cur =? NULL then ret tt
             else store (blk_next cur) (with_prev new_block)) in
  let* _ := store current (with_size size) in
  let* _ := store current (with_free false) in
  let* _ := store current (with_next new_block) in
  let* _ := modify (fun k =>
              set_memory_used
                (u32 (memory_used k + u32 (size + sizeof_MemoryBlock))) k) in
  let* _ := modify (fun k =>
              set_memory_free_ctr
                (u32 (memory_free_ctr k - u32 (size + sizeof_MemoryBlock))) k) in
  let* _ := modify (fun k =>
              set_memory_block_count (u32 (memory_block_count k + 1)) k) in
  ret (u32 (current + sizeof_MemoryBlock)).

(** The [while (current)] loop of [memory_alloc]; one unit of fuel per
    evaluation of the loop condition. *)
Fixpoint alloc_scan (fuel : nat) (size current : Z) : M Z :=
  match fuel with
  | O => out_of_fuel
  | S fuel' =>
      if current =? NULL then ret NULL
      else
        let* cur := load current in
        if blk_free cur && (u32 (size + sizeof_MemoryBlock) <=? blk_size cur)
        then split_block current size
        else alloc_scan fuel' size (blk_next cur)
  end.

Definition memory_alloc (fuel : nat) (size : Z) : M Z :=
  if size =? 0 then ret NULL
  else
    let size := align8 size in
    let* current := get memory_list in
    alloc_scan fuel size current.

(** The [while (current && current->next)] loop of [memory_coalesce]. *)
Fixpoint coalesce_loop (fuel : nat) (current : Z) : M unit :=
  match fuel with
  | O => out_of_fuel
  | S fuel' =>
      if current =? NULL then ret tt
      else
        let* cur := load current in
        if blk_next cur =? NULL then ret tt
        else
          let* nxt := load (blk_next cur) in
          if blk_free cur && blk_free nxt then
            let* _ := store current
                        (with_size
                           (u32 (blk_size cur
                                 + u32 (blk_size nxt + sizeof_MemoryBlock)))) in
            let* cur := load current in
            let* nxt := load (blk_next cur) in
            let* _ := store current (with_next (blk_next nxt)) in
            let* cur := load current in
            let* _ := (if blk_next cur =? NULL then ret tt
                       else store (blk_next cur) (with_prev current)) in
            let* _ := modify (fun k =>
                        set_memory_block_count
                          (u32 (memory_block_count k - 1)) k) in
            coalesce_loop fuel' current
          else coalesce_loop fuel' (blk_next cur)
  end.

Definition memory_coalesce (fuel : nat) : M unit :=
  let* current := get memory_list in
  coalesce_loop fuel current.

Definition memory_free (fuel : nat) (ptr : Z) : M ErrorCode :=
  if ptr =? NULL then ret ERR_INVALID_ARG
  else
    let block := u32 (ptr - sizeof_MemoryBlock) in
    let* b := load block in
    if blk_free b then ret ERR_GENERIC
    else
      let* _ := store block (with_free true) in
      let* b := load block in
      let* _ := modify (fun k =>
                  set_memory_used
                    (u32 (memory_used k
                          - u32 (blk_size b + sizeof_MemoryBlock))) k) in
      let* _ := modify (fun k =>
                  set_memory_free_ctr
                    (u32 (memory_free_ctr k
                          + u32 (blk_size b + sizeof_MemoryBlock))) k) in
      let* _ := memory_coalesce fuel in
      ret ERR_SUCCESS.

(** ** The pool registry *)

Definition mempool_get_block_size (type : MemoryPoolType) : Z :=
  match type with
  | MEM_POOL_SMALL => 64
  | MEM_POOL_MEDIUM => 256
  | MEM_POOL_LARGE => 1024
  | MEM_POOL_SPECIAL => 4096
  | _ => 128
  end.

(** The insertion loop of [mempool_create]: the first empty slot of the
    array takes the pool; a full array is left as it is. *)
Fixpoint registry_add (pool : Z) (slots : list Z) : list Z :=
  match slots with
  | [] => []
  | s :: rest =>
      if s =? NULL then pool :: rest else s :: registry_add pool rest
  end.

(** The removal loop of [mempool_destroy]: the first slot that holds
    [pool] is cleared. *)
Fixpoint registry_remove (pool : Z) (slots : list Z) : list Z :=
  match slots with
  | [] => []
  | s :: rest =>
      if s =? pool then NULL :: rest else s :: registry_remove pool rest
  end.

(** [strncpy(pool->name, name, sizeof(pool->name) - 1)] into a zeroed
    field: the name cut to the field width less one. *)
Definition strncpy_name (pf : Platform) (name : string) : string :=
  String.substring 0 (sizeof_pool_name pf - 1) name.

Section WithPlatform.

Variable pf : Platform.

Definition mempool_create (fuel : nat) (name : string)
    (type : MemoryPoolType) (size : Z) : M Z :=
  let* count := get memory_pool_count in
  if Z.of_nat (MAX_MEMPOOLS pf) <=? count then ret NULL
  else
    let* pool := memory_alloc fuel (sizeof_MemoryPool pf) in
    if pool =? NULL then ret NULL
    else
      let* pool_memory := memory_alloc fuel size in
      if pool_memory =? NULL then
        let* _ := memory_free fuel pool in
        ret NULL
      else
        let* count := get memory_pool_count in
        let* _ := store_pool pool
                    (mkPool (u32 (count + 1)) (strncpy_name pf name) type
                       pool_memory size (mempool_get_block_size type)
                       0 0 0 0 0) in
        let* _ := modify (fun k =>
                    set_memory_pools (registry_add pool (memory_pools k)) k) in
        let* _ := modify (fun k =>
                    set_memory_pool_count (u32 (memory_pool_count k + 1)) k) in
        ret pool.

Definition memory_init (fuel : nat) : M ErrorCode :=
  let* _ := modify (set_memory_total (16 * MB)) in
  let* _ := modify (fun k => set_memory_free_ctr (memory_total k) k) in
  let* _ := modify (set_memory_list heap_start) in
  let* _ := store heap_start (with_size (heap_size - sizeof_MemoryBlock)) in
  let* _ := store heap_start (with_free true) in
  let* _ := store heap_start (with_next NULL) in
  let* _ := store heap_start (with_prev NULL) in
  let* _ := modify (set_memory_block_count 1) in
  let* _ := modify (set_memory_pools (replicate (MAX_MEMPOOLS pf) NULL)) in
  let* _ := modify (set_memory_pool_count 0) in
  let* default_pool :=
    mempool_create fuel "default" MEM_POOL_DEFAULT (1 * MB) in
  if default_pool =? NULL then panic else ret ERR_SUCCESS.

End WithPlatform.

Definition mempool_alloc (pool size : Z) : M Z :=
  if (pool =? NULL) || (size =? 0) then ret NULL
  else
    let* p := load_pool pool in
    if pool_size p <? u32 (pool_used p + size) then ret NULL
    else
      let ptr := u32 (pool_base_address p + pool_used p) in
      let used' := u32 (pool_used p + size) in
      let* _ := store_pool pool
                  (mkPool (pool_id p) (pool_name p) (pool_type p)
                     (pool_base_address p) (pool_size p) (pool_block_size p)
                     (pool_flags p) used' (u32 (pool_allocations p + 1))
                     (pool_frees p)
                     (if pool_peak_usage p <? used' then used'
                      else pool_peak_usage p)) in
      ret ptr.

Definition mempool_free (pool ptr : Z) : M ErrorCode :=
  if (pool =? NULL) || (ptr =? NULL) then ret ERR_INVALID_ARG
  else
    let* p := load_pool pool in
    let* _ := store_pool pool
                (mkPool (pool_id p) (pool_name p) (pool_type p)
                   (pool_base_address p) (pool_size p) (pool_block_size p)
                   (pool_flags p) (pool_used p) (pool_allocations p)
                   (u32 (pool_frees p + 1)) (pool_peak_usage p)) in
    ret ERR_SUCCESS.

(** [mempool_destroy]; the results of the two [memory_free] calls are
    dropped, as in the source. *)
Definition mempool_destroy (fuel : nat) (pool : Z) : M ErrorCode :=
  if pool =? NULL then ret ERR_INVALID_ARG
  else
    let* _ := load_pool pool in           (* kprintf reads name and id *)
    let* _ := modify (fun k =>
                set_memory_pools (registry_remove pool (memory_pools k)) k) in
    let* p := load_pool pool in
    let* _ := memory_free fuel (pool_base_address p) in
    let* _ := memory_free fuel pool in
    let* _ := modify (fun k =>
                set_memory_pool_count (u32 (memory_pool_count k - 1)) k) in
    ret ERR_SUCCESS.

(** [mempool_find] and [mempool_find_by_id]: first match in array order. *)
Fixpoint find_slot (test : MemoryPool → bool) (m : gmap Z MemoryPool)
    (slots : list Z) : option Z :=
  match slots with
  | [] => Some NULL
  | s :: rest =>
      if s =? NULL then find_slot test m rest
      else match m !! s with
           | Some p => if test p then Some s else find_slot test m rest
           | None => None
           end
  end.

Definition mempool_find (name : string) : M Z :=
  fun k => match find_slot (fun p => bool_decide (pool_name p = name))
                   (pool_ram k) (memory_pools k) with
           | Some r => Ret r k
           | None => Fault
           end.

Definition mempool_find_by_id (id : Z) : M Z :=
  fun k => match find_slot (fun p => pool_id p =? id)
                   (pool_ram k) (memory_pools k) with
           | Some r => Ret r k
           | None => Fault
           end.

(** The statics before [memory_init] runs. *)
Definition boot (pf : Platform) : Kernel :=
  mkKernel ∅ ∅ 0 0 0 0 NULL (replicate (MAX_MEMPOOLS pf) NULL) 0.

(** ** The Block List as a sequence of blocks

    The abstract view of the heap: the blocks in address order, each with
    its payload size and its free flag.  The header addresses and the
    links are determined by the sizes. *)

Definition block : Set := (Z * bool)%type.

(** Bytes of the arena that a list of blocks covers: payloads and headers. *)
Fixpoint footprint (l : list block) : Z :=
  match l with
  | [] => 0
  | (s, _) :: rest => s + sizeof_MemoryBlock + footprint rest
  end.

Definition next_of (a s : Z) (rest : list block) : Z :=
  match rest with
  | [] => NULL
  | _ => a + sizeof_MemoryBlock + s
  end.

(** [chain m a pv l]: in [m], the headers of the blocks [l] lie back to
    back from address [a] on, linked forward to each other (the last one
    to [NULL]) and backward (the first one to [pv]). *)
Fixpoint chain (m : gmap Z MemoryBlock) (a pv : Z) (l : list block) : Prop :=
  match l with
  | [] => True
  | (s, f) :: rest =>
      0 <= s ∧ s mod 8 = 0 ∧
      m !! a = Some (mkBlock s f (next_of a s rest) pv) ∧
      chain m (a + sizeof_MemoryBlock + s) a rest
  end.

(** Header addresses of the allocated blocks of [l] laid out from [a]. *)
Fixpoint live_addrs (a : Z) (l : list block) : list Z :=
  match l with
  | [] => []
  | (s, f) :: rest =>
      (if f then [] else [a]) ++ live_addrs (a + sizeof_MemoryBlock + s) rest
  end.

(** The invariant of the heap: the statics describe the Block List [l],
    which tiles the arena exactly, and every header in memory that is
    marked allocated is the header of an allocated block of the list
    (headers that coalescing spliced out stay behind, marked free). *)
Record heap_inv (k : Kernel) (l : list block) : Prop := mk_heap_inv {
  inv_head : memory_list k = heap_start;
  inv_chain : chain (ram k) heap_start NULL l;
  inv_nonempty : l ≠ [];
  inv_total : footprint l = heap_size;
  inv_count : memory_block_count k = Z.of_nat (length l);
  inv_live : ∀ c b, ram k !! c = Some b → blk_free b = false →
                    c ∈ live_addrs heap_start l
}.

(** What one pass of [memory_coalesce] makes of a Block List: every run
    of adjacent free blocks becomes one block. *)
Fixpoint merge_free (l : list block) : list block :=
  match l with
  | [] => []
  | (s, f) :: rest =>
      match f, merge_free rest with
      | true, (s', true) :: r => (s + s' + sizeof_MemoryBlock, true) :: r
      | _, r => (s, f) :: r
      end
  end.

(** What a successful first-fit allocation of [r] payload bytes makes of a
    Block List, with the address of the chosen header. *)
Fixpoint first_fit (r : Z) (a : Z) (l : list block) : option (Z * list block) :=
  match l with
  | [] => None
  | (s, f) :: rest =>
      if f && (r + sizeof_MemoryBlock <=? s) then
        Some (a, (r, false) :: (s - r - sizeof_MemoryBlock, true) :: rest)
      else
        match first_fit r (a + sizeof_MemoryBlock + s) rest with
        | Some (c, rest') => Some (c, (s, f) :: rest')
        | None => None
        end
  end.

(** ** Requests, and relations between states *)

(** A block that first fit may choose for [r] payload bytes. *)
Definition fits (r : Z) (b : block) : Prop :=
  b.2 = true ∧ r + sizeof_MemoryBlock <= b.1.

(** The statics of the pool registry are not touched. *)
Definition same_registry (k k' : Kernel) : Prop :=
  pool_ram k' = pool_ram k ∧ memory_pools k' = memory_pools k ∧
  memory_pool_count k' = memory_pool_count k ∧
  memory_total k' = memory_total k.

(** A request that the [u32] arithmetic of [memory_alloc] carries without
    wrapping around: neither the rounding nor the addition of the header
    size passes [2^32]. *)
Definition request_ok (n : Z) : Prop := 0 < n ∧ n + 7 + sizeof_MemoryBlock < 2 ^ 32.

(** The weaker condition that the rounded size and a header stay below
    [2^32]. *)
Definition header_fits (n : Z) : Prop := align8 n + sizeof_MemoryBlock < 2 ^ 32.

(** A Block List in which no two neighbours are both free. *)
Fixpoint settled (l : list block) : Prop :=
  match l with
  | [] => True
  | (s, f) :: rest =>
      match rest with
      | (_, f2) :: _ => f && f2 = false
      | [] => True
      end ∧ settled rest
  end.

(** The header that the scan of [memory_alloc] stops at: the first free
    block whose payload reaches the threshold the code computes. *)
Fixpoint scan_choice (thr a : Z) (l : list block) : option Z :=
  match l with
  | [] => None
  | (s, f) :: rest =>
      if f && (thr <=? s) then Some a
      else scan_choice thr (a + sizeof_MemoryBlock + s) rest
  end.

(** ** A checker for the invariant

    [heap_inv_check k l] decides, for a given state and list, what
    [heap_inv k l] states. *)

Definition header_eqb (o : option MemoryBlock) (b : MemoryBlock) : bool :=
  match o with
  | Some b' =>
      (blk_size b' =? blk_size b) && Bool.eqb (blk_free b') (blk_free b)
      && (blk_next b' =? blk_next b) && (blk_prev b' =? blk_prev b)
  | None => false
  end.

Fixpoint chain_check (m : gmap Z MemoryBlock) (a pv : Z) (l : list block) : bool :=
  match l with
  | [] => true
  | (s, f) :: rest =>
      (0 <=? s) && (s mod 8 =? 0)
      && header_eqb (m !! a) (mkBlock s f (next_of a s rest) pv)
      && chain_check m (a + sizeof_MemoryBlock + s) a rest
  end.

Definition live_check (m : gmap Z MemoryBlock) (l : list block) : bool :=
  forallb (fun cb : Z * MemoryBlock =>
             blk_free cb.2 || existsb (Z.eqb cb.1) (live_addrs heap_start l))
          (map_to_list m).

Definition heap_inv_check (k : Kernel) (l : list block) : bool :=
  (memory_list k =? heap_start)
  && chain_check (ram k) heap_start NULL l
  && negb (match l with [] => true | _ => false end)
  && (footprint l =? heap_size)
  && (memory_block_count k =? Z.of_nat (length l))
  && live_check (ram k) l.

(** ** Sizes of runs, and pool structures after a call *)

(** Sum of the payload sizes of a list of blocks. *)
Fixpoint payload_sum (l : list block) : Z :=
  match l with
  | [] => 0
  | (s, _) :: rest => s + payload_sum rest
  end.

(** The pool structure after a successful [mempool_alloc] of [size]. *)
Definition bumped (p : MemoryPool) (size : Z) : MemoryPool :=
  mkPool (pool_id p) (pool_name p) (pool_type p) (pool_base_address p)
    (pool_size p) (pool_block_size p) (pool_flags p)
    (pool_used p + size) (u32 (pool_allocations p + 1)) (pool_frees p)
    (if pool_peak_usage p <? pool_used p + size then pool_used p + size
     else pool_peak_usage p).

(** The pool structure after a [mempool_free]. *)
Definition released (p : MemoryPool) : MemoryPool :=
  mkPool (pool_id p) (pool_name p) (pool_type p) (pool_base_address p)
    (pool_size p) (pool_block_size p) (pool_flags p) (pool_used p)
    (pool_allocations p) (u32 (pool_frees p + 1)) (pool_peak_usage p).

(** ** A platform and some of its states

    A platform with 16 registry slots, a pool structure of 72 bytes and a
    name field of 32 bytes, and states that the allocator reaches on it. *)

Definition demo : Platform := mkPlatform 16 72 32.

Definition state_after {A} (o : outcome A) : Kernel :=
  match o with
  | Ret _ k => k
  | _ => boot demo
  end.

(** The heap as [memory_init] leaves it. *)
Definition k_init : Kernel := state_after (memory_init demo 64 (boot demo)).
Definition l_init : list block :=
  [(72, false); (1048576, false); (3145608, true)].

(** ... after [memory_alloc(100)], which returns 2097272. *)
Definition k_alloc100 : Kernel := state_after (memory_alloc 64 100 k_init).
Definition l_alloc100 : list block :=
  [(72, false); (1048576, false); (104, false); (3145488, true)].

(** ... after [memory_alloc(0xFFFFFFF0)], which returns 2097272. *)
Definition k_wrapped : Kernel :=
  state_after (memory_alloc 64 4294967280 k_init).

(** ... after [memory_alloc(sizeof(MemoryPool))], which returns 2097272. *)
Definition k_meta : Kernel := state_after (memory_alloc 64 72 k_init).

(** ... after [mempool_create("net", MEM_POOL_SMALL, 4096)], which
    returns 2097272, the address of the structure [p_net]. *)
Definition k_net : Kernel :=
  state_after (mempool_create demo 64 "net" MEM_POOL_SMALL 4096 k_init).
Definition p_net : MemoryPool :=
  mkPool 2 "net" MEM_POOL_SMALL 2097360 4096 64 0 0 0 0 0.

(** A heap whose first two blocks are free and adjacent. *)
Definition k_run : Kernel :=
  mkKernel
    (<[heap_start := mkBlock 64 true (heap_start + 80) 0]>
       (<[heap_start + 80 := mkBlock 128 true (heap_start + 224) heap_start]>
          {[heap_start + 224 := mkBlock 4194064 false 0 (heap_start + 80)]}))
    ∅ (16 * MB) 4194080 12583136 3 heap_start [] 0.

(** ** Sequences of calls *)

Inductive call : Set :=
  | Alloc (n : Z)
  | Free (ptr : Z).

Definition do_call (fuel : nat) (c : call) : M unit :=
  match c with
  | Alloc n => let* _ := memory_alloc fuel n in ret tt
  | Free ptr => let* _ := memory_free fuel ptr in ret tt
  end.

Fixpoint do_calls (fuel : nat) (cs : list call) : M unit :=
  match cs with
  | [] => ret tt
  | c :: rest => let* _ := do_call fuel c in do_calls fuel rest
  end.

(** ** Statistics

    [memory_get_stats(stats)] copies five statics into the caller's
    structure when [stats] is not null; [None] stands for the null
    pointer and the result is what the structure holds afterwards. *)

Record MemoryStats : Set := mkStats {
  stats_total : Z;
  stats_used : Z;
  stats_free : Z;
  stats_blocks : Z;
  stats_pools : Z
}.

Definition memory_get_stats (stats : option MemoryStats) (k : Kernel)
    : option MemoryStats :=
  match stats with
  | Some _ =>
      Some (mkStats (memory_total k) (memory_used k) (memory_free_ctr k)
              (memory_block_count k) (memory_pool_count k))
  | None => None
  end.

Definition memory_get_free (k : Kernel) : Z := memory_free_ctr k.

(** Bytes of the arena held by the allocated blocks of a list, headers
    included. *)
Fixpoint used_bytes (l : list block) : Z :=
  match l with
  | [] => 0
  | (s, f) :: rest =>
      (if f then 0 else s + sizeof_MemoryBlock) + used_bytes rest
  end.

(** The counters agree with the Block List. *)
Definition stats_inv (k : Kernel) (l : list block) : Prop :=
  memory_total k = 16 * MB ∧
  memory_used k = used_bytes l ∧
  memory_free_ctr k = memory_total k - memory_used k.

(** What holds of the allocator between calls: the heap is well formed,
    no two neighbours of the Block List are both free, and the counters
    agree with the list. *)
Definition good (k : Kernel) (l : list block) : Prop :=
  heap_inv k l ∧ settled l ∧ stats_inv k l.

(** ** Allocated blocks, and the registry over the heap *)

(** Payload address and payload size of the allocated blocks of [l] laid
    out from [a]. *)
Fixpoint live_blocks (a : Z) (l : list block) : list (Z * Z) :=
  match l with
  | [] => []
  | (s, f) :: rest =>
      (if f then [] else [(a + sizeof_MemoryBlock, s)])
      ++ live_blocks (a + sizeof_MemoryBlock + s) rest
  end.

(** The pools that the registry array holds: its non-null slots, in array
    order. *)
Fixpoint registered (slots : list Z) : list Z :=
  match slots with
  | [] => []
  | s :: rest => if s =? NULL then registered rest else s :: registered rest
  end.

(** The payload addresses that a list of pools takes from the heap: for
    each pool its structure and, where the structure is in memory, its
    body. *)
Fixpoint pool_blocks (m : gmap Z MemoryPool) (pools : list Z) : list Z :=
  match pools with
  | [] => []
  | p :: rest =>
      p :: match m !! p with
           | Some ps => [pool_base_address ps]
           | None => []
           end ++ pool_blocks m rest
  end.

(** The registry over the heap [l]: the array has its full length, the
    count is the number of pools it holds, every pool has its structure
    and its body in allocated blocks of the heap, of the sizes asked for,
    and no block serves twice. *)
Record pools_inv (pf : Platform) (k : Kernel) (l : list block) : Prop :=
  mk_pools_inv {
  pi_slots : length (memory_pools k) = MAX_MEMPOOLS pf;
  pi_count :
    memory_pool_count k = Z.of_nat (length (registered (memory_pools k)));
  pi_owned : ∀ p, p ∈ registered (memory_pools k) →
    ∃ ps, pool_ram k !! p = Some ps ∧
          (p, align8 (sizeof_MemoryPool pf)) ∈ live_blocks heap_start l ∧
          (pool_base_address ps, align8 (pool_size ps))
            ∈ live_blocks heap_start l;
  pi_nodup : NoDup (pool_blocks (pool_ram k) (registered (memory_pools k)))
}.

(** ** Sequences of calls on one pool *)

Inductive pool_call : Set :=
  | PoolAlloc (size : Z)
  | PoolFree (ptr : Z).

(** Runs the calls in order and collects what the allocations that
    succeed return, each with the size asked for. *)
Fixpoint pool_calls (pool : Z) (cs : list pool_call) : M (list (Z * Z)) :=
  match cs with
  | [] => ret []
  | PoolAlloc n :: rest =>
      let* p := mempool_alloc pool n in
      let* got := pool_calls pool rest in
      ret (if p =? NULL then got else (p, n) :: got)
  | PoolFree q :: rest =>
      let* _ := mempool_free pool q in
      pool_calls pool rest
  end.

(** A request that [used + size] carries without wrapping in a pool of
    the size of [p]. *)
Definition pool_call_ok (p : MemoryPool) (c : pool_call) : Prop :=
  match c with
  | PoolAlloc n => 0 <= n ∧ pool_size p + n < 2 ^ 32
  | PoolFree _ => True
  end.

(** Ranges that lie back to back from [a] on, none of them empty. *)
Fixpoint packed (a : Z) (got : list (Z * Z)) : Prop :=
  match got with
  | [] => True
  | (p, n) :: rest => p = a ∧ 0 < n ∧ packed (a + n) rest
  end.

Fixpoint total_size (got : list (Z * Z)) : Z :=
  match got with
  | [] => 0
  | (_, n) :: rest => n + total_size rest
  end.

(** The fields of a pool structure that [mempool_create] sets. *)
Definition same_pool (p p' : MemoryPool) : Prop :=
  pool_id p' = pool_id p ∧ pool_name p' = pool_name p ∧
  pool_type p' = pool_type p ∧
  pool_base_address p' = pool_base_address p ∧
  pool_size p' = pool_size p ∧ pool_block_size p' = pool_block_size p ∧
  pool_flags p' = pool_flags p.

(** ** Listing the pools

    [mempool_type_to_string]; its [default] case answers for values
    outside the enumeration, which [MemoryPoolType] does not have. *)
Definition mempool_type_to_string (type : MemoryPoolType) : string :=
  match type with
  | MEM_POOL_DEFAULT => "DEFAULT"
  | MEM_POOL_SMALL => "SMALL"
  | MEM_POOL_MEDIUM => "MEDIUM"
  | MEM_POOL_LARGE => "LARGE"
  | MEM_POOL_SPECIAL => "SPECIAL"
  end.

(** One line of the table of [mempool_list_all]: the five arguments of
    the [kprintf] call in its loop. *)
Record PoolRow : Set := mkRow {
  row_id : Z;
  row_name : string;
  row_type : string;
  row_size : Z;
  row_used : Z
}.

Definition row_of (p : MemoryPool) : PoolRow :=
  mkRow (pool_id p) (pool_name p) (mempool_type_to_string (pool_type p))
    (pool_size p) (pool_used p).

(** The loop of [mempool_list_all]: a line for every slot that holds a
    pool, in array order. *)
Fixpoint list_rows (m : gmap Z MemoryPool) (slots : list Z)
    : option (list PoolRow) :=
  match slots with
  | [] => Some []
  | s :: rest =>
      if s =? NULL then list_rows m rest
      else match m !! s with
           | Some p =>
               match list_rows m rest with
               | Some rows => Some (row_of p :: rows)
               | None => None
               end
           | None => None
           end
  end.

(** [mempool_list_all] prints and changes nothing; what it prints is the
    result here: the count shown in the heading, and the lines. *)
Definition mempool_list_all : M (Z * list PoolRow) :=
  fun k => match list_rows (pool_ram k) (memory_pools k) with
           | Some rows => Ret (memory_pool_count k, rows) k
           | None => Fault
           end.

(** ** The calls on the Block List

    What a sequence of calls makes of the Block List, when every release
    is of a block that is allocated at that moment. *)

(** The list after the allocated block whose payload lies at [p] is
    marked free; [None] when no allocated block of the list has its
    payload at [p]. *)
Fixpoint release (a p : Z) (l : list block) : option (list block) :=
  match l with
  | [] => None
  | (s, f) :: rest =>
      if a + sizeof_MemoryBlock =? p then
        if f then None else Some ((s, true) :: rest)
      else
        match release (a + sizeof_MemoryBlock + s) p rest with
        | Some rest' => Some ((s, f) :: rest')
        | None => None
        end
  end.

(** One call: an allocation whose rounded size and a header stay below
    [2^32] splits the first block that fits, if there is one; a release
    of [NULL] does nothing; a release of the payload of an allocated
    block frees it and merges the runs.  Other calls have no list. *)
Definition list_call (c : call) (l : list block) : option (list block) :=
  match c with
  | Alloc n =>
      if align8 n + sizeof_MemoryBlock <? 2 ^ 32 then
        if n =? 0 then Some l
        else match first_fit (align8 n) heap_start l with
             | Some (_, l') => Some l'
             | None => Some l
             end
      else None
  | Free p =>
      if p =? NULL then Some l
      else match release heap_start p l with
           | Some l' => Some (merge_free l')
           | None => None
           end
  end.

Fixpoint list_calls (cs : list call) (l : list block) : option (list block) :=
  match cs with
  | [] => Some l
  | c :: rest =>
      match list_call c l with
      | Some l' => list_calls rest l'
      | None => None
      end
  end.

(** A heap with two runs of free blocks, an allocated block between
    them. *)
Definition l_two_runs : list block :=
  [(64, true); (128, true); (256, false); (64, true); (4193712, true)].
Definition k_two_runs : Kernel :=
  mkKernel
    (<[heap_start := mkBlock 64 true (heap_start + 80) 0]>
       (<[heap_start + 80 := mkBlock 128 true (heap_start + 224) heap_start]>
          (<[heap_start + 224 :=
               mkBlock 256 false (heap_start + 496) (heap_start + 80)]>
             (<[heap_start + 496 :=
                  mkBlock 64 true (heap_start + 576) (heap_start + 224)]>
                {[heap_start + 576 :=
                    mkBlock 4193712 true 0 (heap_start + 496)]}))))
    ∅ (16 * MB) 272 16776944 5 heap_start [] 0.

(** ** Arithmetic of [u32] *)

Lemma u32_small z : 0 <= z < 2 ^ 32 → u32 z = z.
Proof. intros H. unfold u32. apply Z.mod_small. lia. Qed.

Lemma u32_range z : 0 <= u32 z < 2 ^ 32.
Proof. unfold u32. apply Z.mod_pos_bound. lia. Qed.

Lemma land_mask8 x : 0 <= x < 2 ^ 32 → Z.land x (u32 (Z.lnot 7)) = 8 * (x / 8).
Proof.
  intros Hx.
  assert (Hm : u32 (Z.lnot 7) = Z.land (Z.lnot 7) (Z.ones 32)).
  { unfold u32. now rewrite Z.land_ones by lia. }
  rewrite Hm, Z.land_assoc, (Z.land_comm x), <- Z.land_assoc.
  rewrite (Z.land_ones x 32) by lia.
  rewrite (Z.mod_small x) by lia.
  change 7 with (Z.ones 3).
  rewrite Z.land_comm.
  change (Z.land x (Z.lnot (Z.ones 3))) with (Z.ldiff x (Z.ones 3)).
  rewrite Z.ldiff_ones_r by lia.
  rewrite Z.shiftr_div_pow2, Z.shiftl_mul_pow2 by lia.
  change (2 ^ 3) with 8. lia.
Qed.

Lemma mod8_add a b : a mod 8 = 0 → b mod 8 = 0 → (a + b) mod 8 = 0.
Proof. intros Ha Hb. rewrite Z.add_mod, Ha, Hb by lia. done. Qed.

Lemma mod8_sub a b : a mod 8 = 0 → b mod 8 = 0 → (a - b) mod 8 = 0.
Proof. intros Ha Hb. rewrite Zminus_mod, Ha, Hb. done. Qed.

Ltac mod8 :=
  repeat first [ assumption | reflexivity | apply mod8_sub | apply mod8_add ].

Lemma align8_spec n :
  0 <= n → n + 7 < 2 ^ 32 → align8 n = 8 * ((n + 7) / 8).
Proof.
  intros H0 H1. unfold align8.
  rewrite (u32_small (n + 7)) by lia.
  apply land_mask8. lia.
Qed.

Lemma align8_range n : 0 <= align8 n < 2 ^ 32 ∧ align8 n mod 8 = 0.
Proof.
  unfold align8. pose proof (u32_range (n + 7)) as Hx.
  rewrite land_mask8 by done.
  pose proof (Z.div_mod (u32 (n + 7)) 8 ltac:(lia)) as Hd.
  pose proof (Z.mod_pos_bound (u32 (n + 7)) 8 ltac:(lia)) as Hb.
  split; [lia|]. rewrite Z.mul_comm. apply Z.mod_mul. lia.
Qed.

Lemma align8_bounds n :
  0 <= n → n + 7 < 2 ^ 32 →
  n <= align8 n < n + 8 ∧ align8 n mod 8 = 0.
Proof.
  intros H0 H1. rewrite align8_spec by assumption.
  pose proof (Z.div_mod (n + 7) 8 ltac:(lia)) as Hd.
  pose proof (Z.mod_pos_bound (n + 7) 8 ltac:(lia)) as Hb.
  split; [lia|].
  rewrite Z.mul_comm. apply Z.mod_mul. lia.
Qed.

(** ** Chains of headers *)

Lemma footprint_nonneg m a pv l : chain m a pv l → 0 <= footprint l.
Proof.
  revert a pv. induction l as [|[s f] rest IH]; simpl; intros a pv H; [lia|].
  destruct H as (Hs & _ & _ & Hr). specialize (IH _ _ Hr).
  unfold sizeof_MemoryBlock. lia.
Qed.

Lemma footprint_app l1 l2 : footprint (l1 ++ l2) = footprint l1 + footprint l2.
Proof. induction l1 as [|[s f] rest IH]; simpl; lia. Qed.

Lemma chain_frame m a pv l c b :
  c < a → chain m a pv l → chain (<[c := b]> m) a pv l.
Proof.
  revert a pv. induction l as [|[s f] rest IH]; simpl; intros a pv Hc H; [done|].
  destruct H as (Hs & H8 & Hh & Hr). repeat split; try done.
  - rewrite lookup_insert_ne by lia. done.
  - apply IH; [unfold sizeof_MemoryBlock; lia | done].
Qed.

Lemma chain_agree m m' a pv l :
  (∀ c, a <= c → m' !! c = m !! c) → chain m a pv l → chain m' a pv l.
Proof.
  revert a pv. induction l as [|[s f] rest IH]; simpl; intros a pv Hc H; [done|].
  destruct H as (Hs & H8 & Hh & Hr). repeat split; try done.
  - rewrite Hc by lia. done.
  - apply IH; [|done]. intros c Hle. apply Hc. unfold sizeof_MemoryBlock in *. lia.
Qed.

Lemma merge_free_nonempty l : l ≠ [] → merge_free l ≠ [].
Proof.
  destruct l as [|[s f] rest]; [done|]. intros _. simpl.
  destruct f; [|done]. destruct (merge_free rest) as [|[s' [|]] r]; done.
Qed.

Lemma merge_free_absorb s1 s2 rest :
  merge_free ((s1, true) :: (s2, true) :: rest)
  = merge_free ((s1 + s2 + sizeof_MemoryBlock, true) :: rest).
Proof.
  simpl. destruct (merge_free rest) as [|[s' [|]] r]; try done.
  f_equal. f_equal. unfold sizeof_MemoryBlock. lia.
Qed.

Lemma merge_free_keep s f s2 f2 rest :
  f && f2 = false →
  merge_free ((s, f) :: (s2, f2) :: rest) = (s, f) :: merge_free ((s2, f2) :: rest).
Proof.
  intros H. change (merge_free ((s, f) :: (s2, f2) :: rest))
    with (match f, merge_free ((s2, f2) :: rest) with
          | true, (s', true) :: r => (s + s' + sizeof_MemoryBlock, true) :: r
          | _, r => (s, f) :: r
          end).
  destruct f; [|done]. simpl in H. subst f2. simpl. done.
Qed.

Lemma merge_free_single s f : merge_free [(s, f)] = [(s, f)].
Proof. by destruct f. Qed.

Lemma footprint_merge_free l : footprint (merge_free l) = footprint l.
Proof.
  induction l as [|[s f] rest IH]; [done|]. simpl.
  destruct f; [|simpl; lia].
  destruct (merge_free rest) as [|[s' [|]] r]; simpl in *; lia.
Qed.

Lemma length_merge_free l : (length (merge_free l) <= length l)%nat.
Proof.
  induction l as [|[s f] rest IH]; [done|]. simpl.
  destruct f; [|simpl; lia].
  destruct (merge_free rest) as [|[s' [|]] r]; simpl in *; lia.
Qed.

Arguments merge_free : simpl never.

(** ** Stepping through a computation *)

Lemma bind_ret_l {A B} (a : A) (f : A → M B) k : bind (ret a) f k = f a k.
Proof. done. Qed.

Lemma bind_get {A B} (g : Kernel → A) (f : A → M B) k :
  bind (get g) f k = f (g k) k.
Proof. done. Qed.

Lemma bind_modify {B} (g : Kernel → Kernel) (f : unit → M B) k :
  bind (modify g) f k = f tt (g k).
Proof. done. Qed.

Lemma bind_load {B} a b (f : MemoryBlock → M B) k :
  ram k !! a = Some b → bind (load a) f k = f b k.
Proof. intros H. unfold bind, load. by rewrite H. Qed.

Lemma bind_store {B} a b g (f : unit → M B) k :
  ram k !! a = Some b →
  bind (store a g) f k = f tt (set_ram (fun _ => <[a := g b]> (ram k)) k).
Proof. intros H. unfold bind, store, modify, set_ram. by rewrite H. Qed.

Arguments set_ram _ _ /.
Arguments set_pool_ram _ _ /.
Arguments set_memory_total _ _ /.
Arguments set_memory_used _ _ /.
Arguments set_memory_free_ctr _ _ /.
Arguments set_memory_block_count _ _ /.
Arguments set_memory_list _ _ /.
Arguments set_memory_pools _ _ /.
Arguments set_memory_pool_count _ _ /.
Arguments with_size _ _ /.
Arguments with_free _ _ /.
Arguments with_next _ _ /.
Arguments with_prev _ _ /.

Ltac knorm :=
  unfold sizeof_MemoryBlock, NULL, block in *;
  cbn [set_ram set_pool_ram set_memory_total set_memory_used
       set_memory_free_ctr set_memory_block_count set_memory_list
       set_memory_pools set_memory_pool_count
       with_size with_free with_next with_prev
       ram pool_ram memory_total memory_used memory_free_ctr
       memory_block_count memory_list memory_pools memory_pool_count
       blk_size blk_free blk_next blk_prev] in *.

Ltac klookup :=
  knorm;
  repeat (first [ rewrite lookup_insert_eq
                | rewrite lookup_insert_ne by lia ]);
  first [ eassumption | reflexivity ].

Ltac kstep :=
  first
    [ rewrite bind_ret_l
    | rewrite bind_get
    | rewrite bind_modify
    | erewrite bind_load by klookup
    | erewrite bind_store by klookup ];
  knorm.

(** ** One pass of coalescing *)

Lemma coalesce_loop_spec fuel : ∀ l k a pv,
  (length l <= fuel)%nat → l ≠ [] → 0 < a → a + footprint l <= 2 ^ 32 →
  chain (ram k) a pv l →
  Z.of_nat (length l) <= memory_block_count k < 2 ^ 32 →
  ∃ m',
    coalesce_loop fuel a k
    = Ret tt (set_memory_block_count
                (memory_block_count k
                 - (Z.of_nat (length l) - Z.of_nat (length (merge_free l))))
                (set_ram (fun _ => m') k)) ∧
    chain m' a pv (merge_free l) ∧
    (∀ c, c < a → m' !! c = ram k !! c) ∧
    (∀ c, blk_free <$> (m' !! c) = blk_free <$> (ram k !! c)).
Proof.
  induction fuel as [|fuel IH]; intros l k a pv Hlen Hne Ha Hfit Hch Hcnt.
  { destruct l; [done|simpl in Hlen; lia]. }
  destruct l as [|[s f] rest]; [done|]. clear Hne.
  simpl in Hch. destruct Hch as (Hs & H8 & Hh & Hr).
  simpl coalesce_loop. knorm.
  assert (Hnz : (a =? 0) = false) by (apply Z.eqb_neq; lia).
  rewrite Hnz. kstep.
  destruct rest as [|[s2 f2] rest2].
  - (* last block *)
    simpl next_of. rewrite Z.eqb_refl. exists (ram k).
    rewrite merge_free_single. cbn [length].
    split; [|simpl; done].
    destruct k; unfold ret; knorm. do 2 f_equal. lia.
  - pose proof (footprint_nonneg _ _ _ _ Hr) as Hfp.
    simpl in Hr. destruct Hr as (Hs2 & H82 & Hh2 & Hr2).
    simpl in Hfit, Hfp, Hlen. knorm.
    pose proof (footprint_nonneg _ _ _ _ Hr2) as Hfp2.
    cbn [next_of] in *. knorm.
    assert (Hnz2 : (a + 16 + s =? 0) = false) by (apply Z.eqb_neq; lia).
    rewrite Hnz2. kstep.
    destruct (f && f2) eqn:Hff.
    + apply andb_true_iff in Hff as [-> ->].
      destruct k as [m pr mt mu mf bc ml mp pc]. cbn [ram memory_block_count] in *.
      repeat kstep. rewrite insert_insert_eq.
      rewrite (u32_small (s2 + 16)) by lia.
      rewrite (u32_small (s + (s2 + 16))) by lia.
      rewrite merge_free_absorb. knorm.
      destruct rest2 as [|[s3 f3] rest3].
      * cbn [next_of]. knorm. rewrite Z.eqb_refl. repeat kstep.
        rewrite (u32_small (bc - 1)) by (simpl in Hcnt; lia).
        match goal with |- context [coalesce_loop fuel a ?k3] =>
          set (K3 := k3) end.
        assert (Hch3 : chain (ram K3) a pv [(s + s2 + 16, true)]).
        { simpl. knorm. repeat split; try lia; [mod8|].
          replace (s + (s2 + 16)) with (s + s2 + 16) by lia.
          apply lookup_insert_eq. }
        destruct (IH [(s + s2 + 16, true)] K3 a pv) as (m' & He & Hc' & Hfr & Hfl);
          [simpl; lia|done|done|simpl; knorm; lia|done|simpl in *; lia|].
        exists m'. rewrite He. subst K3. knorm. split; [|split; [done|split]].
        -- do 2 f_equal. simpl. lia.
        -- intros c Hc. rewrite Hfr by done. rewrite lookup_insert_ne by lia. done.
        -- intros c. rewrite Hfl. destruct (decide (c = a)) as [->|].
           ++ rewrite lookup_insert_eq, Hh. done.
           ++ rewrite lookup_insert_ne by done. done.
      * simpl in Hr2. destruct Hr2 as (Hs3 & H83 & Hh3 & Hr3).
        simpl in Hfit, Hfp2, Hlen, Hcnt. knorm.
        pose proof (footprint_nonneg _ _ _ _ Hr3) as Hfp3.
        cbn [next_of] in *. knorm.
        assert (Hnz3 : (a + 16 + s + 16 + s2 =? 0) = false) by (apply Z.eqb_neq; lia).
        rewrite Hnz3. repeat kstep.
        rewrite (u32_small (bc - 1)) by lia.
        match goal with |- context [coalesce_loop fuel a ?k3] =>
          set (K3 := k3) end.
        assert (Hch3 : chain (ram K3) a pv ((s + s2 + 16, true) :: (s3, f3) :: rest3)).
        { simpl. knorm. repeat split; try lia; [mod8| | |].
          - rewrite lookup_insert_ne by lia.
            replace (s + (s2 + 16)) with (s + s2 + 16) by lia.
            rewrite lookup_insert_eq. do 2 f_equal. lia.
          - replace (a + 16 + (s + s2 + 16)) with (a + 16 + s + 16 + s2) by lia.
            rewrite lookup_insert_eq. done.
          - replace (a + 16 + (s + s2 + 16)) with (a + 16 + s + 16 + s2) by lia.
            apply chain_frame; [lia|]. apply chain_frame; [lia|]. done. }
        destruct (IH ((s + s2 + 16, true) :: (s3, f3) :: rest3) K3 a pv)
          as (m' & He & Hc' & Hfr & Hfl);
          [simpl in *; lia|done|done|simpl; knorm; lia|done|simpl in *; lia|].
        exists m'. rewrite He. subst K3. knorm. split; [|split; [done|split]].
        -- do 2 f_equal. simpl. lia.
        -- intros c Hc. rewrite Hfr by done. rewrite !lookup_insert_ne by lia. done.
        -- intros c. rewrite Hfl. destruct (decide (c = a + 16 + s + 16 + s2)) as [->|].
           { rewrite lookup_insert_eq, Hh3. done. }
           rewrite lookup_insert_ne by done.
           destruct (decide (c = a)) as [->|].
           ++ rewrite lookup_insert_eq, Hh. done.
           ++ rewrite lookup_insert_ne by done. done.
    + (* no merge: advance *)
      rewrite merge_free_keep by done.
      destruct (IH ((s2, f2) :: rest2) k (a + 16 + s) a)
        as (m' & He & Hc' & Hfr & Hfl);
        [simpl in *; lia|done|lia|simpl; knorm; lia
        |simpl; knorm; done|simpl in *; lia|].
      exists m'. rewrite He. split; [|split; [|split]].
      * do 2 f_equal. simpl length. lia.
      * pose proof (merge_free_nonempty ((s2, f2) :: rest2) ltac:(done)) as Hne.
        simpl. knorm. repeat split; try done.
        rewrite Hfr by lia. rewrite Hh. do 2 f_equal.
        destruct (merge_free ((s2, f2) :: rest2)); done.
      * intros c Hc. apply Hfr. lia.
      * done.
Qed.

(** ** Splitting a block *)

Lemma bind_store_any {B} a g (f : unit → M B) k :
  bind (store a g) f k
  = f tt (set_ram (fun _ => <[a := g (default blank (ram k !! a))]> (ram k)) k).
Proof. done. Qed.

Lemma split_block_spec k a s nx pv r :
  ram k !! a = Some (mkBlock s true nx pv) →
  0 < a → a + 16 + s <= 2 ^ 32 → 0 <= r → r + 16 <= s →
  (nx = 0 ∨ nx = a + 16 + s) →
  ∃ m',
    split_block a r k
    = Ret (a + 16)
        (mkKernel m' (pool_ram k) (memory_total k)
           (u32 (memory_used k + (r + 16)))
           (u32 (memory_free_ctr k - (r + 16)))
           (u32 (memory_block_count k + 1))
           (memory_list k) (memory_pools k) (memory_pool_count k)) ∧
    m' !! a = Some (mkBlock r false (a + 16 + r) pv) ∧
    m' !! (a + 16 + r) = Some (mkBlock (s - r - 16) true nx a) ∧
    (nx ≠ 0 →
     m' !! nx = with_prev (a + 16 + r) <$> Some (default blank (ram k !! nx))) ∧
    (∀ x, x ≠ a → x ≠ a + 16 + r → x ≠ nx ∨ nx = 0 → m' !! x = ram k !! x).
Proof.
  intros Hh Ha Hfit Hr Hrs Hnx.
  destruct k as [m pr mt mu mf bc ml mp pc]. knorm.
  unfold split_block. knorm.
  rewrite (u32_small (a + 16 + r)) by lia.
  rewrite (u32_small (r + 16)) by lia.
  rewrite (u32_small (a + 16)) by lia.
  kstep. rewrite bind_store_any. knorm.
  rewrite bind_store_any. knorm. rewrite lookup_insert_eq. cbn [default]. knorm.
  rewrite insert_insert_eq.
  kstep. rewrite bind_store_any. knorm. rewrite lookup_insert_eq. cbn [default]. knorm.
  rewrite insert_insert_eq.
  rewrite bind_store_any. knorm. rewrite lookup_insert_eq. cbn [default]. knorm.
  rewrite insert_insert_eq.
  rewrite (u32_small (s - r - 16)) by lia.
  kstep.
  destruct (nx =? 0) eqn:Hz.
  - apply Z.eqb_eq in Hz. subst nx.
    repeat kstep. rewrite !insert_insert_eq. unfold ret.
    eexists. split; [reflexivity|].
    split; [apply lookup_insert_eq|].
    split; [rewrite lookup_insert_ne by lia; apply lookup_insert_eq|].
    split; [done|].
    intros x H1 H2 _. rewrite !lookup_insert_ne by done. done.
  - apply Z.eqb_neq in Hz. destruct Hnx as [?|Hnx]; [done|]. subst nx.
    rewrite bind_store_any. knorm. rewrite !lookup_insert_ne by lia.
    repeat kstep. rewrite !insert_insert_eq. unfold ret.
    eexists. split; [reflexivity|].
    split; [apply lookup_insert_eq|].
    split; [rewrite !lookup_insert_ne by lia; apply lookup_insert_eq|].
    split.
    + intros _. rewrite lookup_insert_ne by lia. rewrite lookup_insert_eq. done.
    + intros x H1 H2 [H3|H3]; [|lia]. rewrite !lookup_insert_ne by done. done.
Qed.

(** ** The first-fit scan *)

Lemma first_fit_nonempty r a l c l' : first_fit r a l = Some (c, l') → l' ≠ [].
Proof.
  destruct l as [|[s f] rest]; simpl; [done|].
  destruct (f && (r + sizeof_MemoryBlock <=? s)); [by intros [= _ <-]|].
  destruct (first_fit r (a + sizeof_MemoryBlock + s) rest) as [[c' rest']|];
    [by intros [= _ <-]|done].
Qed.

Lemma alloc_scan_spec l : ∀ fuel k a pv r,
  (length l < fuel)%nat → l ≠ [] → 0 < a → a + footprint l <= 2 ^ 32 →
  chain (ram k) a pv l →
  0 <= r → r mod 8 = 0 → r + 16 < 2 ^ 32 →
  match first_fit r a l with
  | None => alloc_scan fuel r a k = Ret NULL k
  | Some (c, l') =>
      ∃ m',
        alloc_scan fuel r a k
        = Ret (c + 16)
            (mkKernel m' (pool_ram k) (memory_total k)
               (u32 (memory_used k + (r + 16)))
               (u32 (memory_free_ctr k - (r + 16)))
               (u32 (memory_block_count k + 1))
               (memory_list k) (memory_pools k) (memory_pool_count k)) ∧
        chain m' a pv l' ∧
        a <= c ∧ c + 16 + r < a + footprint l ∧
        (∀ x, x < a → m' !! x = ram k !! x) ∧
        (∃ nx pv', m' !! c = Some (mkBlock r false nx pv')) ∧
        (∃ b, m' !! (c + 16 + r) = Some b ∧ blk_free b = true) ∧
        (∀ x, x ≠ c → x ≠ c + 16 + r →
              blk_free <$> (m' !! x) = blk_free <$> (ram k !! x))
  end.
Proof.
  induction l as [|[s f] rest IH]; intros fuel k a pv r Hlen Hne Ha Hfit Hch Hr Hr8 Hr32;
    [done|]. clear Hne.
  destruct fuel as [|fuel]; [simpl in Hlen; lia|].
  simpl in Hch. destruct Hch as (Hs & H8 & Hh & Hrest).
  pose proof (footprint_nonneg _ _ _ _ Hrest) as Hfp.
  simpl in Hfit, Hlen. simpl first_fit. simpl alloc_scan. knorm.
  assert (Hnz : (a =? 0) = false) by (apply Z.eqb_neq; lia).
  rewrite Hnz. kstep. rewrite (u32_small (r + 16)) by lia.
  destruct (f && (r + 16 <=? s)) eqn:Hsel.
  - (* the block is chosen *)
    apply andb_true_iff in Hsel as [-> Hle]. apply Z.leb_le in Hle.
    destruct (split_block_spec k a s (next_of a s rest) pv r)
      as (m' & He & Hma & Hmb & Hmn & Hmo); try done; try lia.
    { destruct rest; [by left|right; simpl; knorm; done]. }
    exists m'. split; [done|].
    split; [|split; [lia|split; [simpl; knorm; lia|split; [|split; [eauto|split; [eauto|]]]]]].
    + simpl. knorm. repeat split; try done; try lia; try mod8.
      * rewrite Hmb. do 2 f_equal. destruct rest; simpl; knorm; [done|lia].
      * destruct rest as [|[s3 f3] rest3]; [done|].
        simpl in Hrest. destruct Hrest as (Hs3 & H83 & Hh3 & Hr3).
        cbn [next_of] in *. knorm.
        replace (a + 16 + r + 16 + (s - r - 16)) with (a + 16 + s) by lia.
        simpl. knorm. repeat split; try done.
        -- rewrite Hmn by lia. rewrite Hh3. done.
        -- eapply chain_agree; [|exact Hr3]. intros x Hx. apply Hmo; lia.
    + intros x Hx. apply Hmo; try lia. destruct rest; simpl; knorm; lia.
    + intros x H1 H2. destruct (decide (x = next_of a s rest)) as [->|Hn].
      * destruct rest as [|[s3 f3] rest3].
        { simpl in H1. simpl. apply (f_equal (fmap blk_free)). apply Hmo; auto. }
        simpl in Hrest. destruct Hrest as (Hs3 & H83 & Hh3 & Hr3).
        cbn [next_of] in *. knorm. rewrite Hmn by lia. rewrite Hh3. done.
      * rewrite Hmo by auto. done.
  - (* the scan moves on *)
    destruct rest as [|[s2 f2] rest2].
    + simpl. destruct fuel as [|fuel]; [lia|]. simpl. done.
    + cbn [next_of]. knorm.
      specialize (IH fuel k (a + 16 + s) a r).
      destruct (first_fit r (a + 16 + s) ((s2, f2) :: rest2)) as [[c l']|] eqn:Hff.
      * destruct IH as (m' & He & Hc' & Hac & Hcb & Hfr & Hhd & Hnb & Hfl);
          try done; try (simpl in *; lia).
        exists m'. split; [done|]. simpl in Hcb. knorm.
        split; [|split; [lia|split; [simpl; knorm; lia|split; [|done]]]].
        -- simpl. knorm. repeat split; try done.
           rewrite Hfr by lia. rewrite Hh.
           pose proof (first_fit_nonempty _ _ _ _ _ Hff).
           destruct l'; done.
        -- intros x Hx. apply Hfr. lia.
      * apply IH; try done; try (simpl in *; lia).
Qed.

(** ** Block Lists *)

Lemma live_addrs_app a l1 l2 :
  live_addrs a (l1 ++ l2) = live_addrs a l1 ++ live_addrs (a + footprint l1) l2.
Proof.
  revert a. induction l1 as [|[s f] rest IH]; intros a; simpl.
  - by rewrite Z.add_0_r.
  - rewrite IH, <- app_assoc. do 3 f_equal. lia.
Qed.

Lemma live_addrs_merge_free l : ∀ a, live_addrs a (merge_free l) = live_addrs a l.
Proof.
  induction l as [|[s f] rest IH]; intros a; [done|].
  unfold merge_free; fold merge_free. simpl live_addrs at 2.
  rewrite <- IH. destruct f; [|done].
  destruct (merge_free rest) as [|[s' [|]] r]; try done.
  simpl. f_equal. unfold sizeof_MemoryBlock. lia.
Qed.

Lemma live_addrs_split a l x :
  x ∈ live_addrs a l →
  ∃ pre s post, l = pre ++ (s, false) :: post ∧ x = a + footprint pre.
Proof.
  revert a. induction l as [|[s f] rest IH]; intros a; simpl; [by intros ?%elem_of_nil|].
  intros [Hx|Hx]%elem_of_app.
  - destruct f; [by apply elem_of_nil in Hx|].
    apply list_elem_of_singleton in Hx as ->.
    exists [], s, rest. simpl. split; [done|lia].
  - destruct (IH _ Hx) as (pre & s' & post & -> & ->).
    exists ((s, f) :: pre), s', post. simpl. split; [done|lia].
Qed.

Lemma chain_length m a pv l :
  chain m a pv l → 16 * Z.of_nat (length l) <= footprint l.
Proof.
  revert a pv. induction l as [|[s f] rest IH]; simpl; intros a pv H; [lia|].
  destruct H as (Hs & _ & _ & Hr). specialize (IH _ _ Hr).
  unfold sizeof_MemoryBlock. lia.
Qed.

Lemma chain_app m a pv l1 l2 :
  chain m a pv (l1 ++ l2) →
  ∃ pv', chain m (a + footprint l1) pv' l2.
Proof.
  revert a pv. induction l1 as [|[s f] rest IH]; simpl; intros a pv H.
  - exists pv. by rewrite Z.add_0_r.
  - destruct H as (_ & _ & _ & Hr). destruct (IH _ _ Hr) as [pv' H'].
    exists pv'. replace (a + (s + sizeof_MemoryBlock + footprint rest))
      with (a + sizeof_MemoryBlock + s + footprint rest) by lia. done.
Qed.

Lemma chain_prefix_nonneg m a pv l1 l2 :
  chain m a pv (l1 ++ l2) → 0 <= footprint l1.
Proof.
  revert a pv. induction l1 as [|[s f] rest IH]; simpl; intros a pv H; [lia|].
  destruct H as (Hs & _ & _ & Hr). specialize (IH _ _ Hr).
  unfold sizeof_MemoryBlock. lia.
Qed.

(** Flipping the free flag of one header of a chain. *)
Lemma chain_set_free m a pv pre s f f' post b :
  chain m a pv (pre ++ (s, f) :: post) →
  m !! (a + footprint pre) = Some b →
  chain (<[a + footprint pre := with_free f' b]> m) a pv (pre ++ (s, f') :: post).
Proof.
  revert a pv. induction pre as [|[s0 f0] rest IH]; simpl; intros a pv H Hb.
  - rewrite Z.add_0_r in *. destruct H as (Hs & H8 & Hh & Hr).
    rewrite Hh in Hb. injection Hb as <-. repeat split; try done.
    + rewrite lookup_insert_eq. done.
    + apply chain_frame; [unfold sizeof_MemoryBlock; lia|done].
  - destruct H as (Hs & H8 & Hh & Hr).
    pose proof (footprint_nonneg _ _ _ _ Hr) as Hfp.
    rewrite footprint_app in Hfp.
    destruct (chain_app _ _ _ _ _ Hr) as [pv' Hr'].
    pose proof (footprint_nonneg _ _ _ _ Hr') as Hfp'.
    pose proof (chain_prefix_nonneg _ _ _ _ _ Hr) as Hfr.
    repeat split; try done.
    + rewrite lookup_insert_ne by (unfold sizeof_MemoryBlock; lia).
      rewrite Hh. do 2 f_equal. by destruct rest.
    + replace (a + (s0 + sizeof_MemoryBlock + footprint rest))
        with (a + sizeof_MemoryBlock + s0 + footprint rest) in * by lia.
      apply IH; done.
Qed.

Lemma chain_lookup m a pv pre s f post :
  chain m a pv (pre ++ (s, f) :: post) →
  ∃ nx pv', m !! (a + footprint pre) = Some (mkBlock s f nx pv').
Proof.
  intros H. destruct (chain_app _ _ _ _ _ H) as [pv' H'].
  simpl in H'. destruct H' as (_ & _ & Hh & _). eauto.
Qed.

Lemma first_fit_Some r a l c l' :
  first_fit r a l = Some (c, l') →
  ∃ pre s post,
    l = pre ++ (s, true) :: post ∧
    Forall (fun b => ¬ fits r b) pre ∧
    r + sizeof_MemoryBlock <= s ∧
    c = a + footprint pre ∧
    l' = pre ++ (r, false) :: (s - r - sizeof_MemoryBlock, true) :: post.
Proof.
  revert a c l'. induction l as [|[s f] rest IH]; intros a c l'; simpl; [done|].
  destruct (f && (r + sizeof_MemoryBlock <=? s)) eqn:Hsel.
  - intros [= <- <-]. apply andb_true_iff in Hsel as [-> Hle%Z.leb_le].
    exists [], s, rest. simpl. repeat split; try done. lia.
  - destruct (first_fit r (a + sizeof_MemoryBlock + s) rest) as [[c' rest']|] eqn:Hff;
      [|done].
    intros [= <- <-].
    destruct (IH _ _ _ Hff) as (pre & s' & post & -> & Hpre & Hle & -> & ->).
    exists ((s, f) :: pre), s', post. simpl. repeat split; try done; [|lia].
    constructor; [|done]. unfold fits. simpl. intros [-> Hle'].
    apply Z.leb_le in Hle'. rewrite Hle' in Hsel. done.
Qed.

Lemma first_fit_chosen r a pre s post :
  Forall (fun b => ¬ fits r b) pre → r + sizeof_MemoryBlock <= s →
  first_fit r a (pre ++ (s, true) :: post)
  = Some (a + footprint pre,
          pre ++ (r, false) :: (s - r - sizeof_MemoryBlock, true) :: post).
Proof.
  revert a. induction pre as [|[s0 f0] rest IH]; intros a Hpre Hle; simpl.
  - apply Z.leb_le in Hle. rewrite Hle. by rewrite Z.add_0_r.
  - inversion Hpre as [|? ? Hn Hrest]; subst.
    destruct (f0 && (r + sizeof_MemoryBlock <=? s0)) eqn:Hsel.
    { exfalso. apply Hn. apply andb_true_iff in Hsel as [-> Hle'%Z.leb_le]. done. }
    rewrite IH by done. do 2 f_equal. lia.
Qed.

Lemma first_fit_None r a l :
  first_fit r a l = None ↔ Forall (fun b => ¬ fits r b) l.
Proof.
  revert a. induction l as [|[s f] rest IH]; intros a; simpl; [done|].
  destruct (f && (r + sizeof_MemoryBlock <=? s)) eqn:Hsel.
  - split; [done|]. intros H. inversion H as [|? ? Hn _]; subst.
    exfalso. apply Hn. apply andb_true_iff in Hsel as [-> Hle%Z.leb_le]. done.
  - destruct (first_fit r (a + sizeof_MemoryBlock + s) rest) as [[c' rest']|] eqn:Hff.
    + split; [done|]. intros H. inversion H as [|? ? _ Hrest]; subst.
      apply (IH (a + sizeof_MemoryBlock + s)) in Hrest. congruence.
    + split; [|done]. intros _. constructor.
      * unfold fits. simpl. intros [-> Hle%Z.leb_le]. rewrite Hle in Hsel. done.
      * by apply (IH (a + sizeof_MemoryBlock + s)).
Qed.

Lemma live_addrs_first_fit r a l c l' x :
  first_fit r a l = Some (c, l') →
  x ∈ live_addrs a l' ↔ x = c ∨ x ∈ live_addrs a l.
Proof.
  intros (pre & s & post & -> & _ & _ & -> & ->)%first_fit_Some.
  rewrite !live_addrs_app. simpl.
  replace (a + footprint pre + sizeof_MemoryBlock + r + sizeof_MemoryBlock
           + (s - r - sizeof_MemoryBlock))
    with (a + footprint pre + sizeof_MemoryBlock + s) by lia.
  rewrite !elem_of_app, elem_of_cons. tauto.
Qed.

Lemma footprint_first_fit r a l c l' :
  first_fit r a l = Some (c, l') →
  footprint l' = footprint l ∧ length l' = S (length l).
Proof.
  intros (pre & s & post & -> & _ & _ & -> & ->)%first_fit_Some.
  rewrite !footprint_app, !length_app. simpl. split; lia.
Qed.

(** ** The allocator on a well-formed heap *)

Lemma same_registry_refl k : same_registry k k.
Proof. by repeat split. Qed.

Lemma same_registry_trans k1 k2 k3 :
  same_registry k1 k2 → same_registry k2 k3 → same_registry k1 k3.
Proof. unfold same_registry. intros (?&?&?&?) (?&?&?&?). repeat split; congruence. Qed.

Lemma heap_inv_length k l : heap_inv k l → Z.of_nat (length l) <= 262144.
Proof.
  intros H. pose proof (chain_length _ _ _ _ (inv_chain _ _ H)) as Hl.
  rewrite (inv_total _ _ H) in Hl. unfold heap_size, MB in Hl. lia.
Qed.

Lemma request_ok_header_fits n : request_ok n → header_fits n.
Proof.
  intros [H0 H1]. unfold header_fits, sizeof_MemoryBlock in *.
  destruct (align8_bounds n) as [? _]; lia.
Qed.

Lemma memory_alloc_spec fuel k l n :
  heap_inv k l → (length l < fuel)%nat → n ≠ 0 → header_fits n →
  match first_fit (align8 n) heap_start l with
  | None => memory_alloc fuel n k = Ret NULL k
  | Some (c, l') =>
      ∃ k', memory_alloc fuel n k = Ret (c + 16) k' ∧
            heap_inv k' l' ∧
            heap_start <= c < heap_start + heap_size ∧
            (∃ nx pv, ram k' !! c = Some (mkBlock (align8 n) false nx pv)) ∧
            same_registry k k' ∧
            memory_block_count k' = memory_block_count k + 1 ∧
            memory_used k' = u32 (memory_used k + (align8 n + 16)) ∧
            memory_free_ctr k' = u32 (memory_free_ctr k - (align8 n + 16))
  end.
Proof.
  intros Hinv Hfuel Hn0 Hn. unfold header_fits, sizeof_MemoryBlock in Hn.
  destruct (align8_range n) as [Hr Hr8].
  pose proof (heap_inv_length _ _ Hinv) as Hlen.
  destruct Hinv as [Hhd Hch Hne Htot Hcnt Hlive].
  unfold memory_alloc.
  assert (Hz : (n =? 0) = false) by (apply Z.eqb_neq; lia). rewrite Hz.
  rewrite bind_get, Hhd.
  pose proof (alloc_scan_spec l fuel k heap_start NULL (align8 n)) as Hscan.
  destruct (first_fit (align8 n) heap_start l) as [[c l']|] eqn:Hff.
  - destruct Hscan as (m' & He & Hc' & Hac & Hcb & Hfr & Hhd' & Hnb & Hfl);
      try done; try (unfold heap_start, heap_size, MB in *; lia).
    eexists. split; [exact He|].
    destruct (footprint_first_fit _ _ _ _ _ Hff) as [Hfp' Hlen'].
    split; [split|split; [unfold sizeof_MemoryBlock in *; lia|]]; knorm; try done.
    + by eapply first_fit_nonempty.
    + congruence.
    + rewrite Hlen'. rewrite u32_small by lia. lia.
    + intros x b Hx Hb. apply (live_addrs_first_fit _ _ _ _ _ x Hff).
      destruct (decide (x = c)) as [|Hxc]; [by left|right].
      destruct Hnb as (b' & Hb' & Hbf).
      destruct (decide (x = c + 16 + align8 n)) as [->|Hxn]; [congruence|].
      specialize (Hfl x Hxc Hxn). rewrite Hx in Hfl. simpl in Hfl.
      destruct (ram k !! x) as [b0|] eqn:Hb0; [|done].
      apply (Hlive x b0); [done|]. simpl in Hfl. congruence.
    + repeat split; try done. rewrite u32_small by lia. done.
  - apply Hscan; try done; try (unfold heap_start, heap_size, MB in *; lia).
Qed.

Lemma merge_free_settled l : settled (merge_free l).
Proof.
  induction l as [|[s f] rest IH]; [done|].
  unfold merge_free; fold merge_free.
  destruct f; [|split; [by destruct (merge_free rest) as [|[? ?] ?]|done]].
  destruct (merge_free rest) as [|[s' [|]] r]; done.
Qed.

Lemma settled_merge_free l : settled l → merge_free l = l.
Proof.
  induction l as [|[s f] rest IH]; [done|]. intros [H1 H2].
  unfold merge_free; fold merge_free. rewrite (IH H2).
  destruct f; [|done]. destruct rest as [|[s2 [|]] r]; done.
Qed.

Lemma coalesce_loop_settled l : ∀ fuel k a pv,
  (length l <= fuel)%nat → l ≠ [] → 0 < a →
  chain (ram k) a pv l → settled l →
  coalesce_loop fuel a k = Ret tt k.
Proof.
  induction l as [|[s f] rest IH]; intros fuel k a pv Hlen Hne Ha Hch Hst; [done|].
  destruct fuel as [|fuel]; [simpl in Hlen; lia|].
  simpl in Hch. destruct Hch as (Hs & H8 & Hh & Hr).
  simpl coalesce_loop. knorm.
  assert (Hnz : (a =? 0) = false) by (apply Z.eqb_neq; lia).
  rewrite Hnz. kstep.
  destruct rest as [|[s2 f2] rest2]; [done|].
  cbn [next_of]. knorm.
  assert (Hnz2 : (a + 16 + s =? 0) = false) by (apply Z.eqb_neq; lia).
  rewrite Hnz2. simpl in Hst. destruct Hst as [Hff Hst].
  pose proof Hr as Hr'. simpl in Hr'. destruct Hr' as (_ & _ & Hh2 & _).
  kstep. rewrite Hff.
  apply (IH fuel k (a + 16 + s) a); try done; [simpl in *; lia|lia].
Qed.

Lemma memory_coalesce_spec fuel k l :
  heap_inv k l → (length l <= fuel)%nat →
  ∃ k', memory_coalesce fuel k = Ret tt k' ∧
        heap_inv k' (merge_free l) ∧
        same_registry k k' ∧
        memory_used k' = memory_used k ∧
        memory_free_ctr k' = memory_free_ctr k ∧
        (∀ c, blk_free <$> (ram k' !! c) = blk_free <$> (ram k !! c)).
Proof.
  intros Hinv Hfuel.
  pose proof (heap_inv_length _ _ Hinv) as Hlen.
  destruct Hinv as [Hhd Hch Hne Htot Hcnt Hlive].
  unfold memory_coalesce. rewrite bind_get, Hhd.
  destruct (coalesce_loop_spec fuel l k heap_start NULL)
    as (m' & He & Hc' & Hfr & Hfl); try done;
    try (unfold heap_start, heap_size, MB in *; lia).
  eexists. split; [exact He|]. knorm.
  split; [split|]; knorm; try done.
  - by apply merge_free_nonempty.
  - by rewrite footprint_merge_free.
  - pose proof (length_merge_free l). lia.
  - intros x b Hx Hb. rewrite live_addrs_merge_free.
    specialize (Hfl x). rewrite Hx in Hfl. simpl in Hfl.
    destruct (ram k !! x) as [b0|] eqn:Hb0; [|done].
    apply (Hlive x b0); [done|]. simpl in Hfl. congruence.
Qed.

Lemma memory_coalesce_settled fuel k l :
  heap_inv k l → (length l <= fuel)%nat → settled l →
  memory_coalesce fuel k = Ret tt k.
Proof.
  intros [Hhd Hch Hne Htot Hcnt Hlive] Hfuel Hst.
  unfold memory_coalesce. rewrite bind_get, Hhd.
  eapply coalesce_loop_settled; done.
Qed.

(** Releasing a block of the list.  The pointer is [block + 16]; what the
    call does is decided by the header found at [block]. *)
Lemma memory_free_spec fuel k l ptr b :
  heap_inv k l → (length l <= fuel)%nat → ptr ≠ NULL →
  ram k !! u32 (ptr - sizeof_MemoryBlock) = Some b →
  if blk_free b then memory_free fuel ptr k = Ret ERR_GENERIC k
  else
    ∃ pre s post k',
      l = pre ++ (s, false) :: post ∧
      u32 (ptr - sizeof_MemoryBlock) = heap_start + footprint pre ∧
      memory_free fuel ptr k = Ret ERR_SUCCESS k' ∧
      heap_inv k' (merge_free (pre ++ (s, true) :: post)) ∧
      same_registry k k' ∧
      (∃ b', ram k' !! u32 (ptr - sizeof_MemoryBlock) = Some b' ∧
             blk_free b' = true) ∧
      memory_used k' = u32 (memory_used k - (s + 16)) ∧
      memory_free_ctr k' = u32 (memory_free_ctr k + (s + 16)).
Proof.
  intros Hinv Hfuel Hp Hb.
  unfold memory_free.
  assert (Hz : (ptr =? NULL) = false) by (by apply Z.eqb_neq). rewrite Hz.
  set (c := u32 (ptr - sizeof_MemoryBlock)) in *.
  rewrite (bind_load _ _ _ _ Hb).
  destruct (blk_free b) eqn:Hbf; [done|].
  pose proof (inv_live _ _ Hinv c b Hb Hbf) as Hin.
  destruct (live_addrs_split _ _ _ Hin) as (pre & s & post & -> & Hc).
  exists pre, s, post.
  destruct (chain_lookup _ _ _ _ _ _ _ (inv_chain _ _ Hinv)) as (nx & pv' & Hh).
  rewrite <- Hc in Hh. rewrite Hb in Hh. injection Hh as ->.
  pose proof (heap_inv_length _ _ Hinv) as Hlen.
  pose proof (footprint_nonneg _ _ _ _ (inv_chain _ _ Hinv)) as Hfp.
  pose proof (chain_prefix_nonneg _ _ _ _ _ (inv_chain _ _ Hinv)) as Hfpre.
  destruct (chain_app _ _ _ _ _ (inv_chain _ _ Hinv)) as [pv0 Hpost].
  pose proof (footprint_nonneg _ _ _ _ Hpost) as Hfpost.
  pose proof (inv_total _ _ Hinv) as Htot. rewrite footprint_app in Htot.
  pose proof Hpost as Hpost'. simpl in Hpost'.
  destruct Hpost' as (Hs & _ & _ & Hpost2).
  pose proof (footprint_nonneg _ _ _ _ Hpost2) as Hfpost2.
  simpl in Hfpost, Htot. knorm. unfold heap_size, MB in Htot.
  rewrite (bind_store _ _ _ _ _ Hb). knorm.
  erewrite bind_load by (knorm; apply lookup_insert_eq). knorm.
  rewrite !bind_modify. knorm.
  rewrite (u32_small (s + 16)) by lia.
  match goal with |- context [bind (memory_coalesce fuel) _ ?k1] =>
    set (k1' := k1) end.
  assert (Hinv1 : heap_inv k1' (pre ++ (s, true) :: post)).
  { destruct Hinv as [Hhd Hch Hne Htot' Hcnt Hlive].
    split; subst k1'; knorm; try done.
    - rewrite Hc.
      apply (chain_set_free (ram k) heap_start 0 pre s false true post
               (mkBlock s false nx pv')); [done|].
      rewrite <- Hc. done.
    - by destruct pre.
    - rewrite footprint_app in *. simpl in *. done.
    - rewrite length_app in *. simpl in *. done.
    - intros x b0 Hx Hb0. destruct (decide (x = c)) as [->|Hxc].
      { rewrite lookup_insert_eq in Hx. injection Hx as <-. done. }
      rewrite lookup_insert_ne in Hx by done.
      specialize (Hlive x b0 Hx Hb0).
      rewrite live_addrs_app in *. simpl in *.
      rewrite !elem_of_app in *. rewrite elem_of_cons in Hlive.
      rewrite <- Hc in Hlive |- *. tauto. }
  destruct (memory_coalesce_spec fuel k1' _ Hinv1)
    as (k' & He & Hinv' & Hreg & Hu & Hf & Hfl).
  { rewrite length_app in *. simpl in *. lia. }
  exists k'. unfold bind at 1. rewrite He. unfold ret.
  split; [done|]. split; [done|]. split; [done|]. split; [done|].
  split; [exact Hreg|]. split; [|by rewrite Hu, Hf].
  specialize (Hfl c). subst k1'. knorm. rewrite lookup_insert_eq in Hfl.
  destruct (ram k' !! c) as [b'|]; [|done]. exists b'. split; [done|].
  simpl in Hfl. congruence.
Qed.

(** ** What every allocation does, whatever the request *)

Lemma alloc_scan_choice l : ∀ fuel k a pv r,
  (length l < fuel)%nat → l ≠ [] → 0 < a → chain (ram k) a pv l →
  alloc_scan fuel r a k
  = match scan_choice (u32 (r + sizeof_MemoryBlock)) a l with
    | Some c => split_block c r k
    | None => Ret NULL k
    end.
Proof.
  induction l as [|[s f] rest IH]; intros fuel k a pv r Hlen Hne Ha Hch; [done|].
  destruct fuel as [|fuel]; [simpl in Hlen; lia|].
  simpl in Hch. destruct Hch as (Hs & H8 & Hh & Hrest).
  simpl in Hlen. simpl scan_choice. simpl alloc_scan.
  assert (Hnz : (a =? NULL) = false) by (apply Z.eqb_neq; unfold NULL; lia).
  rewrite Hnz. rewrite (bind_load _ _ _ _ Hh). cbn [blk_free blk_size blk_next].
  destruct (f && (u32 (r + sizeof_MemoryBlock) <=? s)); [done|].
  destruct rest as [|[s2 f2] rest2].
  - simpl. destruct fuel as [|fuel]; [lia|]. done.
  - cbn [next_of]. apply (IH fuel k _ a); try done; [simpl in *; lia|].
    unfold sizeof_MemoryBlock. lia.
Qed.

Lemma scan_choice_range thr a l c m pv :
  chain m a pv l → scan_choice thr a l = Some c →
  a <= c < a + footprint l.
Proof.
  revert a pv. induction l as [|[s f] rest IH]; intros a pv Hch; simpl; [done|].
  destruct Hch as (Hs & _ & _ & Hr).
  pose proof (footprint_nonneg _ _ _ _ Hr) as Hfp.
  destruct (f && (thr <=? s)).
  - intros [= <-]. unfold sizeof_MemoryBlock. lia.
  - intros H. specialize (IH _ _ Hr H). unfold sizeof_MemoryBlock in *. lia.
Qed.

(** Whatever it finds in memory, [split_block] returns the payload address
    of [current], leaves [current] marked allocated with the requested
    size, and counts one more block. *)
Lemma bind_inv {A B} (c : M A) (f : A → M B) k b k' :
  bind c f k = Ret b k' → ∃ a k1, c k = Ret a k1 ∧ f a k1 = Ret b k'.
Proof. unfold bind. destruct (c k) as [a k1| | |]; [eauto|done..]. Qed.

Lemma load_inv a k b k' : load a k = Ret b k' → k' = k.
Proof. unfold load. destruct (ram k !! a); [|done]. by intros [= _ <-]. Qed.

Lemma store_inv a g k u k' :
  store a g k = Ret u k' →
  same_registry k k' ∧ memory_block_count k' = memory_block_count k ∧
  ram k' !! a = Some (g (default blank (ram k !! a))).
Proof.
  unfold store, modify. intros [= _ <-]. cbn [set_ram ram memory_block_count].
  rewrite lookup_insert_eq. by repeat split.
Qed.

Lemma split_block_result c r k p k' :
  split_block c r k = Ret p k' →
  p = u32 (c + sizeof_MemoryBlock) ∧
  memory_block_count k' = u32 (memory_block_count k + 1) ∧
  same_registry k k' ∧
  ∃ b, ram k' !! c = Some b ∧ blk_free b = false ∧ blk_size b = r.
Proof.
  intros H. unfold split_block in H.
  apply bind_inv in H as (cur1 & k1 & H1 & H). apply load_inv in H1 as ->.
  apply bind_inv in H as (u2 & k2 & H2 & H).
  apply store_inv in H2 as (R2 & C2 & _).
  apply bind_inv in H as (u3 & k3 & H3 & H).
  apply store_inv in H3 as (R3 & C3 & _).
  apply bind_inv in H as (cur4 & k4 & H4 & H). apply load_inv in H4 as ->.
  apply bind_inv in H as (u5 & k5 & H5 & H).
  apply store_inv in H5 as (R5 & C5 & _).
  apply bind_inv in H as (u6 & k6 & H6 & H).
  apply store_inv in H6 as (R6 & C6 & _).
  apply bind_inv in H as (cur7 & k7 & H7 & H). apply load_inv in H7 as ->.
  apply bind_inv in H as (u8 & k8 & H8 & H).
  assert (R8 : same_registry k6 k8 ∧ memory_block_count k8 = memory_block_count k6).
  { destruct (blk_next cur7 =? NULL).
    - injection H8 as _ <-. split; [apply same_registry_refl|done].
    - apply store_inv in H8 as (? & ? & _). done. }
  clear H8. destruct R8 as [R8 C8].
  apply bind_inv in H as (u9 & k9 & H9 & H).
  apply store_inv in H9 as (R9 & C9 & L9).
  apply bind_inv in H as (u10 & k10 & H10 & H).
  apply store_inv in H10 as (R10 & C10 & L10).
  apply bind_inv in H as (u11 & k11 & H11 & H).
  apply store_inv in H11 as (R11 & C11 & L11).
  rewrite L10, L9 in L11. cbn [default] in L11.
  unfold bind, modify, ret in H. injection H as <- <-.
  cbn [set_memory_used set_memory_free_ctr set_memory_block_count
       ram pool_ram memory_total memory_used memory_free_ctr
       memory_block_count memory_list memory_pools memory_pool_count].
  split; [done|]. split; [congruence|]. split.
  - pose proof (same_registry_trans _ _ _ R2
      (same_registry_trans _ _ _ R3
        (same_registry_trans _ _ _ R5
          (same_registry_trans _ _ _ R6
            (same_registry_trans _ _ _ R8
              (same_registry_trans _ _ _ R9
                (same_registry_trans _ _ _ R10 R11))))))) as (?&?&?&?).
    by repeat split.
  - eexists. split; [exact L11|]. done.
Qed.

Lemma scan_choice_Some thr a l c :
  scan_choice thr a l = Some c →
  ∃ pre s post,
    l = pre ++ (s, true) :: post ∧ c = a + footprint pre ∧ thr <= s ∧
    Forall (fun b : block => ¬ (b.2 = true ∧ thr <= b.1)) pre.
Proof.
  revert a. induction l as [|[s f] rest IH]; intros a; simpl; [done|].
  destruct (f && (thr <=? s)) eqn:Hsel.
  - intros [= <-]. apply andb_true_iff in Hsel as [-> Hle%Z.leb_le].
    exists [], s, rest. simpl. repeat split; try done. lia.
  - intros H. destruct (IH _ H) as (pre & s' & post & -> & -> & Hle & Hpre).
    exists ((s, f) :: pre), s', post. simpl. repeat split; try done; [lia|].
    constructor; [|done]. simpl. intros [-> Hle'%Z.leb_le].
    rewrite Hle' in Hsel. done.
Qed.

Lemma store_keeps a g c k :
  is_Some (ram k !! c) →
  is_Some (ram (set_ram (fun _ => <[a := g (default blank (ram k !! a))]> (ram k)) k)
           !! c).
Proof.
  intros H. cbn [set_ram ram]. rewrite lookup_insert. case_decide; eauto.
Qed.

Ltac store_step H k' :=
  rewrite bind_store_any;
  match goal with
  | |- context [set_ram (fun _ => <[?a := ?g (default blank (ram ?k0 !! ?a))]>
                                    (ram ?k0)) ?k0] =>
      apply (store_keeps a g _ k0) in H;
      generalize dependent
        (set_ram (fun _ => <[a := g (default blank (ram k0 !! a))]> (ram k0)) k0)
  end;
  intros k' H.

Lemma split_block_total c r k b :
  ram k !! c = Some b → ∃ p k', split_block c r k = Ret p k'.
Proof.
  intros Hb. assert (Hc : is_Some (ram k !! c)) by eauto.
  unfold split_block.
  rewrite (bind_load _ _ _ _ Hb).
  store_step Hc k2. store_step Hc k3.
  destruct Hc as [b3 Hb3]. assert (Hc : is_Some (ram k3 !! c)) by eauto.
  rewrite (bind_load _ _ _ _ Hb3).
  store_step Hc k4. store_step Hc k5.
  destruct Hc as [b5 Hb5].
  rewrite (bind_load _ _ _ _ Hb5).
  unfold bind, store, modify, ret.
  destruct (blk_next b5 =? NULL); eauto.
Qed.

(** A call of [memory_alloc] on a well-formed heap returns: [NULL] with
    the state untouched, or the payload address of a free block of the
    list, which it leaves allocated, with one block more on the count. *)
Lemma memory_alloc_returns fuel k l n :
  heap_inv k l → (length l < fuel)%nat →
  memory_alloc fuel n k = Ret NULL k ∨
  ∃ pre s post k' b,
    l = pre ++ (s, true) :: post ∧
    memory_alloc fuel n k
    = Ret (heap_start + footprint pre + sizeof_MemoryBlock) k' ∧
    u32 (align8 n + sizeof_MemoryBlock) <= s ∧
    Forall (fun b : block =>
              ¬ (b.2 = true ∧ u32 (align8 n + sizeof_MemoryBlock) <= b.1)) pre ∧
    ram k' !! (heap_start + footprint pre) = Some b ∧
    blk_free b = false ∧ blk_size b = align8 n ∧
    memory_block_count k' = memory_block_count k + 1 ∧
    same_registry k k'.
Proof.
  intros Hinv Hfuel.
  pose proof (heap_inv_length _ _ Hinv) as Hlen.
  unfold memory_alloc. destruct (n =? 0); [by left|].
  rewrite bind_get, (inv_head _ _ Hinv).
  rewrite (alloc_scan_choice l fuel k heap_start NULL);
    [|done|exact (inv_nonempty _ _ Hinv)|done|exact (inv_chain _ _ Hinv)].
  destruct (scan_choice _ heap_start l) as [c|] eqn:Hsc; [|by left].
  pose proof (scan_choice_range _ _ _ _ _ _ (inv_chain _ _ Hinv) Hsc) as Hc.
  rewrite (inv_total _ _ Hinv) in Hc.
  destruct (scan_choice_Some _ _ _ _ Hsc) as (pre & s & post & Hl & -> & Hle & Hpre).
  right. exists pre, s, post.
  pose proof (inv_chain _ _ Hinv) as Hch. rewrite Hl in Hch.
  destruct (chain_lookup _ _ _ _ _ _ _ Hch) as (nx & pv' & Hh).
  destruct (split_block_total _ (align8 n) _ _ Hh) as (p & k' & Hsp).
  destruct (split_block_result _ _ _ _ _ Hsp) as (-> & Hcnt & Hreg & b & Hb & Hf & Hs).
  destruct Hreg as (?&?&?&?).
  exists k', b. rewrite Hsp. rewrite u32_small
    by (unfold heap_start, heap_size, MB, sizeof_MemoryBlock in *; lia).
  repeat split; try done.
  rewrite Hcnt, (inv_count _ _ Hinv). apply u32_small. lia.
Qed.

Lemma memory_alloc_null fuel k l n k2 :
  heap_inv k l → (length l < fuel)%nat →
  memory_alloc fuel n k = Ret NULL k2 → k2 = k.
Proof.
  intros Hinv Hfuel He.
  destruct (memory_alloc_returns fuel k l n Hinv Hfuel)
    as [H|(pre & s & post & k' & b & Hl & H & _)].
  - congruence.
  - rewrite H in He. injection He as He _. exfalso.
    pose proof (inv_chain _ _ Hinv) as Hch. rewrite Hl in Hch.
    pose proof (chain_prefix_nonneg _ _ _ _ _ Hch).
    unfold NULL, heap_start, sizeof_MemoryBlock in He. lia.
Qed.

(** ** Soundness of the checker *)

Lemma header_eqb_sound o b : header_eqb o b = true → o = Some b.
Proof.
  destruct o as [[s f n p]|]; [|done]. destruct b as [s' f' n' p']. simpl.
  rewrite !andb_true_iff. intros [[[H1 H2] H3] H4].
  apply Z.eqb_eq in H1, H3, H4. apply Bool.eqb_prop in H2. by subst.
Qed.

Lemma chain_check_sound m l : ∀ a pv, chain_check m a pv l = true → chain m a pv l.
Proof.
  induction l as [|[s f] rest IH]; intros a pv; simpl; [done|].
  rewrite !andb_true_iff. intros [[[H1 H2] H3] H4].
  apply Z.leb_le in H1. apply Z.eqb_eq in H2. apply header_eqb_sound in H3.
  auto.
Qed.

Lemma heap_inv_check_sound k l : heap_inv_check k l = true → heap_inv k l.
Proof.
  unfold heap_inv_check. rewrite !andb_true_iff.
  intros [[[[[H1 H2] H3] H4] H5] H6].
  apply Z.eqb_eq in H1, H4, H5. apply chain_check_sound in H2.
  split; try done.
  - by destruct l.
  - intros c b Hc Hb. unfold live_check in H6.
    rewrite forallb_forall in H6.
    apply elem_of_map_to_list in Hc. apply list_elem_of_In in Hc.
    specialize (H6 _ Hc). simpl in H6. rewrite Hb in H6. simpl in H6.
    apply existsb_exists in H6 as (x & Hx & ->%Z.eqb_eq).
    by apply list_elem_of_In.
Qed.

(** * Properties *)

Lemma memory_free_double fuel ptr k b :
  ptr ≠ NULL →
  ram k !! u32 (ptr - sizeof_MemoryBlock) = Some b → blk_free b = true →
  memory_free fuel ptr k = Ret ERR_GENERIC k.
Proof.
  intros Hp Hb Hf. unfold memory_free.
  assert (Hz : (ptr =? NULL) = false) by (by apply Z.eqb_neq). rewrite Hz.
  rewrite (bind_load _ _ _ _ Hb), Hf. done.
Qed.

(** X3.  Double release on a well-formed heap.  Let [p] be a non-null pointer
    that [memory_alloc] returned, the heap being well formed before the
    allocation and when the pointer is released.  Then the first
    [memory_free p] returns [ERR_SUCCESS] and leaves the header in front
    of [p] marked free, and a second [memory_free p] right after it
    returns [ERR_GENERIC] and leaves the whole state (the headers, the
    Block List, the counters) as it was. *)
Lemma double_free_detected fuel k l n p k1 l1 :
  heap_inv k l → (length l < fuel)%nat →
  memory_alloc fuel n k = Ret p k1 → p ≠ NULL →
  heap_inv k1 l1 →
  ∃ k2 b,
    memory_free fuel p k1 = Ret ERR_SUCCESS k2 ∧
    ram k2 !! (p - sizeof_MemoryBlock) = Some b ∧ blk_free b = true ∧
    memory_free fuel p k2 = Ret ERR_GENERIC k2.
Proof.
  intros Hinv Hfuel Halloc Hp Hinv1.
  destruct (memory_alloc_returns fuel k l n Hinv Hfuel)
    as [H|(pre & s & post & k' & b & Hl & H & _ & _ & Hb & Hbf & _ & Hcnt & _)];
    [congruence|].
  rewrite H in Halloc. injection Halloc as <- <-.
  pose proof (inv_chain _ _ Hinv) as Hch. rewrite Hl in Hch.
  pose proof (chain_prefix_nonneg _ _ _ _ _ Hch) as Hpre.
  pose proof (footprint_nonneg _ _ _ _ Hch) as Hfp.
  destruct (chain_app _ _ _ _ _ Hch) as [pv0 Hpost].
  pose proof (footprint_nonneg _ _ _ _ Hpost) as Hfpost.
  pose proof (inv_total _ _ Hinv) as Htot. rewrite Hl, footprint_app in Htot.
  assert (Hc : u32 (heap_start + footprint pre + sizeof_MemoryBlock
                    - sizeof_MemoryBlock) = heap_start + footprint pre).
  { rewrite Z.add_simpl_r. apply u32_small.
    unfold heap_start, heap_size, MB in *. lia. }
  assert (Hlen1 : (length l1 <= fuel)%nat).
  { pose proof (inv_count _ _ Hinv1) as H1. pose proof (inv_count _ _ Hinv) as H0.
    lia. }
  pose proof (memory_free_spec fuel k' l1 _ b Hinv1 Hlen1 Hp) as Hfree.
  rewrite Hc in Hfree. specialize (Hfree Hb). rewrite Hbf in Hfree.
  destruct Hfree as (pre' & s' & post' & k2 & _ & _ & Hfree & _ & _ & (b' & Hb' & Hbf') & _).
  exists k2, b'. rewrite Z.add_simpl_r.
  split; [done|]. split; [done|]. split; [done|].
  apply (memory_free_double fuel _ k2 b'); [done| |done].
  rewrite Hc. done.
Qed.

(** X4.  Every allocation that fits splits.  On a well-formed heap, a call of
    [memory_alloc] that returns a non-null pointer raises the block count
    by exactly one, and the pointer is the payload of a free block [s] of
    the list.  Whenever that block holds the rounded request and a header,
    it is replaced by an allocated block of the rounded size followed by
    a free remainder of [s - rounded - 16] bytes, with no lower bound on
    the remainder: when [s] is exactly the rounded size plus the header
    size, a free block of payload size 0 enters the list. *)
Lemma memory_alloc_always_splits fuel k l n p k' :
  heap_inv k l → (length l < fuel)%nat →
  memory_alloc fuel n k = Ret p k' → p ≠ NULL →
  memory_block_count k' = memory_block_count k + 1 ∧
  ∃ pre s post,
    l = pre ++ (s, true) :: post ∧
    p = heap_start + footprint pre + sizeof_MemoryBlock ∧
    (align8 n + sizeof_MemoryBlock <= s →
     heap_inv k' (pre ++ (align8 n, false)
                      :: (s - align8 n - sizeof_MemoryBlock, true) :: post)) ∧
    (s = align8 n + sizeof_MemoryBlock →
     heap_inv k' (pre ++ (align8 n, false) :: (0, true) :: post)).
Proof.
  intros Hinv Hfuel Halloc Hp.
  destruct (memory_alloc_returns fuel k l n Hinv Hfuel)
    as [H|(pre & s & post & k1 & b & Hl & H & Hle & Hpre & _ & _ & _ & Hcnt & _)];
    [congruence|].
  rewrite H in Halloc. injection Halloc as <- <-.
  split; [done|]. exists pre, s, post. split; [done|]. split; [done|].
  assert (Hsplit : align8 n + sizeof_MemoryBlock <= s →
     heap_inv k1 (pre ++ (align8 n, false)
                      :: (s - align8 n - sizeof_MemoryBlock, true) :: post)).
  { intros Hs.
    pose proof (inv_chain _ _ Hinv) as Hch. rewrite Hl in Hch.
    destruct (chain_app _ _ _ _ _ Hch) as [pv0 Hpost].
    pose proof (chain_prefix_nonneg _ _ _ _ _ Hch) as Hfpre.
    pose proof Hpost as Hpost'. simpl in Hpost'.
    destruct Hpost' as (_ & _ & _ & Hpost2).
    pose proof (footprint_nonneg _ _ _ _ Hpost2) as Hfpost.
    pose proof (inv_total _ _ Hinv) as Htot. rewrite Hl, footprint_app in Htot.
    simpl in Htot. unfold heap_size, MB, sizeof_MemoryBlock in *.
    assert (Hfit : header_fits n) by (unfold header_fits, sizeof_MemoryBlock; lia).
    assert (Hn0 : n ≠ 0).
    { intros ->. unfold memory_alloc in H. simpl in H. injection H as H _.
      unfold NULL, heap_start in H. lia. }
    pose proof (memory_alloc_spec fuel k l n Hinv Hfuel Hn0 Hfit) as Hspec.
    rewrite Hl in Hspec. rewrite first_fit_chosen in Hspec.
    - destruct Hspec as (k2 & He & Hinv2 & _).
      rewrite H in He. assert (k2 = k1) as -> by congruence. exact Hinv2.
    - rewrite u32_small in Hpre
        by (destruct (align8_range n); unfold sizeof_MemoryBlock; lia).
      exact Hpre.
    - unfold sizeof_MemoryBlock. lia. }
  split; [done|].
  intros ->. specialize (Hsplit ltac:(lia)).
  replace (align8 n + sizeof_MemoryBlock - align8 n - sizeof_MemoryBlock)
    with 0 in Hsplit by lia. done.
Qed.

Lemma bind_run {A B} (c : M A) (f : A → M B) k a k' :
  c k = Ret a k' → bind c f k = f a k'.
Proof. intros H. unfold bind. by rewrite H. Qed.

Lemma merge_free_alloc_head s rest :
  merge_free ((s, false) :: rest) = (s, false) :: merge_free rest.
Proof. done. Qed.

Lemma merge_free_app_alloc pre s rest :
  merge_free (pre ++ (s, false) :: rest)
  = merge_free pre ++ (s, false) :: merge_free rest.
Proof.
  induction pre as [|[s0 f0] pre IH]; [done|].
  change ((((s0, f0) :: pre) ++ (s, false) :: rest))
    with ((s0, f0) :: (pre ++ (s, false) :: rest)).
  unfold merge_free; fold merge_free. rewrite IH.
  destruct f0; [|done].
  destruct pre as [|[s1 f1] pre']; [done|].
  pose proof (merge_free_nonempty ((s1, f1) :: pre') ltac:(done)) as Hne.
  destruct (merge_free ((s1, f1) :: pre')) as [|[s' [|]] r]; done.
Qed.

Lemma merge_free_run run post :
  run ≠ [] → Forall (fun b : block => b.2 = true) run →
  (post = [] ∨ ∃ s post0, post = (s, false) :: post0) →
  merge_free (run ++ post)
  = (payload_sum run + sizeof_MemoryBlock * (Z.of_nat (length run) - 1), true)
      :: merge_free post.
Proof.
  intros Hne Hfree Hpost.
  induction run as [|[s f] run IH]; [done|].
  inversion Hfree as [|? ? Hf Hfree']; subst. simpl in Hf. subst f.
  change (((s, true) :: run) ++ post) with ((s, true) :: (run ++ post)).
  unfold merge_free; fold merge_free.
  destruct run as [|b run'].
  - simpl app. simpl payload_sum. simpl length.
    replace (s + 0 + sizeof_MemoryBlock * (Z.of_nat 1 - 1)) with s by lia.
    destruct Hpost as [->|(s' & post0 & ->)]; [done|].
    rewrite merge_free_alloc_head. done.
  - rewrite IH by done. f_equal. f_equal.
    cbn [payload_sum length]. unfold sizeof_MemoryBlock. lia.
Qed.

(** C4, amended.  Coalescing a run.  Let the Block List of a
    well-formed heap be
    [pre ++ run ++ post] where [run] is a maximal run of [K >= 1] adjacent
    free blocks (the block before it, if any, and the block after it, if
    any, are allocated).  Then one pass of [memory_coalesce] returns, its
    result is a well-formed heap in which the run is the single free block
    of payload size (sum of the [K] payload sizes) + (K-1) * 16, the block
    count has dropped by [K-1] for this run (plus what the runs inside
    [pre] and [post] lose), and every further pass leaves that state
    unchanged, so repeating passes until nothing changes ends there. *)
Theorem coalesce_collapses_run fuel k pre run post :
  heap_inv k (pre ++ run ++ post) →
  (length (pre ++ run ++ post) <= fuel)%nat →
  run ≠ [] → Forall (fun b : block => b.2 = true) run →
  (pre = [] ∨ ∃ pre0 s, pre = pre0 ++ [(s, false)]) →
  (post = [] ∨ ∃ s post0, post = (s, false) :: post0) →
  ∃ k',
    memory_coalesce fuel k = Ret tt k' ∧
    heap_inv k'
      (merge_free pre
       ++ (payload_sum run
           + sizeof_MemoryBlock * (Z.of_nat (length run) - 1), true)
       :: merge_free post) ∧
    memory_block_count k'
    = memory_block_count k - (Z.of_nat (length run) - 1)
      - (Z.of_nat (length pre) - Z.of_nat (length (merge_free pre)))
      - (Z.of_nat (length post) - Z.of_nat (length (merge_free post))) ∧
    memory_coalesce fuel k' = Ret tt k'.
Proof.
  intros Hinv Hfuel Hne Hfree Hpre Hpost.
  assert (Hm : merge_free (pre ++ run ++ post)
               = merge_free pre
                 ++ (payload_sum run
                     + sizeof_MemoryBlock * (Z.of_nat (length run) - 1), true)
                 :: merge_free post).
  { destruct Hpre as [->|(pre0 & s & ->)].
    - simpl. by apply merge_free_run.
    - rewrite <- app_assoc. simpl. rewrite !merge_free_app_alloc.
      rewrite <- app_assoc. simpl.
      rewrite merge_free_run by done. done. }
  destruct (memory_coalesce_spec fuel k _ Hinv Hfuel)
    as (k' & He & Hinv' & _).
  rewrite Hm in Hinv'. exists k'. split; [done|]. split; [done|]. split.
  - rewrite (inv_count _ _ Hinv'), (inv_count _ _ Hinv).
    rewrite !length_app. simpl. rewrite ?length_app. lia.
  - eapply memory_coalesce_settled; [exact Hinv'| |].
    + rewrite <- Hm. pose proof (length_merge_free (pre ++ run ++ post)). lia.
    + rewrite <- Hm. apply merge_free_settled.
Qed.

(** C7.  Failure of the body allocation.  [mempool_create] allocates the
    metadata structure and then the body with two separate calls of
    [memory_alloc].  On a well-formed heap with a free registry slot, if
    the first call returns the structure [pool] and the second one
    returns [NULL], then [mempool_create] returns [NULL]; the block of
    [pool] has been released (its header is marked free and the heap is
    well formed again), and the registry array, the pool count and the
    pool structures are what they were before the call. *)
Theorem mempool_create_body_failure pf fuel k l name type size pool k1 k2 :
  heap_inv k l → (S (length l) < fuel)%nat →
  header_fits (sizeof_MemoryPool pf) →
  memory_pool_count k < Z.of_nat (MAX_MEMPOOLS pf) →
  memory_alloc fuel (sizeof_MemoryPool pf) k = Ret pool k1 → pool ≠ NULL →
  memory_alloc fuel size k1 = Ret NULL k2 →
  ∃ k' b l',
    mempool_create pf fuel name type size k = Ret NULL k' ∧
    memory_pools k' = memory_pools k ∧
    memory_pool_count k' = memory_pool_count k ∧
    pool_ram k' = pool_ram k ∧
    ram k' !! (pool - sizeof_MemoryBlock) = Some b ∧ blk_free b = true ∧
    heap_inv k' l'.
Proof.
  intros Hinv Hfuel Hfit Hcount Hmeta Hpool Hbody.
  assert (Hn0 : sizeof_MemoryPool pf ≠ 0).
  { intros Hz. rewrite Hz in Hmeta. unfold memory_alloc in Hmeta. simpl in Hmeta.
    injection Hmeta as Hmeta _. done. }
  pose proof (memory_alloc_spec fuel k l _ Hinv ltac:(lia) Hn0 Hfit) as Hspec.
  destruct (first_fit _ heap_start l) as [[c l1]|] eqn:Hff;
    [|rewrite Hspec in Hmeta; injection Hmeta as Hmeta _; done].
  destruct Hspec as (k1' & He & Hinv1 & Hc & (nx & pv & Hh) & Hreg1 & _).
  rewrite He in Hmeta. injection Hmeta as <- <-.
  destruct (footprint_first_fit _ _ _ _ _ Hff) as [_ Hlen1].
  assert (k2 = k1') as ->.
  { eapply memory_alloc_null; [exact Hinv1| |exact Hbody]. lia. }
  assert (Hu : u32 (c + 16 - sizeof_MemoryBlock) = c).
  { unfold sizeof_MemoryBlock. rewrite Z.add_simpl_r. apply u32_small.
    unfold heap_start, heap_size, MB in Hc. lia. }
  pose proof (memory_free_spec fuel k1' l1 (c + 16)
                (mkBlock (align8 (sizeof_MemoryPool pf)) false nx pv)
                Hinv1 ltac:(lia) Hpool)
    as Hfree.
  rewrite Hu in Hfree. specialize (Hfree Hh). cbn [blk_free] in Hfree.
  destruct Hfree as (pre & s & post & k' & _ & _ & Hfree & Hinv' & Hreg'
                     & (b' & Hb' & Hbf') & _).
  exists k', b', (merge_free (pre ++ (s, true) :: post)).
  unfold mempool_create.
  rewrite bind_get.
  assert (Hlt : (Z.of_nat (MAX_MEMPOOLS pf) <=? memory_pool_count k) = false)
    by (apply Z.leb_gt; lia).
  rewrite Hlt. rewrite (bind_run _ _ _ _ _ He).
  assert (Hpz : (c + 16 =? NULL) = false) by (by apply Z.eqb_neq).
  rewrite Hpz. rewrite (bind_run _ _ _ _ _ Hbody). rewrite Z.eqb_refl.
  rewrite (bind_run _ _ _ _ _ Hfree). unfold ret.
  destruct Hreg1 as (Hp1 & Hm1 & Hc1 & _). destruct Hreg' as (Hp2 & Hm2 & Hc2 & _).
  unfold sizeof_MemoryBlock. rewrite Z.add_simpl_r.
  split; [done|]. split; [congruence|]. split; [congruence|].
  split; [congruence|]. done.
Qed.

(** ** Pool allocation *)

Lemma mempool_alloc_ok k pool p size :
  pool ≠ NULL → pool_ram k !! pool = Some p →
  0 <= pool_used p → 0 < size → pool_used p + size < 2 ^ 32 →
  pool_used p + size <= pool_size p →
  mempool_alloc pool size k
  = Ret (u32 (pool_base_address p + pool_used p))
      (set_pool_ram (fun m => <[pool := bumped p size]> m) k).
Proof.
  intros Hp Hlook Hu Hpos Hwrap Hle. unfold mempool_alloc.
  assert (Hpz : (pool =? NULL) = false) by (by apply Z.eqb_neq).
  assert (Hsz : (size =? 0) = false) by (apply Z.eqb_neq; lia).
  rewrite Hpz, Hsz. cbn [orb]. unfold bind at 1, load_pool. rewrite Hlook.
  rewrite (u32_small (pool_used p + size)) by lia.
  assert (Hlt : (pool_size p <? pool_used p + size) = false)
    by (apply Z.ltb_ge; lia).
  rewrite Hlt. done.
Qed.

Lemma mempool_alloc_full k pool p size :
  pool ≠ NULL → pool_ram k !! pool = Some p →
  0 <= pool_used p → 0 < size → pool_used p + size < 2 ^ 32 →
  pool_size p < pool_used p + size →
  mempool_alloc pool size k = Ret NULL k.
Proof.
  intros Hp Hlook Hu Hpos Hwrap Hgt. unfold mempool_alloc.
  assert (Hpz : (pool =? NULL) = false) by (by apply Z.eqb_neq).
  assert (Hsz : (size =? 0) = false) by (apply Z.eqb_neq; lia).
  rewrite Hpz, Hsz. cbn [orb]. unfold bind at 1, load_pool. rewrite Hlook.
  rewrite (u32_small (pool_used p + size)) by lia.
  assert (Hlt : (pool_size p <? pool_used p + size) = true)
    by (apply Z.ltb_lt; lia).
  rewrite Hlt. done.
Qed.

Lemma mempool_free_ok k pool p ptr :
  pool ≠ NULL → ptr ≠ NULL → pool_ram k !! pool = Some p →
  mempool_free pool ptr k
  = Ret ERR_SUCCESS (set_pool_ram (fun m => <[pool := released p]> m) k).
Proof.
  intros Hp Hptr Hlook. unfold mempool_free.
  assert (Hpz : (pool =? NULL) = false) by (by apply Z.eqb_neq).
  assert (Hnz : (ptr =? NULL) = false) by (by apply Z.eqb_neq).
  rewrite Hpz, Hnz. cbn [orb]. unfold bind at 1, load_pool. rewrite Hlook. done.
Qed.

(** C8, amended.  [mempool_alloc] returns [NULL] and changes nothing when
    the pool is null or the size is 0.  For a non-null pool and a size
    above 0 such that [used + size] stays below [2^32]: when
    [used + size <= pool.size] it returns [base_address + used] and
    advances [used] by [size]; when [used + size > pool.size] it returns
    [NULL] and the state is unchanged.  [mempool_free] leaves [used] as it
    is, so in a pool of 4096 bytes with nothing used, after 4000 bytes are
    allocated and released again a request for 200 bytes returns
    [NULL]. *)
Theorem mempool_alloc_bump k pool p size :
  pool ≠ NULL → pool_ram k !! pool = Some p →
  0 <= pool_used p → 0 <= size → pool_used p + size < 2 ^ 32 →
  (∀ k0 n, mempool_alloc NULL n k0 = Ret NULL k0) ∧
  (size = 0 → mempool_alloc pool size k = Ret NULL k) ∧
  (0 < size → pool_used p + size <= pool_size p →
   mempool_alloc pool size k
   = Ret (u32 (pool_base_address p + pool_used p))
       (set_pool_ram (fun m => <[pool := bumped p size]> m) k)) ∧
  (0 < size → pool_size p < pool_used p + size →
   mempool_alloc pool size k = Ret NULL k) ∧
  (pool_size p = 4096 → pool_used p = 0 →
   ∃ ptr k1 k2,
     mempool_alloc pool 4000 k = Ret ptr k1 ∧
     (ptr ≠ NULL → mempool_free pool ptr k1 = Ret ERR_SUCCESS k2) ∧
     (ptr = NULL → k2 = k1) ∧
     mempool_alloc pool 200 k2 = Ret NULL k2).
Proof.
  intros Hp Hlook Hu Hs Hwrap.
  assert (Hpz : (pool =? NULL) = false) by (by apply Z.eqb_neq).
  split; [done|]. split; [|split; [|split]].
  - intros ->. unfold mempool_alloc. rewrite Hpz. done.
  - intros Hpos Hle. by apply mempool_alloc_ok.
  - intros Hpos Hgt. by eapply mempool_alloc_full.
  - intros Hsize Hused.
    pose proof (mempool_alloc_ok k pool p 4000 Hp Hlook Hu ltac:(lia)
                  ltac:(lia) ltac:(lia)) as H1.
    set (k1 := set_pool_ram (fun m => <[pool := bumped p 4000]> m) k) in *.
    set (ptr := u32 (pool_base_address p + pool_used p)) in *.
    assert (Hl1 : pool_ram k1 !! pool = Some (bumped p 4000))
      by (subst k1; cbn [pool_ram set_pool_ram]; apply lookup_insert_eq).
    destruct (decide (ptr = NULL)) as [Hn|Hn].
    + exists ptr, k1, k1. split; [done|]. split; [done|]. split; [done|].
      apply (mempool_alloc_full k1 pool (bumped p 4000) 200); try done;
        cbn [bumped pool_used pool_size]; lia.
    + set (k2 := set_pool_ram
                   (fun m => <[pool := released (bumped p 4000)]> m) k1).
      exists ptr, k1, k2. split; [done|]. split; [|split; [done|]].
      * intros _. by apply mempool_free_ok.
      * apply (mempool_alloc_full k2 pool (released (bumped p 4000)) 200);
          try done; try (cbn [released bumped pool_used pool_size]; lia).
        subst k2. cbn [pool_ram set_pool_ram]. apply lookup_insert_eq.
Qed.

(** ** The allocator at work

    The runs below start from [memory_init] on the platform [demo]. *)

(** C8, as stated, fails: a request of size 0 on a pool with room left
    ([used + 0 <= size]) returns [NULL], not [base_address + used]. *)
Lemma mempool_alloc_zero_size_returns_null :
  ∃ k0 pool k1 p,
    memory_init demo 64 (boot demo) = Ret ERR_SUCCESS k0 ∧
    mempool_create demo 64 "net" MEM_POOL_SMALL 4096 k0 = Ret pool k1 ∧
    pool ≠ NULL ∧
    pool_ram k1 !! pool = Some p ∧
    pool_used p + 0 <= pool_size p ∧
    mempool_alloc pool 0 k1 = Ret NULL k1 ∧
    NULL ≠ u32 (pool_base_address p + pool_used p).
Proof.
  eexists _, _, _, _.
  split; [vm_compute; reflexivity|].
  split; [vm_compute; reflexivity|].
  split; [done|].
  split; [vm_compute; reflexivity|].
  split; [vm_compute; discriminate|].
  split; [vm_compute; reflexivity|].
  vm_compute. discriminate.
Qed.

(** C5.  A request of [2^32 - 1] bytes is rounded to 0 by the [u32]
    arithmetic: [memory_alloc] returns a non-null pointer, at an offset
    from the arena base that is a multiple of 8, to a block whose
    recorded payload size is 0. *)
Theorem memory_alloc_wrapped_request_is_empty :
  ∃ k0 p k1 b,
    memory_init demo 64 (boot demo) = Ret ERR_SUCCESS k0 ∧
    memory_alloc 64 4294967295 k0 = Ret p k1 ∧
    p ≠ NULL ∧ (p - heap_start) mod 8 = 0 ∧
    ram k1 !! (p - sizeof_MemoryBlock) = Some b ∧
    blk_free b = false ∧ blk_size b = 0 ∧ blk_size b < 4294967295.
Proof.
  eexists _, _, _, _.
  split; [vm_compute; reflexivity|].
  split; [vm_compute; reflexivity|].
  split; [done|].
  split; [vm_compute; reflexivity|].
  split; [vm_compute; reflexivity|].
  done.
Qed.

(** C6.  The rounding of [memory_alloc] wraps: for a request of
    [2^32 - 1] bytes [(size + 7) & ~7] is 0, not the next multiple of 8,
    and although no block of the heap has room for [2^32 - 1] bytes the
    call returns a block and changes the Block List. *)
Theorem memory_alloc_rounding_wraps :
  align8 4294967295 = 0 ∧
  ∃ k0 p k1,
    memory_init demo 64 (boot demo) = Ret ERR_SUCCESS k0 ∧
    heap_inv k0 [(72, false); (1048576, false); (3145608, true)] ∧
    memory_alloc 64 4294967295 k0 = Ret p k1 ∧
    p = 2097272 ∧
    heap_inv k1 [(72, false); (1048576, false); (0, false); (3145592, true)].
Proof.
  split; [vm_compute; reflexivity|].
  eexists _, _, _.
  split; [vm_compute; reflexivity|].
  split; [apply heap_inv_check_sound; vm_compute; reflexivity|].
  split; [vm_compute; reflexivity|].
  split; [done|].
  apply heap_inv_check_sound. vm_compute. reflexivity.
Qed.

(** C1.  A request of [2^32 - 16] bytes makes [size + sizeof(MemoryBlock)]
    wrap to 0, so the first free block is chosen and the remainder header
    is written over the chosen header itself.  After the call that header
    records a payload of [2^32 - 16] bytes, far more than the arena, and
    is its own successor: the heap is no Block List any more, and no sum
    over it equals the arena size. *)
Theorem memory_alloc_wrapped_header_breaks_heap :
  ∃ k0 p k1,
    memory_init demo 64 (boot demo) = Ret ERR_SUCCESS k0 ∧
    heap_inv k0 [(72, false); (1048576, false); (3145608, true)] ∧
    memory_alloc 64 4294967280 k0 = Ret p k1 ∧
    p ≠ NULL ∧
    ram k1 !! (p - sizeof_MemoryBlock)
    = Some (mkBlock 4294967280 false (p - sizeof_MemoryBlock)
              (p - sizeof_MemoryBlock)) ∧
    heap_size < 4294967280 + sizeof_MemoryBlock ∧
    ∀ l, ¬ heap_inv k1 l.
Proof.
  eexists _, _, _.
  split; [vm_compute; reflexivity|].
  split; [apply heap_inv_check_sound; vm_compute; reflexivity|].
  split; [vm_compute; reflexivity|].
  split; [done|].
  split; [vm_compute; reflexivity|].
  split; [vm_compute; reflexivity|].
  intros l [_ Hch Hne _ _ _].
  match type of Hch with chain ?m _ _ _ =>
    assert (H1 : m !! 1048576 = Some (mkBlock 72 false 1048664 0))
      by (vm_compute; reflexivity);
    assert (H2 : m !! 1048664 = Some (mkBlock 1048576 false 2097256 1048576))
      by (vm_compute; reflexivity);
    assert (H3 : m !! 2097256
                 = Some (mkBlock 4294967280 false 2097256 2097256))
      by (vm_compute; reflexivity);
    generalize dependent m
  end.
  intros m Hch H1 H2 H3. unfold heap_start, NULL in Hch.
  destruct l as [|[s1 f1] l]; [done|]. clear Hne.
  cbn [chain] in Hch. destruct Hch as (_ & _ & Hh1 & Hch).
  rewrite H1 in Hh1. injection Hh1 as <- <- Hn1.
  destruct l as [|[s2 f2] l]; [done|]. clear Hn1.
  unfold sizeof_MemoryBlock in Hch. change (1048576 + 16 + 72) with 1048664 in Hch.
  cbn [chain] in Hch. destruct Hch as (_ & _ & Hh2 & Hch).
  rewrite H2 in Hh2. injection Hh2 as <- <- Hn2.
  destruct l as [|[s3 f3] l]; [done|]. clear Hn2.
  unfold sizeof_MemoryBlock in Hch.
  change (1048664 + 16 + 1048576) with 2097256 in Hch.
  cbn [chain] in Hch. destruct Hch as (_ & _ & Hh3 & _).
  rewrite H3 in Hh3. injection Hh3 as <- <- Hn3.
  destruct l; simpl in Hn3; unfold sizeof_MemoryBlock in Hn3; done.
Qed.

(** C2.  Pool ids are taken from the live count.  After [memory_init]
    (default pool, id 1) pools "a" and "b" get ids 2 and 3; once "a" is
    destroyed the count is back at 2, and pool "c" gets id 3 again while
    "b", which holds id 3, is still registered. *)
Theorem mempool_create_repeats_live_id :
  ∃ k0 a k1 b k2 k3 c k4 pb pc,
    memory_init demo 64 (boot demo) = Ret ERR_SUCCESS k0 ∧
    mempool_create demo 64 "a" MEM_POOL_SMALL 4096 k0 = Ret a k1 ∧
    mempool_create demo 64 "b" MEM_POOL_SMALL 4096 k1 = Ret b k2 ∧
    mempool_destroy 64 a k2 = Ret ERR_SUCCESS k3 ∧
    mempool_create demo 64 "c" MEM_POOL_SMALL 4096 k3 = Ret c k4 ∧
    b ≠ c ∧
    memory_pools k4 !! 2%nat = Some b ∧
    memory_pools k4 !! 1%nat = Some c ∧
    pool_ram k4 !! b = Some pb ∧
    pool_ram k4 !! c = Some pc ∧
    pool_id pb = 3 ∧ pool_id pc = 3 ∧
    mempool_find_by_id 3 k4 = Ret c k4.
Proof.
  eexists _, _, _, _, _, _, _, _, _, _.
  split; [vm_compute; reflexivity|].
  split; [vm_compute; reflexivity|].
  split; [vm_compute; reflexivity|].
  split; [vm_compute; reflexivity|].
  split; [vm_compute; reflexivity|].
  split; [done|].
  split; [vm_compute; reflexivity|].
  split; [vm_compute; reflexivity|].
  split; [vm_compute; reflexivity|].
  split; [vm_compute; reflexivity|].
  split; [vm_compute; reflexivity|].
  split; [vm_compute; reflexivity|].
  vm_compute. reflexivity.
Qed.

(** C9.  Destroying a pool that is not in the registry.  Pool "a" is
    created and destroyed; it is then in no registry slot.  A second
    [mempool_destroy] of the same handle returns [ERR_SUCCESS], not
    [ERR_INVALID_ARG], and lowers the pool count from 1 to 0 although the
    default pool is still registered. *)
Theorem mempool_destroy_unregistered_pool :
  ∃ k0 a k1 k2 k3 d,
    memory_init demo 64 (boot demo) = Ret ERR_SUCCESS k0 ∧
    mempool_create demo 64 "a" MEM_POOL_SMALL 4096 k0 = Ret a k1 ∧
    a ≠ NULL ∧
    mempool_destroy 64 a k1 = Ret ERR_SUCCESS k2 ∧
    existsb (Z.eqb a) (memory_pools k2) = false ∧
    memory_pool_count k2 = 1 ∧
    mempool_destroy 64 a k2 = Ret ERR_SUCCESS k3 ∧
    memory_pool_count k3 = 0 ∧
    memory_pools k3 !! 0%nat = Some d ∧ d ≠ NULL.
Proof.
  eexists _, _, _, _, _, _.
  split; [vm_compute; reflexivity|].
  split; [vm_compute; reflexivity|].
  split; [done|].
  split; [vm_compute; reflexivity|].
  split; [vm_compute; reflexivity|].
  split; [vm_compute; reflexivity|].
  split; [vm_compute; reflexivity|].
  split; [vm_compute; reflexivity|].
  split; [vm_compute; reflexivity|].
  done.
Qed.

(** ** Instances *)

Lemma double_free_detected_witness :
  ∃ k2 b,
    memory_free 64 2097272 k_alloc100 = Ret ERR_SUCCESS k2 ∧
    ram k2 !! (2097272 - sizeof_MemoryBlock) = Some b ∧ blk_free b = true ∧
    memory_free 64 2097272 k2 = Ret ERR_GENERIC k2.
Proof.
  apply (double_free_detected 64 k_init l_init 100 2097272 k_alloc100 l_alloc100).
  - apply heap_inv_check_sound. vm_compute. reflexivity.
  - simpl. lia.
  - vm_compute. reflexivity.
  - done.
  - apply heap_inv_check_sound. vm_compute. reflexivity.
Defined.

Lemma memory_alloc_always_splits_witness :
  memory_block_count k_alloc100 = memory_block_count k_init + 1 ∧
  ∃ pre s post,
    l_init = pre ++ (s, true) :: post ∧
    2097272 = heap_start + footprint pre + sizeof_MemoryBlock ∧
    (align8 100 + sizeof_MemoryBlock <= s →
     heap_inv k_alloc100
       (pre ++ (align8 100, false)
            :: (s - align8 100 - sizeof_MemoryBlock, true) :: post)) ∧
    (s = align8 100 + sizeof_MemoryBlock →
     heap_inv k_alloc100 (pre ++ (align8 100, false) :: (0, true) :: post)).
Proof.
  apply (memory_alloc_always_splits 64 k_init l_init 100 2097272 k_alloc100).
  - apply heap_inv_check_sound. vm_compute. reflexivity.
  - simpl. lia.
  - vm_compute. reflexivity.
  - done.
Defined.

Lemma coalesce_collapses_run_witness :
  ∃ k',
    memory_coalesce 64 k_run = Ret tt k' ∧
    heap_inv k'
      (merge_free []
       ++ (payload_sum [(64, true); (128, true)]
           + sizeof_MemoryBlock
             * (Z.of_nat (length [(64, true); (128, true)]) - 1), true)
       :: merge_free [(4194064, false)]) ∧
    memory_block_count k'
    = memory_block_count k_run
      - (Z.of_nat (length [(64, true); (128, true)]) - 1)
      - (Z.of_nat (length (@nil block))
         - Z.of_nat (length (merge_free [])))
      - (Z.of_nat (length [(4194064, false)])
         - Z.of_nat (length (merge_free [(4194064, false)]))) ∧
    memory_coalesce 64 k' = Ret tt k'.
Proof.
  apply (coalesce_collapses_run 64 k_run []
           [(64, true); (128, true)] [(4194064, false)]).
  - apply heap_inv_check_sound. vm_compute. reflexivity.
  - simpl. lia.
  - done.
  - repeat constructor.
  - by left.
  - right. by exists 4194064, [].
Defined.

(** C4, as stated, fails on a list with more than one run.  In the heap
    [k_two_runs] the first two blocks are a maximal run of [K = 2] free
    blocks and the last two another.  One pass of [memory_coalesce], after
    which a further pass changes nothing, leaves the first run as one
    block of 64 + 128 + 16 bytes, but the block count goes from 5 to 3:
    it drops by 2, the [K - 1] of each of the two runs, and not by the
    [K - 1 = 1] of the run. *)
Lemma coalesce_two_runs_count :
  heap_inv k_two_runs
    ([] ++ [(64, true); (128, true)]
        ++ (256, false) :: [(64, true); (4193712, true)]) ∧
  ∃ k',
    memory_coalesce 64 k_two_runs = Ret tt k' ∧
    memory_coalesce 64 k' = Ret tt k' ∧
    heap_inv k' [(64 + 128 + 16, true); (256, false); (4193792, true)] ∧
    memory_block_count k_two_runs = 5 ∧
    memory_block_count k' = 3 ∧
    memory_block_count k'
    ≠ memory_block_count k_two_runs
      - (Z.of_nat (length [(64, true); (128, true)]) - 1).
Proof.
  split; [apply heap_inv_check_sound; vm_compute; reflexivity|].
  eexists.
  split; [vm_compute; reflexivity|].
  split; [vm_compute; reflexivity|].
  split; [apply heap_inv_check_sound; vm_compute; reflexivity|].
  split; [reflexivity|].
  split; [reflexivity|].
  vm_compute. discriminate.
Qed.

Lemma mempool_create_body_failure_witness :
  ∃ k' b l',
    mempool_create demo 64 "big" MEM_POOL_LARGE (4 * MB) k_init = Ret NULL k' ∧
    memory_pools k' = memory_pools k_init ∧
    memory_pool_count k' = memory_pool_count k_init ∧
    pool_ram k' = pool_ram k_init ∧
    ram k' !! (2097272 - sizeof_MemoryBlock) = Some b ∧ blk_free b = true ∧
    heap_inv k' l'.
Proof.
  apply (mempool_create_body_failure demo 64 k_init l_init "big"
           MEM_POOL_LARGE (4 * MB) 2097272 k_meta k_meta).
  - apply heap_inv_check_sound. vm_compute. reflexivity.
  - simpl. lia.
  - vm_compute. reflexivity.
  - vm_compute. reflexivity.
  - vm_compute. reflexivity.
  - done.
  - vm_compute. reflexivity.
Defined.

Lemma mempool_alloc_bump_witness :
  (∀ k0 n, mempool_alloc NULL n k0 = Ret NULL k0) ∧
  (100 = 0 → mempool_alloc 2097272 100 k_net = Ret NULL k_net) ∧
  (0 < 100 → pool_used p_net + 100 <= pool_size p_net →
   mempool_alloc 2097272 100 k_net
   = Ret (u32 (pool_base_address p_net + pool_used p_net))
       (set_pool_ram (fun m => <[2097272 := bumped p_net 100]> m) k_net)) ∧
  (0 < 100 → pool_size p_net < pool_used p_net + 100 →
   mempool_alloc 2097272 100 k_net = Ret NULL k_net) ∧
  (pool_size p_net = 4096 → pool_used p_net = 0 →
   ∃ ptr k1 k2,
     mempool_alloc 2097272 4000 k_net = Ret ptr k1 ∧
     (ptr ≠ NULL → mempool_free 2097272 ptr k1 = Ret ERR_SUCCESS k2) ∧
     (ptr = NULL → k2 = k1) ∧
     mempool_alloc 2097272 200 k2 = Ret NULL k2).
Proof.
  apply (mempool_alloc_bump k_net 2097272 p_net 100).
  - done.
  - vm_compute. reflexivity.
  - simpl. lia.
  - lia.
  - simpl. lia.
Defined.

(** ** Requests that do not wrap *)

Lemma chain_prefix_aligned m a pv l1 l2 :
  chain m a pv (l1 ++ l2) → footprint l1 mod 8 = 0.
Proof.
  revert a pv. induction l1 as [|[s f] rest IH]; simpl; intros a pv H; [done|].
  destruct H as (_ & H8 & _ & Hr). specialize (IH _ _ Hr).
  unfold sizeof_MemoryBlock. mod8.
Qed.

(** X5.  First fit, for a request that does not wrap: the size is rounded up
    to the next multiple of 8; the first free block with room for the
    rounded size and a header is split; without such a block the call
    returns [NULL] and changes nothing. *)
Lemma memory_alloc_first_fit fuel k l n :
  heap_inv k l → (length l < fuel)%nat → request_ok n →
  align8 n = 8 * ((n + 7) / 8) ∧
  (∀ pre s post,
     l = pre ++ (s, true) :: post →
     Forall (fun b => ¬ fits (align8 n) b) pre →
     align8 n + sizeof_MemoryBlock <= s →
     ∃ k', memory_alloc fuel n k
           = Ret (heap_start + footprint pre + sizeof_MemoryBlock) k' ∧
           heap_inv k' (pre ++ (align8 n, false)
                            :: (s - align8 n - sizeof_MemoryBlock, true) :: post)) ∧
  (Forall (fun b => ¬ fits (align8 n) b) l →
   memory_alloc fuel n k = Ret NULL k).
Proof.
  intros Hinv Hfuel Hreq. pose proof Hreq as [Hn0 Hn].
  unfold sizeof_MemoryBlock in Hn.
  split; [apply align8_spec; lia|].
  pose proof (memory_alloc_spec fuel k l n Hinv Hfuel ltac:(lia)
                (request_ok_header_fits _ Hreq)) as Hspec.
  split.
  - intros pre s post -> Hpre Hs.
    rewrite first_fit_chosen in Hspec by done.
    destruct Hspec as (k' & He & Hinv' & _). exists k'.
    unfold sizeof_MemoryBlock in *. done.
  - intros Hnone. apply first_fit_None with (a := heap_start) in Hnone.
    rewrite Hnone in Hspec. done.
Qed.

(** X6.  For a request that does not wrap, the block handed out records at
    least the requested size, and the pointer lies at a multiple of 8 from
    the arena base. *)
Lemma memory_alloc_size_aligned fuel k l n p k' :
  heap_inv k l → (length l < fuel)%nat → request_ok n →
  memory_alloc fuel n k = Ret p k' → p ≠ NULL →
  ∃ b, ram k' !! (p - sizeof_MemoryBlock) = Some b ∧
       n <= blk_size b ∧ (p - heap_start) mod 8 = 0.
Proof.
  intros Hinv Hfuel [Hn0 Hn] Halloc Hp. unfold sizeof_MemoryBlock in Hn.
  destruct (memory_alloc_returns fuel k l n Hinv Hfuel)
    as [H|(pre & s & post & k1 & b & Hl & H & _ & _ & Hb & _ & Hsz & _)];
    [congruence|].
  rewrite H in Halloc. injection Halloc as <- <-.
  exists b. rewrite Z.add_simpl_r. split; [done|].
  destruct (align8_bounds n) as [Hr _]; [lia|lia|].
  split; [lia|].
  pose proof (inv_chain _ _ Hinv) as Hch. rewrite Hl in Hch.
  pose proof (chain_prefix_aligned _ _ _ _ _ Hch) as Ha.
  replace (heap_start + footprint pre + sizeof_MemoryBlock - heap_start)
    with (footprint pre + 16) by (unfold sizeof_MemoryBlock; lia).
  mod8.
Qed.

(** ** A header that is its own successor *)

(** Once a free header is its own successor, the loop of [memory_coalesce]
    merges it with itself for ever: no amount of fuel lets it return. *)
Lemma coalesce_loop_cycle fuel : ∀ k c s pv,
  c ≠ NULL → ram k !! c = Some (mkBlock s true c pv) →
  coalesce_loop fuel c k = OutOfFuel.
Proof.
  induction fuel as [|fuel IH]; intros k c s pv Hc Hh; [done|].
  simpl coalesce_loop.
  assert (Hnz : (c =? NULL) = false) by (by apply Z.eqb_neq).
  rewrite Hnz. rewrite (bind_load _ _ _ _ Hh). cbn [blk_next blk_free blk_size].
  rewrite Hnz. rewrite (bind_load _ _ _ _ Hh). cbn [blk_next blk_free blk_size andb].
  rewrite (bind_store _ _ _ _ _ Hh). cbn [with_size blk_size blk_free blk_next blk_prev].
  erewrite bind_load by (cbn [ram set_ram]; apply lookup_insert_eq).
  cbn [blk_next].
  erewrite bind_load by (cbn [ram set_ram]; apply lookup_insert_eq).
  cbn [blk_next].
  erewrite bind_store by (cbn [ram set_ram]; apply lookup_insert_eq).
  cbn [with_next blk_size blk_free blk_next blk_prev ram set_ram].
  rewrite insert_insert_eq.
  erewrite bind_load by (cbn [ram set_ram]; apply lookup_insert_eq).
  cbn [blk_next]. rewrite Hnz.
  erewrite bind_store by (cbn [ram set_ram]; apply lookup_insert_eq).
  cbn [with_prev blk_size blk_free blk_next blk_prev ram set_ram].
  rewrite insert_insert_eq. rewrite bind_modify.
  eapply IH; [done|]. cbn [ram set_ram set_memory_block_count].
  apply lookup_insert_eq.
Qed.

(** C3.  The pointer 2097272 is returned by a successful [memory_alloc],
    for a request of [2^32 - 16] bytes on the heap that [memory_init]
    leaves; the first [memory_free] of it does not return [ERR_SUCCESS]:
    the loop of [memory_coalesce] reaches the header that the allocation
    made its own successor, and no amount of fuel lets the call return. *)
Theorem memory_free_after_wrapped_alloc fuel :
  memory_init demo 64 (boot demo) = Ret ERR_SUCCESS k_init ∧
  heap_inv k_init l_init ∧
  memory_alloc 64 4294967280 k_init = Ret 2097272 k_wrapped ∧
  memory_free fuel 2097272 k_wrapped = OutOfFuel.
Proof.
  split; [vm_compute; reflexivity|].
  split; [apply heap_inv_check_sound; vm_compute; reflexivity|].
  split; [vm_compute; reflexivity|].
  assert (H1 : ram k_wrapped !! 1048576 = Some (mkBlock 72 false 1048664 0))
    by (vm_compute; reflexivity).
  assert (H2 : ram k_wrapped !! 1048664
               = Some (mkBlock 1048576 false 2097256 1048576))
    by (vm_compute; reflexivity).
  assert (H3 : ram k_wrapped !! 2097256
               = Some (mkBlock 4294967280 false 2097256 2097256))
    by (vm_compute; reflexivity).
  assert (Hl : memory_list k_wrapped = 1048576) by (vm_compute; reflexivity).
  generalize dependent k_wrapped. intros k H1 H2 H3 Hl.
  unfold memory_free. change (2097272 =? NULL) with false. cbv iota.
  change (u32 (2097272 - sizeof_MemoryBlock)) with 2097256.
  rewrite (bind_load _ _ _ _ H3). cbn [blk_free blk_size].
  rewrite (bind_store _ _ _ _ _ H3). cbn [with_free blk_size blk_free blk_next blk_prev].
  erewrite bind_load by (cbn [ram set_ram]; apply lookup_insert_eq).
  rewrite !bind_modify.
  match goal with |- bind _ _ ?k1 = _ => set (k' := k1) end.
  assert (H1' : ram k' !! 1048576 = Some (mkBlock 72 false 1048664 0))
    by (subst k'; cbn [ram set_ram set_memory_used set_memory_free_ctr];
        rewrite lookup_insert_ne by done; exact H1).
  assert (H2' : ram k' !! 1048664
                = Some (mkBlock 1048576 false 2097256 1048576))
    by (subst k'; cbn [ram set_ram set_memory_used set_memory_free_ctr];
        rewrite lookup_insert_ne by done; exact H2).
  assert (H3' : ram k' !! 2097256
                = Some (mkBlock 4294967280 true 2097256 2097256))
    by (subst k'; cbn [ram set_ram set_memory_used set_memory_free_ctr];
        apply lookup_insert_eq).
  assert (Hl' : memory_list k' = 1048576) by (subst k'; exact Hl).
  clearbody k'. unfold bind at 1, memory_coalesce. rewrite bind_get, Hl'.
  destruct fuel as [|fuel]; [done|]. simpl coalesce_loop.
  change (1048576 =? NULL) with false. cbv iota.
  rewrite (bind_load _ _ _ _ H1'). cbn [blk_next blk_free].
  change (1048664 =? NULL) with false. cbv iota.
  rewrite (bind_load _ _ _ _ H2'). cbn [blk_free andb].
  destruct fuel as [|fuel]; [done|]. simpl coalesce_loop.
  change (1048664 =? NULL) with false. cbv iota.
  rewrite (bind_load _ _ _ _ H2'). cbn [blk_next blk_free].
  change (2097256 =? NULL) with false. cbv iota.
  rewrite (bind_load _ _ _ _ H3'). cbn [blk_free andb].
  rewrite (coalesce_loop_cycle fuel k' 2097256 _ _ ltac:(done) H3'). done.
Qed.

(** C10.  The request of [2^32 - 16] bytes succeeds on the heap that
    [memory_init] leaves and the block count goes from 3 to 4, but the
    chosen block is not split: the address computed for the remainder
    header is the chosen header itself, no header is added to memory, and
    after the call no header at all is marked free. *)
Theorem memory_alloc_wrapped_split_adds_no_block :
  ∃ p k1,
    memory_init demo 64 (boot demo) = Ret ERR_SUCCESS k_init ∧
    heap_inv k_init l_init ∧
    memory_alloc 64 4294967280 k_init = Ret p k1 ∧ p ≠ NULL ∧
    memory_block_count k_init = 3 ∧ memory_block_count k1 = 4 ∧
    u32 (p - sizeof_MemoryBlock + sizeof_MemoryBlock + align8 4294967280)
    = p - sizeof_MemoryBlock ∧
    length (map_to_list (ram k1)) = length (map_to_list (ram k_init)) ∧
    forallb (fun cb : Z * MemoryBlock => negb (blk_free cb.2))
      (map_to_list (ram k1)) = true.
Proof.
  eexists _, _.
  split; [vm_compute; reflexivity|].
  split; [apply heap_inv_check_sound; vm_compute; reflexivity|].
  split; [vm_compute; reflexivity|].
  split; [done|].
  split; [vm_compute; reflexivity|].
  split; [vm_compute; reflexivity|].
  split; [vm_compute; reflexivity|].
  split; vm_compute; reflexivity.
Qed.

(** * Further properties of the allocator *)

(** ** Failing calls change nothing *)

(** X1.  On a well-formed heap a call of [memory_alloc] that returns [NULL],
    for whatever request (size 0, no block that fits, a size that wraps),
    leaves every static and every header as it was; and a request of size
    0 returns [NULL] in every state. *)
Theorem memory_alloc_null_changes_nothing fuel k l n k' :
  heap_inv k l → (length l < fuel)%nat →
  memory_alloc fuel n k = Ret NULL k' →
  k' = k ∧ ∀ k0 fuel0, memory_alloc fuel0 0 k0 = Ret NULL k0.
Proof.
  intros Hinv Hfuel He. split; [|done].
  eapply memory_alloc_null; eauto.
Qed.

Lemma memory_alloc_null_changes_nothing_witness :
  state_after (memory_alloc 64 (4 * MB) k_init) = k_init ∧
  ∀ k0 fuel0, memory_alloc fuel0 0 k0 = Ret NULL k0.
Proof.
  apply (memory_alloc_null_changes_nothing 64 k_init l_init (4 * MB)).
  - apply heap_inv_check_sound. vm_compute. reflexivity.
  - simpl. lia.
  - vm_compute. reflexivity.
Defined.



(** ** The counters and the shape of the list, call by call *)

Lemma used_bytes_app l1 l2 : used_bytes (l1 ++ l2) = used_bytes l1 + used_bytes l2.
Proof. induction l1 as [|[s f] rest IH]; simpl; lia. Qed.

Lemma used_bytes_merge_free l : used_bytes (merge_free l) = used_bytes l.
Proof.
  induction l as [|[s f] rest IH]; [done|].
  unfold merge_free; fold merge_free. simpl used_bytes at 2. rewrite <- IH.
  destruct f; [|done].
  destruct (merge_free rest) as [|[s' [|]] r]; simpl; lia.
Qed.

Lemma used_bytes_bounds m a pv l :
  chain m a pv l → 0 <= used_bytes l <= footprint l.
Proof.
  revert a pv. induction l as [|[s f] rest IH]; simpl; intros a pv H; [lia|].
  destruct H as (Hs & _ & _ & Hr). specialize (IH _ _ Hr).
  unfold sizeof_MemoryBlock. destruct f; lia.
Qed.

Lemma used_bytes_prefix_nonneg m a pv l1 l2 :
  chain m a pv (l1 ++ l2) → 0 <= used_bytes l1.
Proof.
  revert a pv. induction l1 as [|[s f] rest IH]; simpl; intros a pv H; [lia|].
  destruct H as (Hs & _ & _ & Hr). specialize (IH _ _ Hr).
  unfold sizeof_MemoryBlock. destruct f; lia.
Qed.

Lemma settled_split pre r x s post :
  settled (pre ++ (s, true) :: post) →
  settled (pre ++ (r, false) :: (x, true) :: post).
Proof.
  induction pre as [|[a f] pre IH]; simpl.
  - intros [H1 H2]. split; [done|]. split; [|done]. by destruct post.
  - intros [H1 H2]. split; [|by apply IH].
    destruct pre as [|[a' f'] pre']; simpl in *; [|done].
    destruct f; [done|done].
Qed.

Lemma alloc_good fuel k l n :
  good k l → (length l < fuel)%nat → n ≠ 0 → header_fits n →
  match first_fit (align8 n) heap_start l with
  | None => memory_alloc fuel n k = Ret NULL k
  | Some (c, l') =>
      ∃ k', memory_alloc fuel n k = Ret (c + 16) k' ∧ good k' l' ∧
            same_registry k k'
  end.
Proof.
  intros (Hinv & Hst & Ht & Hu & Hf) Hfuel Hn0 Hfit.
  pose proof (memory_alloc_spec fuel k l n Hinv Hfuel Hn0 Hfit) as Hspec.
  destruct (first_fit (align8 n) heap_start l) as [[c l']|] eqn:Hff; [|done].
  destruct Hspec as (k' & He & Hinv' & _ & _ & Hreg & _ & Hu' & Hf').
  exists k'. split; [done|]. split; [|done].
  destruct (first_fit_Some _ _ _ _ _ Hff) as (pre & s & post & -> & _ & Hle & -> & ->).
  split; [done|]. split; [by apply (settled_split pre _ _ s post)|].
  pose proof (used_bytes_bounds _ _ _ _ (inv_chain _ _ Hinv)) as Hb.
  pose proof (used_bytes_bounds _ _ _ _ (inv_chain _ _ Hinv')) as Hb'.
  rewrite (inv_total _ _ Hinv) in Hb. rewrite (inv_total _ _ Hinv') in Hb'.
  unfold stats_inv.
  rewrite !used_bytes_app in *. simpl in *.
  destruct (align8_range n) as [Hr _].
  destruct Hreg as (_ & _ & _ & Ht').
  unfold heap_size, MB, sizeof_MemoryBlock in *.
  rewrite Hu', Hf', Ht', Hf, Hu, Ht.
  rewrite !u32_small by lia. lia.
Qed.

Lemma free_good fuel k l ptr b :
  good k l → (length l <= fuel)%nat → ptr ≠ NULL →
  ram k !! u32 (ptr - sizeof_MemoryBlock) = Some b →
  if blk_free b then memory_free fuel ptr k = Ret ERR_GENERIC k
  else
    ∃ pre s post k',
      l = pre ++ (s, false) :: post ∧
      u32 (ptr - sizeof_MemoryBlock) = heap_start + footprint pre ∧
      memory_free fuel ptr k = Ret ERR_SUCCESS k' ∧
      good k' (merge_free (pre ++ (s, true) :: post)) ∧
      same_registry k k'.
Proof.
  intros (Hinv & Hst & Ht & Hu & Hf) Hfuel Hp Hb.
  pose proof (memory_free_spec fuel k l ptr b Hinv Hfuel Hp Hb) as Hspec.
  destruct (blk_free b); [done|].
  destruct Hspec as (pre & s & post & k' & -> & Hc & He & Hinv' & Hreg & _ & Hu' & Hf').
  exists pre, s, post, k'. split; [done|]. split; [done|]. split; [done|].
  split; [|done].
  split; [done|]. split; [apply merge_free_settled|].
  pose proof (used_bytes_bounds _ _ _ _ (inv_chain _ _ Hinv)) as Hb0.
  rewrite (inv_total _ _ Hinv) in Hb0.
  pose proof (chain_prefix_nonneg _ _ _ _ _ (inv_chain _ _ Hinv)) as Hpre.
  destruct (chain_app _ _ _ _ _ (inv_chain _ _ Hinv)) as [pv0 Hpost].
  pose proof (used_bytes_bounds _ _ _ _ Hpost) as Hbp.
  pose proof Hpost as (Hs & _ & _ & Hpost').
  pose proof (used_bytes_bounds _ _ _ _ Hpost') as Hbp'.
  unfold stats_inv. rewrite used_bytes_merge_free.
  rewrite !used_bytes_app in *. simpl in *.
  destruct Hreg as (_ & _ & _ & Ht').
  pose proof (used_bytes_prefix_nonneg _ _ _ _ _ (inv_chain _ _ Hinv)).
  unfold heap_size, MB, sizeof_MemoryBlock in *.
  rewrite Hu', Hf', Ht', Hf, Hu, Ht.
  rewrite !u32_small by lia. lia.
Qed.

Lemma merge_free_cons_congr b l1 l2 :
  merge_free l1 = merge_free l2 → merge_free (b :: l1) = merge_free (b :: l2).
Proof. destruct b as [s f]. unfold merge_free; fold merge_free. by intros ->. Qed.

Lemma merge_free_app_congr pre l1 l2 :
  merge_free l1 = merge_free l2 → merge_free (pre ++ l1) = merge_free (pre ++ l2).
Proof.
  intros H. induction pre as [|b pre IH]; [done|].
  simpl. by apply merge_free_cons_congr.
Qed.

Lemma settled_app_r l1 l2 : settled (l1 ++ l2) → settled l2.
Proof.
  induction l1 as [|[s f] rest IH]; [done|]. simpl. intros [_ H]. by apply IH.
Qed.

Lemma merge_free_unsplit pre r s post :
  settled (pre ++ (s, true) :: post) →
  merge_free (pre ++ (r, true) :: (s - r - sizeof_MemoryBlock, true) :: post)
  = pre ++ (s, true) :: post.
Proof.
  intros Hst.
  transitivity (merge_free (pre ++ (s, true) :: post));
    [|by apply settled_merge_free].
  apply merge_free_app_congr.
  apply settled_app_r in Hst. rewrite (settled_merge_free _ Hst).
  destruct Hst as [Hh Hpost].
  unfold merge_free; fold merge_free. rewrite (settled_merge_free _ Hpost).
  destruct post as [|[s2 f2] post2].
  - f_equal. f_equal. lia.
  - simpl in Hh. subst f2. f_equal. f_equal. lia.
Qed.

Lemma chain_split_unique m a pv pre b post pre' b' post' :
  chain m a pv (pre ++ b :: post) →
  pre ++ b :: post = pre' ++ b' :: post' →
  footprint pre = footprint pre' →
  pre = pre' ∧ b = b' ∧ post = post'.
Proof.
  revert a pv pre'. induction pre as [|[s f] pre IH]; intros a pv pre' Hch He Hfp.
  - destruct pre' as [|[s' f'] pre'].
    + simpl in He. injection He as -> ->. done.
    + exfalso. simpl in He. injection He as -> ->.
      simpl in Hch. destruct Hch as (Hs & _ & _ & Hr).
      pose proof (chain_prefix_nonneg _ _ _ _ _ Hr).
      simpl in Hfp. unfold sizeof_MemoryBlock in *. lia.
  - destruct pre' as [|[s' f'] pre'].
    + exfalso. simpl in He. injection He as <- <-.
      simpl in Hch. destruct Hch as (Hs & _ & _ & Hr).
      pose proof (chain_prefix_nonneg _ _ _ _ _ Hr).
      simpl in Hfp. unfold sizeof_MemoryBlock in *. lia.
    + simpl in He. injection He as <- <- He.
      simpl in Hch. destruct Hch as (Hs & _ & _ & Hr).
      simpl in Hfp.
      destruct (IH _ _ pre' Hr He ltac:(lia)) as (-> & -> & ->). done.
Qed.

(** Releasing the allocated block that lies after [pre]. *)
Lemma free_at fuel k pre s post ptr :
  good k (pre ++ (s, false) :: post) →
  (length (pre ++ (s, false) :: post) <= fuel)%nat →
  ptr = heap_start + footprint pre + sizeof_MemoryBlock →
  ∃ k', memory_free fuel ptr k = Ret ERR_SUCCESS k' ∧
        good k' (merge_free (pre ++ (s, true) :: post)) ∧
        same_registry k k'.
Proof.
  intros Hg Hfuel ->. pose proof Hg as (Hinv & _).
  pose proof (inv_chain _ _ Hinv) as Hch.
  pose proof (chain_prefix_nonneg _ _ _ _ _ Hch) as Hpre.
  pose proof (footprint_nonneg _ _ _ _ Hch) as Hfp.
  destruct (chain_app _ _ _ _ _ Hch) as [pv0 Hpost].
  pose proof (footprint_nonneg _ _ _ _ Hpost) as Hfpost.
  pose proof (inv_total _ _ Hinv) as Htot. rewrite footprint_app in Htot.
  destruct (chain_lookup _ _ _ _ _ _ _ Hch) as (nx & pv' & Hh).
  assert (Hc : u32 (heap_start + footprint pre + sizeof_MemoryBlock
                    - sizeof_MemoryBlock) = heap_start + footprint pre).
  { rewrite Z.add_simpl_r. apply u32_small.
    unfold heap_start, heap_size, MB in *. lia. }
  assert (Hp : heap_start + footprint pre + sizeof_MemoryBlock ≠ NULL).
  { unfold NULL, heap_start, sizeof_MemoryBlock. lia. }
  pose proof (free_good fuel k _ _ (mkBlock s false nx pv') Hg Hfuel Hp) as Hfree.
  rewrite Hc in Hfree. specialize (Hfree Hh). simpl in Hfree.
  destruct Hfree as (pre' & s' & post' & k' & He & Hfp' & Hfree & Hg' & Hreg).
  assert (Hfpe : footprint pre = footprint pre') by lia.
  destruct (chain_split_unique _ _ _ _ _ _ _ _ _ Hch He Hfpe) as (<- & [= <-] & <-).
  eauto.
Qed.

Lemma release_Some a p l l' :
  release a p l = Some l' →
  ∃ pre s post, l = pre ++ (s, false) :: post ∧
                p = a + footprint pre + sizeof_MemoryBlock ∧
                l' = pre ++ (s, true) :: post.
Proof.
  revert a l'. induction l as [|[s f] rest IH]; intros a l'; simpl; [done|].
  destruct (a + sizeof_MemoryBlock =? p) eqn:Hp.
  - apply Z.eqb_eq in Hp. destruct f; [done|]. intros [= <-].
    exists [], s, rest. simpl. split; [done|]. split; [lia|done].
  - destruct (release (a + sizeof_MemoryBlock + s) p rest) as [rest'|] eqn:Hr;
      [|done].
    intros [= <-]. destruct (IH _ _ Hr) as (pre & s' & post & -> & -> & ->).
    exists ((s, f) :: pre), s', post. simpl. split; [done|]. split; [lia|done].
Qed.

Lemma free_at_inv fuel k pre s post ptr :
  heap_inv k (pre ++ (s, false) :: post) →
  (length (pre ++ (s, false) :: post) <= fuel)%nat →
  ptr = heap_start + footprint pre + sizeof_MemoryBlock →
  ∃ k', memory_free fuel ptr k = Ret ERR_SUCCESS k' ∧
        heap_inv k' (merge_free (pre ++ (s, true) :: post)) ∧
        same_registry k k' ∧
        memory_used k' = u32 (memory_used k - (s + 16)) ∧
        memory_free_ctr k' = u32 (memory_free_ctr k + (s + 16)).
Proof.
  intros Hinv Hfuel ->.
  pose proof (inv_chain _ _ Hinv) as Hch.
  pose proof (chain_prefix_nonneg _ _ _ _ _ Hch) as Hpre.
  pose proof (footprint_nonneg _ _ _ _ Hch) as Hfp.
  destruct (chain_app _ _ _ _ _ Hch) as [pv0 Hpost].
  pose proof (footprint_nonneg _ _ _ _ Hpost) as Hfpost.
  pose proof (inv_total _ _ Hinv) as Htot. rewrite footprint_app in Htot.
  destruct (chain_lookup _ _ _ _ _ _ _ Hch) as (nx & pv' & Hh).
  assert (Hc : u32 (heap_start + footprint pre + sizeof_MemoryBlock
                    - sizeof_MemoryBlock) = heap_start + footprint pre).
  { rewrite Z.add_simpl_r. apply u32_small.
    unfold heap_start, heap_size, MB in *. lia. }
  assert (Hp : heap_start + footprint pre + sizeof_MemoryBlock ≠ NULL).
  { unfold NULL, heap_start, sizeof_MemoryBlock. lia. }
  pose proof (memory_free_spec fuel k _ _ (mkBlock s false nx pv') Hinv Hfuel Hp)
    as Hfree.
  rewrite Hc in Hfree. specialize (Hfree Hh). simpl in Hfree.
  destruct Hfree as (pre' & s' & post' & k' & He & Hfp' & Hfree & Hinv' & Hreg
                     & _ & Hu & Hf).
  assert (Hfpe : footprint pre = footprint pre') by lia.
  destruct (chain_split_unique _ _ _ _ _ _ _ _ _ Hch He Hfpe) as (<- & [= <-] & <-).
  eauto 10.
Qed.

Lemma inv_calls fuel cs : ∀ k l l',
  heap_inv k l → 262144 < Z.of_nat fuel → list_calls cs l = Some l' →
  ∃ k', do_calls fuel cs k = Ret tt k' ∧
        heap_inv k' l' ∧ footprint l' = heap_size ∧ same_registry k k'.
Proof.
  induction cs as [|c cs IH]; intros k l l' Hinv Hfuel Hrun.
  { simpl in Hrun. injection Hrun as <-. exists k. split; [done|].
    split; [done|]. split; [exact (inv_total _ _ Hinv)|apply same_registry_refl]. }
  pose proof (heap_inv_length _ _ Hinv) as Hlen.
  cbn [list_calls] in Hrun.
  destruct (list_call c l) as [l1|] eqn:Hc; [|done].
  assert (Hstep : ∀ r k1, do_call fuel c k = Ret r k1 → heap_inv k1 l1 →
            same_registry k k1 →
            ∃ k', do_calls fuel (c :: cs) k = Ret tt k' ∧
                  heap_inv k' l' ∧ footprint l' = heap_size ∧ same_registry k k').
  { intros r k1 He Hinv1 Hreg1.
    destruct (IH k1 l1 l' Hinv1 Hfuel Hrun) as (k' & Hd & Hinv' & Hfp & Hreg').
    exists k'. cbn [do_calls]. rewrite (bind_run _ _ _ _ _ He).
    split; [done|]. split; [done|]. split; [done|].
    by eapply same_registry_trans. }
  destruct c as [n|ptr]; cbn [list_call do_call] in *.
  - destruct (align8 n + sizeof_MemoryBlock <? 2 ^ 32) eqn:Hfit; [|done].
    apply Z.ltb_lt in Hfit.
    destruct (n =? 0) eqn:Hn0.
    { apply Z.eqb_eq in Hn0 as ->. injection Hc as <-.
      apply (Hstep tt k); [done|done|apply same_registry_refl]. }
    apply Z.eqb_neq in Hn0.
    pose proof (memory_alloc_spec fuel k l n Hinv ltac:(lia) Hn0 Hfit) as Hspec.
    destruct (first_fit (align8 n) heap_start l) as [[c l2]|]; injection Hc as <-.
    + destruct Hspec as (k1 & He & Hinv1 & _ & _ & Hreg1 & _).
      apply (Hstep tt k1); [by rewrite (bind_run _ _ _ _ _ He)|done|done].
    + apply (Hstep tt k); [by rewrite (bind_run _ _ _ _ _ Hspec)|done|].
      apply same_registry_refl.
  - destruct (ptr =? NULL) eqn:Hp.
    { apply Z.eqb_eq in Hp as ->. injection Hc as <-.
      apply (Hstep tt k); [done|done|apply same_registry_refl]. }
    destruct (release heap_start ptr l) as [l2|] eqn:Hrel; [|done].
    injection Hc as <-.
    destruct (release_Some _ _ _ _ Hrel) as (pre & s & post & -> & -> & ->).
    destruct (free_at_inv fuel k pre s post _ Hinv
                ltac:(unfold block in *; lia) eq_refl)
      as (k1 & He & Hinv1 & Hreg1 & _).
    apply (Hstep tt k1); [by rewrite (bind_run _ _ _ _ _ He)|done|done].
Qed.

(** X7.  The heap stays well formed, and so covers the arena exactly,
    along every sequence of calls whose requests do not wrap and whose
    releases are of [NULL] or of the payload of a block that is allocated
    at that moment: every call returns, the Block List afterwards is the
    one that the splits and the merges of the calls make of the list
    before, and the registry array and the pool count are as before.  (A
    release of any other address reads storage that is no header of the
    list; nothing is stated of it.) *)
Theorem heap_inv_calls fuel cs k l l' :
  heap_inv k l → 262144 < Z.of_nat fuel → list_calls cs l = Some l' →
  ∃ k', do_calls fuel cs k = Ret tt k' ∧
        heap_inv k' l' ∧ footprint l' = heap_size ∧
        memory_pools k' = memory_pools k ∧
        memory_pool_count k' = memory_pool_count k.
Proof.
  intros Hinv Hfuel Hrun.
  destruct (inv_calls fuel cs k l l' Hinv Hfuel Hrun)
    as (k' & He & Hinv' & Hfp & (_ & Hmp & Hpc & _)).
  exists k'. split; [done|]. split; [done|]. split; [done|]. done.
Qed.

Lemma good_calls fuel cs : ∀ k l l',
  good k l → 262144 < Z.of_nat fuel → list_calls cs l = Some l' →
  ∃ k', do_calls fuel cs k = Ret tt k' ∧ good k' l' ∧ same_registry k k'.
Proof.
  induction cs as [|c cs IH]; intros k l l' Hg Hfuel Hrun.
  { simpl in Hrun. injection Hrun as <-. exists k. split; [done|].
    split; [done|apply same_registry_refl]. }
  pose proof Hg as (Hinv & _).
  pose proof (heap_inv_length _ _ Hinv) as Hlen.
  cbn [list_calls] in Hrun.
  destruct (list_call c l) as [l1|] eqn:Hc; [|done].
  assert (Hstep : ∀ r k1, do_call fuel c k = Ret r k1 → good k1 l1 →
            same_registry k k1 →
            ∃ k', do_calls fuel (c :: cs) k = Ret tt k' ∧
                  good k' l' ∧ same_registry k k').
  { intros r k1 He Hg1 Hreg1.
    destruct (IH k1 l1 l' Hg1 Hfuel Hrun) as (k' & Hd & Hg' & Hreg').
    exists k'. cbn [do_calls]. rewrite (bind_run _ _ _ _ _ He).
    split; [done|]. split; [done|]. by eapply same_registry_trans. }
  destruct c as [n|ptr]; cbn [list_call do_call] in *.
  - destruct (align8 n + sizeof_MemoryBlock <? 2 ^ 32) eqn:Hfit; [|done].
    apply Z.ltb_lt in Hfit.
    destruct (n =? 0) eqn:Hn0.
    { apply Z.eqb_eq in Hn0 as ->. injection Hc as <-.
      apply (Hstep tt k); [done|done|apply same_registry_refl]. }
    apply Z.eqb_neq in Hn0.
    pose proof (alloc_good fuel k l n Hg ltac:(lia) Hn0 Hfit) as Hspec.
    destruct (first_fit (align8 n) heap_start l) as [[c l2]|]; injection Hc as <-.
    + destruct Hspec as (k1 & He & Hg1 & Hreg1).
      apply (Hstep tt k1); [by rewrite (bind_run _ _ _ _ _ He)|done|done].
    + apply (Hstep tt k); [by rewrite (bind_run _ _ _ _ _ Hspec)|done|].
      apply same_registry_refl.
  - destruct (ptr =? NULL) eqn:Hp.
    { apply Z.eqb_eq in Hp as ->. injection Hc as <-.
      apply (Hstep tt k); [done|done|apply same_registry_refl]. }
    destruct (release heap_start ptr l) as [l2|] eqn:Hrel; [|done].
    injection Hc as <-.
    destruct (release_Some _ _ _ _ Hrel) as (pre & s & post & -> & -> & ->).
    destruct (free_at fuel k pre s post _ Hg
                ltac:(unfold block in *; lia) eq_refl)
      as (k1 & He & Hg1 & Hreg1).
    apply (Hstep tt k1); [by rewrite (bind_run _ _ _ _ _ He)|done|done].
Qed.

(** X10.  Allocation and release are inverse on a heap between calls.
    When [memory_alloc n], for a request that does not wrap, returns a
    non-null pointer, [memory_free] of that pointer right after returns
    [ERR_SUCCESS] and brings back the Block List the heap had before the
    allocation (the remainder that the split cut off is merged back),
    with the block count, the used and the free counter as they were,
    and the registry untouched. *)
Theorem alloc_free_round_trip fuel k l n p k1 :
  good k l → (length l < fuel)%nat → header_fits n →
  memory_alloc fuel n k = Ret p k1 → p ≠ NULL →
  ∃ k2, memory_free fuel p k1 = Ret ERR_SUCCESS k2 ∧
        good k2 l ∧ same_registry k k2 ∧
        memory_block_count k2 = memory_block_count k ∧
        memory_used k2 = memory_used k ∧
        memory_get_free k2 = memory_get_free k.
Proof.
  intros Hg Hfuel Hfit Halloc Hp.
  assert (Hn0 : n ≠ 0).
  { intros ->. unfold memory_alloc in Halloc. simpl in Halloc.
    injection Halloc as <- _. done. }
  pose proof (alloc_good fuel k l n Hg Hfuel Hn0 Hfit) as Hspec.
  destruct (first_fit (align8 n) heap_start l) as [[c l']|] eqn:Hff;
    [|congruence].
  destruct Hspec as (k' & He & Hg' & Hreg).
  rewrite He in Halloc. injection Halloc as <- <-.
  destruct (first_fit_Some _ _ _ _ _ Hff) as (pre & s & post & -> & _ & Hle & -> & ->).
  destruct (free_at fuel k' pre (align8 n)
              ((s - align8 n - sizeof_MemoryBlock, true) :: post)
              (heap_start + footprint pre + 16) Hg')
    as (k2 & Hfree & Hg2 & Hreg2).
  { rewrite length_app in *. simpl in *. lia. }
  { done. }
  destruct Hg as (Hinv & Hst & Hs).
  rewrite merge_free_unsplit in Hg2 by done.
  exists k2. split; [done|]. split; [done|].
  split; [by eapply same_registry_trans|].
  destruct Hg2 as (Hinv2 & _ & Ht2 & Hu2 & Hf2).
  destruct Hs as (Ht & Hu & Hf).
  unfold memory_get_free.
  rewrite (inv_count _ _ Hinv2), (inv_count _ _ Hinv). split; [done|].
  split; congruence.
Qed.

(** ** Allocated blocks *)

Lemma live_blocks_app a l1 l2 :
  live_blocks a (l1 ++ l2) = live_blocks a l1 ++ live_blocks (a + footprint l1) l2.
Proof.
  revert a. induction l1 as [|[s f] rest IH]; intros a; simpl.
  - by rewrite Z.add_0_r.
  - rewrite IH, <- app_assoc. do 3 f_equal. lia.
Qed.

Lemma live_blocks_merge_free l : ∀ a, live_blocks a (merge_free l) = live_blocks a l.
Proof.
  induction l as [|[s f] rest IH]; intros a; [done|].
  unfold merge_free; fold merge_free. simpl live_blocks at 2.
  rewrite <- IH. destruct f; [|done].
  destruct (merge_free rest) as [|[s' [|]] r]; try done.
  simpl. f_equal. unfold sizeof_MemoryBlock. lia.
Qed.

Lemma live_blocks_prefix_range m a pv l1 l2 q s :
  chain m a pv (l1 ++ l2) → (q, s) ∈ live_blocks a l1 →
  a + sizeof_MemoryBlock <= q ∧ 0 <= s ∧ q + s <= a + footprint l1.
Proof.
  revert a pv. induction l1 as [|[s0 f] rest IH]; intros a pv Hch; simpl;
    [by intros ?%elem_of_nil|].
  destruct Hch as (Hs & _ & _ & Hr).
  pose proof (chain_prefix_nonneg _ _ _ _ _ Hr) as Hfp.
  intros [Hx|Hx]%elem_of_app.
  - destruct f; [by apply elem_of_nil in Hx|].
    apply list_elem_of_singleton in Hx. injection Hx as -> ->.
    unfold sizeof_MemoryBlock. lia.
  - destruct (IH _ _ Hr Hx) as (H1 & H2 & H3).
    unfold sizeof_MemoryBlock in *. lia.
Qed.

Lemma live_blocks_range m a pv l q s :
  chain m a pv l → (q, s) ∈ live_blocks a l →
  a + sizeof_MemoryBlock <= q ∧ 0 <= s ∧ q + s <= a + footprint l.
Proof.
  intros Hch. apply (live_blocks_prefix_range m a pv l []). by rewrite app_nil_r.
Qed.

(** X11.  What [memory_alloc] hands out is its own.  For a request that
    does not wrap, on a well-formed heap, a non-null result [p] is the
    payload of a block that lies, header and rounded payload, inside the
    arena and apart from the header and payload of every block that was
    allocated before; afterwards the allocated blocks are those of
    before, at their addresses and with their sizes, and the new one. *)
Theorem memory_alloc_apart fuel k l n p k' :
  heap_inv k l → (length l < fuel)%nat → header_fits n →
  memory_alloc fuel n k = Ret p k' → p ≠ NULL →
  heap_start + sizeof_MemoryBlock <= p ∧
  p + align8 n + sizeof_MemoryBlock <= heap_start + heap_size ∧
  (∀ q s, (q, s) ∈ live_blocks heap_start l →
          q + s <= p - sizeof_MemoryBlock ∨
          p + align8 n <= q - sizeof_MemoryBlock) ∧
  ∃ l', heap_inv k' l' ∧
        ∀ q s, (q, s) ∈ live_blocks heap_start l' ↔
               (q, s) = (p, align8 n) ∨ (q, s) ∈ live_blocks heap_start l.
Proof.
  intros Hinv Hfuel Hfit Halloc Hp.
  assert (Hn0 : n ≠ 0).
  { intros ->. unfold memory_alloc in Halloc. simpl in Halloc.
    injection Halloc as <- _. done. }
  pose proof (memory_alloc_spec fuel k l n Hinv Hfuel Hn0 Hfit) as Hspec.
  destruct (first_fit (align8 n) heap_start l) as [[c l']|] eqn:Hff;
    [|congruence].
  destruct Hspec as (k1 & He & Hinv' & _).
  rewrite He in Halloc. injection Halloc as <- <-.
  destruct (first_fit_Some _ _ _ _ _ Hff) as (pre & s & post & -> & _ & Hle & -> & ->).
  pose proof (inv_chain _ _ Hinv) as Hch.
  pose proof (chain_prefix_nonneg _ _ _ _ _ Hch) as Hpre.
  destruct (chain_app _ _ _ _ _ Hch) as [pv0 Hpost].
  pose proof Hpost as (Hs & _ & _ & Hpost2).
  pose proof (footprint_nonneg _ _ _ _ Hpost2) as Hfpost.
  pose proof (inv_total _ _ Hinv) as Htot. rewrite footprint_app in Htot.
  simpl in Htot.
  destruct (align8_range n) as [Hr _].
  split; [unfold sizeof_MemoryBlock; lia|].
  split; [unfold sizeof_MemoryBlock in *; lia|].
  split.
  - intros q s0. rewrite live_blocks_app. simpl.
    intros [Hx|Hx]%elem_of_app.
    + left. destruct (live_blocks_prefix_range _ _ _ _ _ _ _ Hch Hx) as (_ & _ & H3).
      unfold sizeof_MemoryBlock in *. lia.
    + right. destruct (live_blocks_range _ _ _ _ _ _ Hpost2 Hx) as (H1 & _).
      unfold sizeof_MemoryBlock in *. lia.
  - eexists. split; [exact Hinv'|]. intros q s0.
    rewrite !live_blocks_app. simpl.
    replace (heap_start + footprint pre + sizeof_MemoryBlock + align8 n
             + sizeof_MemoryBlock + (s - align8 n - sizeof_MemoryBlock))
      with (heap_start + footprint pre + sizeof_MemoryBlock + s) by lia.
    rewrite !elem_of_app, elem_of_cons.
    unfold sizeof_MemoryBlock. tauto.
Qed.

(** X13.  [memory_coalesce] on a well-formed heap returns, leaves a heap
    in which no two neighbours are both free, and touches nothing else:
    the allocated blocks keep their addresses and sizes, no header
    changes its free flag, the used and the free counter and the registry
    are as before, and the block count does not grow. *)
Theorem memory_coalesce_keeps_allocations fuel k l :
  heap_inv k l → (length l <= fuel)%nat →
  ∃ k', memory_coalesce fuel k = Ret tt k' ∧
        heap_inv k' (merge_free l) ∧ settled (merge_free l) ∧
        live_blocks heap_start (merge_free l) = live_blocks heap_start l ∧
        memory_used k' = memory_used k ∧
        memory_get_free k' = memory_get_free k ∧
        memory_block_count k' <= memory_block_count k ∧
        same_registry k k' ∧
        ∀ c, blk_free <$> (ram k' !! c) = blk_free <$> (ram k !! c).
Proof.
  intros Hinv Hfuel.
  destruct (memory_coalesce_spec fuel k l Hinv Hfuel)
    as (k' & He & Hinv' & Hreg & Hu & Hf & Hfl).
  exists k'. split; [done|]. split; [done|].
  split; [apply merge_free_settled|].
  split; [apply live_blocks_merge_free|].
  split; [done|]. split; [done|]. split; [|done].
  rewrite (inv_count _ _ Hinv'), (inv_count _ _ Hinv).
  pose proof (length_merge_free l). lia.
Qed.

Lemma memory_coalesce_keeps_allocations_witness :
  ∃ k', memory_coalesce 64 k_run = Ret tt k' ∧
        heap_inv k' (merge_free [(64, true); (128, true); (4194064, false)]) ∧
        settled (merge_free [(64, true); (128, true); (4194064, false)]) ∧
        live_blocks heap_start
          (merge_free [(64, true); (128, true); (4194064, false)])
        = live_blocks heap_start [(64, true); (128, true); (4194064, false)] ∧
        memory_used k' = memory_used k_run ∧
        memory_get_free k' = memory_get_free k_run ∧
        memory_block_count k' <= memory_block_count k_run ∧
        same_registry k_run k' ∧
        ∀ c, blk_free <$> (ram k' !! c) = blk_free <$> (ram k_run !! c).
Proof.
  apply (memory_coalesce_keeps_allocations 64 k_run
           [(64, true); (128, true); (4194064, false)]).
  - apply heap_inv_check_sound. vm_compute. reflexivity.
  - simpl. lia.
Defined.

(** X8.  Coalescing is complete.  From a heap between calls, along
    every sequence of [memory_alloc] and [memory_free] calls whose
    requests do not wrap and whose releases are of [NULL] or of the
    payload of a block allocated at that moment, every call returns and
    afterwards no two neighbours of the Block List are both free: a
    further [memory_coalesce] returns with the state as it is. *)
Theorem calls_leave_list_settled fuel cs k l l' :
  good k l → 262144 < Z.of_nat fuel → list_calls cs l = Some l' →
  ∃ k', do_calls fuel cs k = Ret tt k' ∧
        heap_inv k' l' ∧ settled l' ∧
        memory_coalesce fuel k' = Ret tt k'.
Proof.
  intros Hg Hfuel Hrun.
  destruct (good_calls fuel cs k l l' Hg Hfuel Hrun)
    as (k' & He & (Hinv & Hst & _) & _).
  exists k'. split; [done|]. split; [done|]. split; [done|].
  apply (memory_coalesce_settled fuel k' l'); [done| |done].
  pose proof (heap_inv_length _ _ Hinv). lia.
Qed.

(** X9.  The statistics follow the Block List.  From a heap between
    calls, after every sequence of [memory_alloc] and [memory_free] calls
    whose requests do not wrap and whose releases are of [NULL] or of the
    payload of a block allocated at that moment, [memory_get_stats]
    reports a total of 16 MB, as used the bytes of the allocated blocks
    with their headers, as free the total less the used bytes, as blocks
    the length of the Block List, and the pool count untouched;
    [memory_get_free] returns the same free figure, which is measured
    against the 16 MB total and not against the 4 MB arena, so it never
    drops below 12 MB. *)
Theorem calls_keep_statistics fuel cs k l l' st :
  good k l → 262144 < Z.of_nat fuel → list_calls cs l = Some l' →
  ∃ k', do_calls fuel cs k = Ret tt k' ∧
        heap_inv k' l' ∧
        memory_get_stats (Some st) k'
        = Some (mkStats (16 * MB) (used_bytes l')
                  (16 * MB - used_bytes l') (Z.of_nat (length l'))
                  (memory_pool_count k)) ∧
        memory_get_free k' = 16 * MB - used_bytes l' ∧
        12 * MB <= memory_get_free k' <= 16 * MB.
Proof.
  intros Hg Hfuel Hrun.
  destruct (good_calls fuel cs k l l' Hg Hfuel Hrun)
    as (k' & He & (Hinv & _ & Ht & Hu & Hf) & (_ & _ & Hc & _)).
  exists k'. split; [done|]. split; [done|].
  pose proof (used_bytes_bounds _ _ _ _ (inv_chain _ _ Hinv)) as Hb.
  rewrite (inv_total _ _ Hinv) in Hb.
  unfold memory_get_stats, memory_get_free.
  rewrite (inv_count _ _ Hinv), Hf, Hu, Ht, Hc.
  split; [done|]. split; [done|]. unfold heap_size, MB in *. lia.
Qed.

Lemma good_check k l :
  heap_inv_check k l = true → settled l →
  memory_total k = 16 * MB → memory_used k = used_bytes l →
  memory_free_ctr k = memory_total k - memory_used k → good k l.
Proof.
  intros H1 H2 H3 H4 H5. split; [by apply heap_inv_check_sound|]. done.
Qed.

Lemma calls_leave_list_settled_witness :
  ∃ k', do_calls (Z.to_nat 262145)
          [Alloc 100; Alloc 0; Free 2097272; Free 0; Alloc 8] k_init
        = Ret tt k' ∧
        heap_inv k'
          [(72, false); (1048576, false); (8, false); (3145584, true)] ∧
        settled [(72, false); (1048576, false); (8, false); (3145584, true)] ∧
        memory_coalesce (Z.to_nat 262145) k' = Ret tt k'.
Proof.
  apply (calls_leave_list_settled (Z.to_nat 262145)
           [Alloc 100; Alloc 0; Free 2097272; Free 0; Alloc 8]
           k_init l_init).
  - apply good_check; [vm_compute; reflexivity|simpl; tauto
                      |vm_compute; reflexivity..].
  - lia.
  - vm_compute. reflexivity.
Defined.

Lemma calls_keep_statistics_witness :
  ∃ k', do_calls (Z.to_nat 262145)
          [Alloc 100; Alloc 4096; Free 2097272] k_init = Ret tt k' ∧
        heap_inv k'
          [(72, false); (1048576, false); (104, true); (4096, false);
           (3141376, true)] ∧
        memory_get_stats (Some (mkStats 0 0 0 0 0)) k'
        = Some (mkStats (16 * MB)
                  (used_bytes [(72, false); (1048576, false); (104, true);
                               (4096, false); (3141376, true)])
                  (16 * MB
                   - used_bytes [(72, false); (1048576, false); (104, true);
                                 (4096, false); (3141376, true)])
                  (Z.of_nat
                     (length [(72, false); (1048576, false); (104, true);
                              (4096, false); (3141376, true)]))
                  (memory_pool_count k_init)) ∧
        memory_get_free k'
        = 16 * MB
          - used_bytes [(72, false); (1048576, false); (104, true);
                        (4096, false); (3141376, true)] ∧
        12 * MB <= memory_get_free k' <= 16 * MB.
Proof.
  apply (calls_keep_statistics (Z.to_nat 262145)
           [Alloc 100; Alloc 4096; Free 2097272] k_init l_init
           [(72, false); (1048576, false); (104, true); (4096, false);
            (3141376, true)]
           (mkStats 0 0 0 0 0)).
  - apply good_check; [vm_compute; reflexivity|simpl; tauto
                      |vm_compute; reflexivity..].
  - lia.
  - vm_compute. reflexivity.
Defined.

Lemma heap_inv_calls_witness :
  ∃ k', do_calls (Z.to_nat 262145)
          [Alloc 136; Alloc 16; Alloc 8; Free 2097456; Free 2097424; Alloc 8;
           Free 0; Alloc 0] k_init = Ret tt k' ∧
        heap_inv k'
          [(72, false); (1048576, false); (136, false); (8, false);
           (3145432, true)] ∧
        footprint [(72, false); (1048576, false); (136, false); (8, false);
                   (3145432, true)] = heap_size ∧
        memory_pools k' = memory_pools k_init ∧
        memory_pool_count k' = memory_pool_count k_init.
Proof.
  apply (heap_inv_calls (Z.to_nat 262145)
           [Alloc 136; Alloc 16; Alloc 8; Free 2097456; Free 2097424; Alloc 8;
            Free 0; Alloc 0] k_init l_init).
  - apply heap_inv_check_sound. vm_compute. reflexivity.
  - lia.
  - vm_compute. reflexivity.
Defined.

Lemma alloc_free_round_trip_witness :
  ∃ k2, memory_free 64 2097272 k_alloc100 = Ret ERR_SUCCESS k2 ∧
        good k2 l_init ∧ same_registry k_init k2 ∧
        memory_block_count k2 = memory_block_count k_init ∧
        memory_used k2 = memory_used k_init ∧
        memory_get_free k2 = memory_get_free k_init.
Proof.
  apply (alloc_free_round_trip 64 k_init l_init 100 2097272 k_alloc100).
  - apply good_check; [vm_compute; reflexivity|simpl; tauto
                      |vm_compute; reflexivity..].
  - simpl. lia.
  - unfold header_fits. vm_compute. reflexivity.
  - vm_compute. reflexivity.
  - done.
Defined.

Lemma memory_alloc_apart_witness :
  heap_start + sizeof_MemoryBlock <= 2097272 ∧
  2097272 + align8 100 + sizeof_MemoryBlock <= heap_start + heap_size ∧
  (∀ q s, (q, s) ∈ live_blocks heap_start l_init →
          q + s <= 2097272 - sizeof_MemoryBlock ∨
          2097272 + align8 100 <= q - sizeof_MemoryBlock) ∧
  ∃ l', heap_inv k_alloc100 l' ∧
        ∀ q s, (q, s) ∈ live_blocks heap_start l' ↔
               (q, s) = (2097272, align8 100) ∨
               (q, s) ∈ live_blocks heap_start l_init.
Proof.
  apply (memory_alloc_apart 64 k_init l_init 100 2097272 k_alloc100).
  - apply heap_inv_check_sound. vm_compute. reflexivity.
  - simpl. lia.
  - unfold header_fits. vm_compute. reflexivity.
  - vm_compute. reflexivity.
  - done.
Defined.

(** ** The pool registry over a well-formed heap *)

Lemma good_ext k k' l :
  ram k' = ram k → memory_list k' = memory_list k →
  memory_block_count k' = memory_block_count k →
  memory_total k' = memory_total k → memory_used k' = memory_used k →
  memory_free_ctr k' = memory_free_ctr k →
  good k l → good k' l.
Proof.
  intros Hr Hl Hc Ht Hu Hf ([H1 H2 H3 H4 H5 H6] & Hst & Hs1 & Hs2 & Hs3).
  split; [split|split; [done|repeat split]]; try congruence.
  intros c b. rewrite Hr. apply H6.
Qed.

Lemma alloc_zero fuel k : memory_alloc fuel 0 k = Ret NULL k.
Proof. done. Qed.

(** The outcome of [mempool_create] on a heap between calls: either
    [NULL], with the Block List, the counters and the registry as they
    were, or the address of a structure in a fresh block. *)
Lemma mempool_create_cases pf fuel k l name type size :
  good k l → (S (length l) < fuel)%nat →
  sizeof_MemoryPool pf ≠ 0 → header_fits (sizeof_MemoryPool pf) →
  header_fits size →
  ∃ r k', mempool_create pf fuel name type size k = Ret r k' ∧
    ((r = NULL ∧ good k' l ∧ same_registry k k' ∧
      (Z.of_nat (MAX_MEMPOOLS pf) <= memory_pool_count k ∨
       first_fit (align8 (sizeof_MemoryPool pf)) heap_start l = None ∨
       ∃ c1 l1,
         first_fit (align8 (sizeof_MemoryPool pf)) heap_start l = Some (c1, l1) ∧
         (size = 0 ∨ first_fit (align8 size) heap_start l1 = None))) ∨
     (∃ c1 l1 c2 l2,
        memory_pool_count k < Z.of_nat (MAX_MEMPOOLS pf) ∧ size ≠ 0 ∧
        first_fit (align8 (sizeof_MemoryPool pf)) heap_start l = Some (c1, l1) ∧
        first_fit (align8 size) heap_start l1 = Some (c2, l2) ∧
        r = c1 + 16 ∧ good k' l2 ∧
        pool_ram k'
        = <[c1 + 16 := mkPool (u32 (memory_pool_count k + 1))
                         (strncpy_name pf name) type (c2 + 16) size
                         (mempool_get_block_size type) 0 0 0 0 0]> (pool_ram k) ∧
        memory_pools k' = registry_add (c1 + 16) (memory_pools k) ∧
        memory_pool_count k' = u32 (memory_pool_count k + 1) ∧
        memory_total k' = memory_total k)).
Proof.
  intros Hg Hfuel Hsz0 Hfit1 Hfit2.
  unfold mempool_create. rewrite bind_get.
  destruct (Z.of_nat (MAX_MEMPOOLS pf) <=? memory_pool_count k) eqn:Hmax.
  { apply Z.leb_le in Hmax. exists NULL, k. split; [done|]. left.
    split; [done|]. split; [done|]. split; [apply same_registry_refl|]. by left. }
  apply Z.leb_gt in Hmax.
  pose proof (alloc_good fuel k l _ Hg ltac:(lia) Hsz0 Hfit1) as Hspec.
  destruct (first_fit _ heap_start l) as [[c1 l1]|] eqn:Hff1.
  2:{ exists NULL, k. rewrite (bind_run _ _ _ _ _ Hspec). simpl.
      split; [done|]. left.
      split; [done|]. split; [done|]. split; [apply same_registry_refl|].
      right. by left. }
  destruct Hspec as (k1 & He1 & Hg1 & Hreg1).
  rewrite (bind_run _ _ _ _ _ He1).
  destruct (first_fit_Some _ _ _ _ _ Hff1)
    as (pre & s & post & -> & _ & Hle & -> & ->).
  pose proof Hg as (Hinv & Hst & _).
  pose proof (inv_chain _ _ Hinv) as Hch.
  pose proof (chain_prefix_nonneg _ _ _ _ _ Hch) as Hpre.
  assert (Hpz : (heap_start + footprint pre + 16 =? NULL) = false).
  { apply Z.eqb_neq. unfold NULL, heap_start. lia. }
  rewrite Hpz.
  set (l1 := pre ++ (align8 (sizeof_MemoryPool pf), false)
                 :: (s - align8 (sizeof_MemoryPool pf) - sizeof_MemoryBlock, true)
                 :: post) in *.
  assert (Hlen1 : length l1 = S (length (pre ++ (s, true) :: post))).
  { subst l1. rewrite !length_app. simpl. lia. }
  assert (Hback : ∃ k2, memory_free fuel (heap_start + footprint pre + 16) k1
                        = Ret ERR_SUCCESS k2 ∧
                        good k2 (pre ++ (s, true) :: post) ∧ same_registry k k2).
  { destruct (free_at fuel k1 pre (align8 (sizeof_MemoryPool pf))
                ((s - align8 (sizeof_MemoryPool pf) - sizeof_MemoryBlock, true)
                 :: post)
                (heap_start + footprint pre + 16) Hg1)
      as (k2 & Hfree & Hg2 & Hreg2);
      [change (length l1 <= fuel)%nat; unfold block in *; lia|done|].
    rewrite merge_free_unsplit in Hg2 by done.
    exists k2. split; [done|]. split; [done|]. by eapply same_registry_trans. }
  destruct (decide (size = 0)) as [->|Hs0].
  { rewrite (bind_run _ _ _ _ _ (alloc_zero fuel k1)). simpl.
    destruct Hback as (k2 & Hfree & Hg2 & Hreg2).
    rewrite (bind_run _ _ _ _ _ Hfree). exists NULL, k2.
    split; [done|]. left. split; [done|]. split; [done|]. split; [done|].
    right. right. eexists _, _. split; [done|]. by left. }
  pose proof (alloc_good fuel k1 l1 _ Hg1 ltac:(unfold block in *; lia) Hs0 Hfit2)
    as Hspec2.
  destruct (first_fit (align8 size) heap_start l1) as [[c2 l2]|] eqn:Hff2.
  2:{ rewrite (bind_run _ _ _ _ _ Hspec2). simpl.
      destruct Hback as (k2 & Hfree & Hg2 & Hreg2).
      rewrite (bind_run _ _ _ _ _ Hfree). exists NULL, k2.
      split; [done|]. left. split; [done|]. split; [done|]. split; [done|].
      right. right. eexists _, _. split; [done|]. by right. }
  destruct Hspec2 as (k2 & He2 & Hg2 & Hreg2).
  rewrite (bind_run _ _ _ _ _ He2).
  destruct (first_fit_Some _ _ _ _ _ Hff2)
    as (pre2 & s2 & post2 & Hl1 & _ & Hle2 & -> & Hl2).
  pose proof Hg1 as (Hinv1 & _).
  pose proof (inv_chain _ _ Hinv1) as Hch1. rewrite Hl1 in Hch1.
  pose proof (chain_prefix_nonneg _ _ _ _ _ Hch1) as Hpre2.
  assert (Hpz2 : (heap_start + footprint pre2 + 16 =? NULL) = false).
  { apply Z.eqb_neq. unfold NULL, heap_start. lia. }
  rewrite Hpz2. rewrite bind_get.
  unfold store_pool. rewrite !bind_modify. unfold ret.
  eexists _, _. split; [done|]. right.
  exists (heap_start + footprint pre), l1, (heap_start + footprint pre2), l2.
  destruct Hreg1 as (Hp1 & Hm1 & Hc1 & Ht1).
  destruct Hreg2 as (Hp2 & Hm2 & Hc2 & Ht2).
  split; [done|]. split; [done|]. split; [done|]. split; [exact Hff2|].
  split; [done|].
  split; [eapply good_ext; [..|exact Hg2]; done|].
  knorm. rewrite Hc2, Hc1, Hp2, Hp1, Hm2, Hm1, Ht2, Ht1. done.
Qed.

(** *** The registry array *)

Lemma registered_app s1 s2 : registered (s1 ++ s2) = registered s1 ++ registered s2.
Proof.
  induction s1 as [|s rest IH]; [done|]. simpl.
  destruct (s =? NULL); [done|]. simpl. by rewrite IH.
Qed.

Lemma elem_of_registered p slots : p ∈ registered slots ↔ p ∈ slots ∧ p ≠ NULL.
Proof.
  induction slots as [|s rest IH]; simpl.
  - split; [by intros ?%elem_of_nil|by intros [?%elem_of_nil _]].
  - destruct (s =? NULL) eqn:Hz.
    + apply Z.eqb_eq in Hz. rewrite IH, elem_of_cons. split; [tauto|].
      intros [[->|?] ?]; [congruence|done].
    + apply Z.eqb_neq in Hz. rewrite !elem_of_cons, IH. split; [|tauto].
      intros [->|[? ?]]; [tauto|tauto].
Qed.

Lemma length_registered slots : (length (registered slots) <= length slots)%nat.
Proof.
  induction slots as [|s rest IH]; simpl; [lia|].
  destruct (s =? NULL); simpl; lia.
Qed.

(** The insertion loop takes the first empty slot. *)
Lemma registry_add_first pool slots :
  (length (registered slots) < length slots)%nat →
  ∃ s1 s2, slots = s1 ++ NULL :: s2 ∧ (NULL ∉ s1) ∧
           registry_add pool slots = s1 ++ pool :: s2.
Proof.
  induction slots as [|s rest IH]; simpl; [lia|].
  destruct (s =? NULL) eqn:Hz.
  - apply Z.eqb_eq in Hz as ->. intros _. exists [], rest.
    split; [done|]. split; [apply not_elem_of_nil|done].
  - simpl. intros Hlt. destruct IH as (s1 & s2 & -> & Hn & ->); [lia|].
    apply Z.eqb_neq in Hz.
    exists (s :: s1), s2. split; [done|]. split; [|done].
    apply not_elem_of_cons. split; [congruence|done].
Qed.

(** The removal loop clears the first slot that holds the pool. *)
Lemma registry_remove_first pool slots :
  pool ∈ slots →
  ∃ s1 s2, slots = s1 ++ pool :: s2 ∧ (pool ∉ s1) ∧
           registry_remove pool slots = s1 ++ NULL :: s2.
Proof.
  induction slots as [|s rest IH]; simpl; [by intros ?%elem_of_nil|].
  destruct (s =? pool) eqn:Hz.
  - apply Z.eqb_eq in Hz as ->. intros _. exists [], rest.
    split; [done|]. split; [apply not_elem_of_nil|done].
  - apply Z.eqb_neq in Hz. intros [?|Hin]%elem_of_cons; [congruence|].
    destruct (IH Hin) as (s1 & s2 & -> & Hn & ->).
    exists (s :: s1), s2. split; [done|]. split; [|done].
    apply not_elem_of_cons. split; [congruence|done].
Qed.


Lemma pool_blocks_app m l1 l2 :
  pool_blocks m (l1 ++ l2) = pool_blocks m l1 ++ pool_blocks m l2.
Proof.
  induction l1 as [|p rest IH]; [done|]. simpl. rewrite IH.
  by rewrite <- !app_assoc.
Qed.

Lemma pool_blocks_insert m p ps pools :
  p ∉ pools → pool_blocks (<[p := ps]> m) pools = pool_blocks m pools.
Proof.
  induction pools as [|q rest IH]; [done|]. simpl.
  intros [Hq Hr]%not_elem_of_cons.
  rewrite lookup_insert_ne by done. by rewrite IH.
Qed.

Lemma elem_of_pool_blocks m pools q :
  q ∈ pool_blocks m pools ↔
  ∃ p, p ∈ pools ∧ (q = p ∨ ∃ ps, m !! p = Some ps ∧ q = pool_base_address ps).
Proof.
  induction pools as [|p rest IH]; simpl.
  - split; [by intros ?%elem_of_nil|by intros (? & ?%elem_of_nil & _)].
  - rewrite elem_of_cons, elem_of_app, IH. split.
    + intros [->|[Hq|(p' & Hp' & H)]].
      * exists p. split; [by left|by left].
      * exists p. split; [by left|]. right.
        destruct (m !! p) as [ps|]; [|by apply elem_of_nil in Hq].
        apply list_elem_of_singleton in Hq. eauto.
      * exists p'. split; [by right|done].
    + intros (p' & [->|Hp']%elem_of_cons & H).
      * destruct H as [->|(ps & -> & ->)]; [by left|].
        right. left. by apply list_elem_of_singleton.
      * right. right. eauto.
Qed.

(** *** Allocated blocks, again *)

Lemma live_blocks_split a l q s :
  (q, s) ∈ live_blocks a l →
  ∃ pre post, l = pre ++ (s, false) :: post ∧ q = a + footprint pre + 16.
Proof.
  revert a. induction l as [|[s0 f] rest IH]; intros a; simpl;
    [by intros ?%elem_of_nil|].
  intros [Hx|Hx]%elem_of_app.
  - destruct f; [by apply elem_of_nil in Hx|].
    apply list_elem_of_singleton in Hx. injection Hx as -> ->.
    exists [], rest. simpl. split; [done|]. unfold sizeof_MemoryBlock. lia.
  - destruct (IH _ Hx) as (pre & post & -> & ->).
    exists ((s0, f) :: pre), post. simpl. split; [done|lia].
Qed.

Lemma live_blocks_first_fit r a l c l' q s :
  first_fit r a l = Some (c, l') →
  (q, s) ∈ live_blocks a l' ↔ (q, s) = (c + 16, r) ∨ (q, s) ∈ live_blocks a l.
Proof.
  intros (pre & s0 & post & -> & _ & _ & -> & ->)%first_fit_Some.
  rewrite !live_blocks_app. simpl.
  replace (a + footprint pre + sizeof_MemoryBlock + r + sizeof_MemoryBlock
           + (s0 - r - sizeof_MemoryBlock))
    with (a + footprint pre + sizeof_MemoryBlock + s0) by lia.
  rewrite !elem_of_app, elem_of_cons. unfold sizeof_MemoryBlock. tauto.
Qed.

Lemma first_fit_fresh m pv r a l c l' s :
  chain m a pv l → first_fit r a l = Some (c, l') →
  (c + 16, s) ∉ live_blocks a l.
Proof.
  intros Hch (pre & s0 & post & -> & _ & _ & -> & ->)%first_fit_Some.
  rewrite live_blocks_app. simpl. intros [Hx|Hx]%elem_of_app.
  - destruct (live_blocks_prefix_range _ _ _ _ _ _ _ Hch Hx) as (_ & H2 & H3). lia.
  - destruct (chain_app _ _ _ _ _ Hch) as [pv0 Hpost].
    destruct Hpost as (Hs & _ & _ & Hpost2).
    destruct (live_blocks_range _ _ _ _ _ _ Hpost2 Hx) as (H1 & _).
    unfold sizeof_MemoryBlock in *. lia.
Qed.

Lemma live_blocks_remove m a pv pre s post q' s' :
  chain m a pv (pre ++ (s, false) :: post) →
  (q', s') ∈ live_blocks a (merge_free (pre ++ (s, true) :: post)) ↔
  (q', s') ∈ live_blocks a (pre ++ (s, false) :: post) ∧
  q' ≠ a + footprint pre + 16.
Proof.
  intros Hch.
  destruct (chain_app _ _ _ _ _ Hch) as [pv0 Hpost].
  pose proof Hpost as (Hs & _ & _ & Hpost2).
  rewrite live_blocks_merge_free, !live_blocks_app. simpl.
  rewrite !elem_of_app, elem_of_cons.
  split.
  - intros [Hx|Hx].
    + split; [by left|].
      destruct (live_blocks_prefix_range _ _ _ _ _ _ _ Hch Hx) as (_ & H2 & H3).
      unfold sizeof_MemoryBlock in *. lia.
    + split; [by right; right|].
      destruct (live_blocks_range _ _ _ _ _ _ Hpost2 Hx) as (H1 & _).
      unfold sizeof_MemoryBlock in *. lia.
  - intros [[Hx|[Hx|Hx]] Hne]; [by left| |by right].
    injection Hx as -> ->. unfold sizeof_MemoryBlock in *. lia.
Qed.

(** Releasing an allocated block of the list. *)
Lemma free_live fuel k l q s :
  good k l → (length l <= fuel)%nat → (q, s) ∈ live_blocks heap_start l →
  ∃ k' l', memory_free fuel q k = Ret ERR_SUCCESS k' ∧
           good k' l' ∧ same_registry k k' ∧ (length l' <= length l)%nat ∧
           ∀ q' s', (q', s') ∈ live_blocks heap_start l' ↔
                    (q', s') ∈ live_blocks heap_start l ∧ q' ≠ q.
Proof.
  intros Hg Hfuel Hin.
  destruct (live_blocks_split _ _ _ _ Hin) as (pre & post & -> & ->).
  destruct (free_at fuel k pre s post _ Hg Hfuel eq_refl) as (k' & He & Hg' & Hreg).
  exists k', (merge_free (pre ++ (s, true) :: post)).
  split; [done|]. split; [done|]. split; [done|]. split.
  - etransitivity; [apply length_merge_free|]. rewrite !length_app. simpl. lia.
  - intros q' s'. destruct Hg as (Hinv & _).
    apply (live_blocks_remove _ _ _ _ _ _ _ _ (inv_chain _ _ Hinv)).
Qed.

(** X12.  [memory_free] releases one block.  On a well-formed heap,
    [memory_free] of the payload address of an allocated block of the
    Block List returns [ERR_SUCCESS], lowers the used counter by the size
    of the block and a header, and leaves as allocated blocks those of
    before except that one, at their addresses and with their sizes:
    coalescing moves and resizes free blocks only. *)
Theorem memory_free_releases_one fuel k l ptr s :
  heap_inv k l → (length l <= fuel)%nat →
  (ptr, s) ∈ live_blocks heap_start l →
  ∃ k' l',
    memory_free fuel ptr k = Ret ERR_SUCCESS k' ∧ heap_inv k' l' ∧
    memory_used k' = u32 (memory_used k - (s + sizeof_MemoryBlock)) ∧
    ∀ q s', (q, s') ∈ live_blocks heap_start l' ↔
            (q, s') ∈ live_blocks heap_start l ∧ q ≠ ptr.
Proof.
  intros Hinv Hfuel Hin.
  destruct (live_blocks_split _ _ _ _ Hin) as (pre & post & -> & ->).
  destruct (free_at_inv fuel k pre s post _ Hinv Hfuel eq_refl)
    as (k' & He & Hinv' & _ & Hu & _).
  exists k', (merge_free (pre ++ (s, true) :: post)).
  split; [done|]. split; [done|]. split; [done|].
  intros q s'. apply (live_blocks_remove _ _ _ _ _ _ _ _ (inv_chain _ _ Hinv)).
Qed.

Lemma memory_free_releases_one_witness :
  ∃ k' l',
    memory_free 64 2097272 k_alloc100 = Ret ERR_SUCCESS k' ∧ heap_inv k' l' ∧
    memory_used k' = u32 (memory_used k_alloc100 - (104 + sizeof_MemoryBlock)) ∧
    ∀ q s', (q, s') ∈ live_blocks heap_start l' ↔
            (q, s') ∈ live_blocks heap_start l_alloc100 ∧ q ≠ 2097272.
Proof.
  apply (memory_free_releases_one 64 k_alloc100 l_alloc100 2097272 104).
  - apply heap_inv_check_sound. vm_compute. reflexivity.
  - simpl. lia.
  - apply list_elem_of_In. vm_compute. tauto.
Defined.

Lemma NoDup_insert_two {A} (x y : A) l1 l2 :
  NoDup (l1 ++ l2) → x ∉ l1 ++ l2 → y ∉ l1 ++ l2 → x ≠ y →
  NoDup (l1 ++ x :: y :: l2).
Proof.
  intros Hnd Hx Hy Hxy.
  apply (NoDup_Permutation_proper (x :: y :: l1 ++ l2)).
  - rewrite <- !Permutation_middle. done.
  - apply NoDup_cons. split.
    + apply not_elem_of_cons. done.
    + apply NoDup_cons. done.
Qed.

Lemma pools_inv_blocks_live pf k l q :
  pools_inv pf k l →
  q ∈ pool_blocks (pool_ram k) (registered (memory_pools k)) →
  ∃ s, (q, s) ∈ live_blocks heap_start l.
Proof.
  intros Hpi (p & Hp & H)%elem_of_pool_blocks.
  destruct (pi_owned _ _ _ Hpi p Hp) as (ps & Hps & H1 & H2).
  destruct H as [->|(ps' & Hps' & ->)]; [eauto|].
  rewrite Hps in Hps'. injection Hps' as <-. eauto.
Qed.

(** X15.  [mempool_create] keeps the registry in step with the heap.
    On a heap between calls whose registry is in order, with sizes that
    do not wrap, the call returns and leaves heap and registry in order.
    When it returns [NULL] (array full, no room for the structure, size
    0, or no room for the body) the Block List is the one of before and
    the registry is untouched.  When it returns a pool, the pool was not
    registered before and is now, beside the pools of before; the count
    went up by one; the structure holds the count as id, the name cut to
    the field, the type, the size as given and the block size of the
    type, with the usage figures at 0; and the heap has two allocated
    blocks more, one for the structure and one for the body. *)
Theorem mempool_create_keeps_registry pf fuel k l name type size :
  good k l → pools_inv pf k l → (S (length l) < fuel)%nat →
  Z.of_nat (MAX_MEMPOOLS pf) < 2 ^ 32 →
  sizeof_MemoryPool pf ≠ 0 → header_fits (sizeof_MemoryPool pf) →
  header_fits size →
  ∃ r k' l',
    mempool_create pf fuel name type size k = Ret r k' ∧
    good k' l' ∧ pools_inv pf k' l' ∧
    (r = NULL → l' = l ∧ same_registry k k') ∧
    (r ≠ NULL →
     (r ∉ registered (memory_pools k)) ∧
     (∀ p, p ∈ registered (memory_pools k') ↔
           p = r ∨ p ∈ registered (memory_pools k)) ∧
     memory_pool_count k' = memory_pool_count k + 1 ∧
     ∃ base,
       pool_ram k' !! r
       = Some (mkPool (memory_pool_count k + 1) (strncpy_name pf name) type
                 base size (mempool_get_block_size type) 0 0 0 0 0) ∧
       ∀ q s, (q, s) ∈ live_blocks heap_start l' ↔
              (q, s) = (r, align8 (sizeof_MemoryPool pf)) ∨
              (q, s) = (base, align8 size) ∨
              (q, s) ∈ live_blocks heap_start l).
Proof.
  intros Hg Hpi Hfuel Hmax Hsz0 Hfit1 Hfit2.
  destruct (mempool_create_cases pf fuel k l name type size Hg Hfuel Hsz0 Hfit1 Hfit2)
    as (r & k' & He & [(-> & Hg' & Hreg & _)|
                       (c1 & l1 & c2 & l2 & Hcnt & Hs0 & Hff1 & Hff2 & -> & Hg'
                        & Hpr & Hmp & Hpc & Ht)]).
  - exists NULL, k', l. split; [done|]. split; [done|].
    destruct Hreg as (Hp1 & Hm1 & Hc1 & Ht1).
    split; [|done].
    destruct Hpi as [H1 H2 H3 H4]. split; rewrite ?Hp1, ?Hm1, ?Hc1; done.
  - pose proof Hg as (Hinv & _).
    pose proof (inv_chain _ _ Hinv) as Hch.
    destruct (first_fit_Some _ _ _ _ _ Hff1) as (pre & s & post & Hl & _ & _ & Hc1 & Hl1).
    pose proof Hch as Hch'. rewrite Hl in Hch'.
    pose proof (chain_prefix_nonneg _ _ _ _ _ Hch') as Hpre.
    assert (Hr0 : c1 + 16 ≠ NULL) by (unfold NULL, heap_start in *; lia).
    (* the heap after the first allocation *)
    assert (Hch1 : ∃ m1, chain m1 heap_start NULL l1).
    { pose proof (alloc_good fuel k l _ Hg ltac:(lia) Hsz0 Hfit1) as Hspec.
      rewrite Hff1 in Hspec. destruct Hspec as (k1 & _ & (Hinv1 & _) & _).
      exists (ram k1). exact (inv_chain _ _ Hinv1). }
    destruct Hch1 as [m1 Hch1].
    assert (Hfresh1 : ∀ s0, (c1 + 16, s0) ∉ live_blocks heap_start l).
    { intros s0. eapply first_fit_fresh; done. }
    assert (Hfresh2 : ∀ s0, (c2 + 16, s0) ∉ live_blocks heap_start l1).
    { intros s0. eapply first_fit_fresh; done. }
    assert (Hlive2 : ∀ q s0, (q, s0) ∈ live_blocks heap_start l2 ↔
              (q, s0) = (c1 + 16, align8 (sizeof_MemoryPool pf)) ∨
              (q, s0) = (c2 + 16, align8 size) ∨
              (q, s0) ∈ live_blocks heap_start l).
    { intros q s0.
      rewrite (live_blocks_first_fit _ _ _ _ _ q s0 Hff2).
      rewrite (live_blocks_first_fit _ _ _ _ _ q s0 Hff1). tauto. }
    assert (Hne12 : c1 + 16 ≠ c2 + 16).
    { intros Heq. apply (Hfresh2 (align8 (sizeof_MemoryPool pf))).
      rewrite <- Heq. apply (live_blocks_first_fit _ _ _ _ _ _ _ Hff1). by left. }
    assert (Hnew : c1 + 16 ∉ registered (memory_pools k)).
    { intros Hin. destruct (pi_owned _ _ _ Hpi _ Hin) as (ps & _ & H1 & _).
      by apply (Hfresh1 _ H1). }
    assert (Hold : ∀ q, q ∈ pool_blocks (pool_ram k) (registered (memory_pools k)) →
                        q ≠ c1 + 16 ∧ q ≠ c2 + 16).
    { intros q Hq. destruct (pools_inv_blocks_live _ _ _ _ Hpi Hq) as [s0 Hs0'].
      split; intros ->.
      - by apply (Hfresh1 s0).
      - apply (Hfresh2 s0). apply (live_blocks_first_fit _ _ _ _ _ _ _ Hff1).
        by right. }
    pose proof (length_registered (memory_pools k)) as Hlr.
    destruct (registry_add_first (c1 + 16) (memory_pools k))
      as (s1 & s2 & Hslots & Hn1 & Hadd).
    { rewrite (pi_slots _ _ _ Hpi). rewrite (pi_count _ _ _ Hpi) in Hcnt. lia. }
    assert (Hregd : registered (memory_pools k') =
                    registered s1 ++ (c1 + 16) :: registered s2).
    { rewrite Hmp, Hadd, registered_app. simpl.
      assert (Hz : (c1 + 16 =? NULL) = false) by (by apply Z.eqb_neq).
      by rewrite Hz. }
    assert (Hregd0 : registered (memory_pools k) = registered s1 ++ registered s2).
    { rewrite Hslots, registered_app. done. }
    assert (Hcount : u32 (memory_pool_count k + 1) = memory_pool_count k + 1).
    { apply u32_small. rewrite (pi_count _ _ _ Hpi) in *. lia. }
    rewrite Hcount in *.
    exists (c1 + 16), k', l2. split; [done|]. split; [done|].
    split; [|split; [done|]].
    + split.
      * rewrite Hmp, Hadd, <- (pi_slots _ _ _ Hpi), Hslots, !length_app. done.
      * rewrite Hpc, Hregd, (pi_count _ _ _ Hpi), Hregd0, !length_app. simpl. lia.
      * intros p. rewrite Hregd, elem_of_app, elem_of_cons.
        intros Hp.
        destruct (decide (p = c1 + 16)) as [->|Hpne].
        { eexists. rewrite Hpr, lookup_insert_eq. split; [done|]. simpl.
          split; apply Hlive2; tauto. }
        assert (Hpin : p ∈ registered (memory_pools k)).
        { rewrite Hregd0, elem_of_app. tauto. }
        destruct (pi_owned _ _ _ Hpi _ Hpin) as (ps & Hps & H1 & H2).
        exists ps. rewrite Hpr, lookup_insert_ne by done.
        split; [done|]. split; apply Hlive2; tauto.
      * rewrite Hregd, pool_blocks_app. simpl.
        rewrite Hpr, lookup_insert_eq. simpl.
        rewrite Hregd0 in Hnew. apply not_elem_of_app in Hnew as [Hn1' Hn2'].
        rewrite !pool_blocks_insert by done.
        pose proof (pi_nodup _ _ _ Hpi) as Hnd.
        rewrite Hregd0, pool_blocks_app in Hnd, Hold.
        apply NoDup_insert_two; [done| | |done].
        -- intros Hin. by destruct (Hold _ Hin).
        -- intros Hin. by destruct (Hold _ Hin).
    + intros _. split; [done|]. split.
      * intros p. rewrite Hregd, Hregd0, !elem_of_app, elem_of_cons. tauto.
      * split; [done|]. exists (c2 + 16).
        rewrite Hpr, lookup_insert_eq. done.
Qed.

Lemma bind_load_pool {B} a p (f : MemoryPool → M B) k :
  pool_ram k !! a = Some p → bind (load_pool a) f k = f p k.
Proof. intros H. unfold bind, load_pool. by rewrite H. Qed.

(** X16.  [mempool_destroy] of a registered pool, on a heap between
    calls whose registry is in order, returns [ERR_SUCCESS] and leaves
    heap and registry in order: the pool is out of the registry and the
    other pools stay, the count went down by one, and the heap lost the
    two blocks of the pool, structure and body, and no other. *)
Theorem mempool_destroy_registered pf fuel k l pool :
  good k l → pools_inv pf k l → (length l <= fuel)%nat →
  Z.of_nat (MAX_MEMPOOLS pf) < 2 ^ 32 →
  pool ∈ registered (memory_pools k) →
  ∃ k' l' ps,
    pool_ram k !! pool = Some ps ∧
    mempool_destroy fuel pool k = Ret ERR_SUCCESS k' ∧
    good k' l' ∧ pools_inv pf k' l' ∧
    (∀ p, p ∈ registered (memory_pools k') ↔
          p ∈ registered (memory_pools k) ∧ p ≠ pool) ∧
    memory_pool_count k' = memory_pool_count k - 1 ∧
    ∀ q s, (q, s) ∈ live_blocks heap_start l' ↔
           (q, s) ∈ live_blocks heap_start l ∧
           q ≠ pool ∧ q ≠ pool_base_address ps.
Proof.
  intros Hg Hpi Hfuel Hmax Hin.
  pose proof Hin as [Hin' Hp0]%elem_of_registered.
  destruct (pi_owned _ _ _ Hpi _ Hin) as (ps & Hps & Hlp & Hlb).
  destruct (registry_remove_first pool (memory_pools k) Hin')
    as (s1 & s2 & Hslots & Hn1 & Hrem).
  assert (Hz : (pool =? NULL) = false) by (by apply Z.eqb_neq).
  assert (Hz' : (pool =? NULL) = false) by done.
  assert (Hregd0 : registered (memory_pools k)
                   = registered s1 ++ pool :: registered s2).
  { rewrite Hslots, registered_app. simpl. by rewrite Hz. }
  pose proof (pi_nodup _ _ _ Hpi) as Hnd.
  rewrite Hregd0, pool_blocks_app in Hnd. simpl in Hnd. rewrite Hps in Hnd.
  simpl in Hnd.
  assert (Hnd' : NoDup (pool :: pool_base_address ps
                        :: pool_blocks (pool_ram k) (registered s1)
                        ++ pool_blocks (pool_ram k) (registered s2))).
  { eapply NoDup_Permutation_proper; [|exact Hnd].
    rewrite <- !Permutation_middle. done. }
  apply NoDup_cons in Hnd' as [Hpn Hnd'].
  apply NoDup_cons in Hnd' as [Hbn Hnd'].
  apply not_elem_of_cons in Hpn as [Hpb Hpn].
  set (k0 := set_memory_pools (registry_remove pool (memory_pools k)) k).
  assert (Hg0 : good k0 l) by (eapply good_ext; [..|exact Hg]; done).
  destruct (free_live fuel k0 l _ _ Hg0 Hfuel Hlb)
    as (k1 & l1 & He1 & Hg1 & Hreg1 & Hlen1 & Hlive1).
  assert (Hlp1 : (pool, align8 (sizeof_MemoryPool pf)) ∈ live_blocks heap_start l1).
  { apply Hlive1. done. }
  destruct (free_live fuel k1 l1 _ _ Hg1 ltac:(lia) Hlp1)
    as (k2 & l2 & He2 & Hg2 & Hreg2 & Hlen2 & Hlive2).
  destruct Hreg1 as (Hp1 & Hm1 & Hc1 & Ht1).
  destruct Hreg2 as (Hp2 & Hm2 & Hc2 & Ht2).
  assert (Hcnt : 1 <= memory_pool_count k <= Z.of_nat (MAX_MEMPOOLS pf)).
  { rewrite (pi_count _ _ _ Hpi), Hregd0, <- (pi_slots _ _ _ Hpi), Hslots.
    pose proof (length_registered s1). pose proof (length_registered s2).
    rewrite !length_app. simpl. lia. }
  exists (set_memory_pool_count (u32 (memory_pool_count k2 - 1)) k2), l2, ps.
  split; [done|]. split.
  { unfold mempool_destroy. rewrite Hz.
    rewrite (bind_load_pool _ _ _ _ Hps). rewrite bind_modify. fold k0.
    rewrite (bind_load_pool pool ps) by done.
    rewrite (bind_run _ _ _ _ _ He1). rewrite (bind_run _ _ _ _ _ He2).
    rewrite bind_modify. done. }
  assert (Hregd : registered (memory_pools k2) = registered s1 ++ registered s2).
  { rewrite Hm2, Hm1. subst k0. simpl. rewrite Hrem, registered_app. done. }
  assert (Hcount : u32 (memory_pool_count k2 - 1) = memory_pool_count k - 1).
  { rewrite Hc2, Hc1. subst k0. simpl. apply u32_small. lia. }
  assert (Hpr : pool_ram k2 = pool_ram k) by (rewrite Hp2, Hp1; done).
  assert (Hlive : ∀ q s, (q, s) ∈ live_blocks heap_start l2 ↔
             (q, s) ∈ live_blocks heap_start l ∧
             q ≠ pool ∧ q ≠ pool_base_address ps).
  { intros q s. rewrite Hlive2, Hlive1. tauto. }
  split; [eapply good_ext; [..|exact Hg2]; done|].
  split; [|split; [|split; [|done]]].
  - split; simpl.
    + rewrite Hm2, Hm1. subst k0. simpl.
      rewrite Hrem, <- (pi_slots _ _ _ Hpi), Hslots, !length_app. done.
    + rewrite Hcount, Hregd, (pi_count _ _ _ Hpi), Hregd0, !length_app. simpl. lia.
    + intros p. rewrite Hregd, Hpr. intros Hp.
      assert (Hpin : p ∈ registered (memory_pools k)).
      { rewrite Hregd0. apply elem_of_app in Hp as [?|?];
          apply elem_of_app; [by left|right; by right]. }
      destruct (pi_owned _ _ _ Hpi _ Hpin) as (ps' & Hps' & H1 & H2).
      exists ps'. split; [done|].
      assert (Hpb1 : p ∈ pool_blocks (pool_ram k) (registered s1)
                         ++ pool_blocks (pool_ram k) (registered s2)).
      { rewrite <- pool_blocks_app. apply elem_of_pool_blocks.
        exists p. split; [done|by left]. }
      assert (Hpb2 : pool_base_address ps'
                       ∈ pool_blocks (pool_ram k) (registered s1)
                         ++ pool_blocks (pool_ram k) (registered s2)).
      { rewrite <- pool_blocks_app. apply elem_of_pool_blocks.
        exists p. split; [done|]. right. eauto. }
      split; apply Hlive; (split; [done|]); split; intros Heq;
        rewrite Heq in *; done.
    + rewrite Hregd, Hpr, pool_blocks_app. done.
  - intros p. simpl. rewrite Hregd, Hregd0, !elem_of_app, elem_of_cons.
    split.
    + intros Hp. split; [tauto|]. intros ->.
      apply Hpn. rewrite <- pool_blocks_app. apply elem_of_pool_blocks.
      exists pool. rewrite elem_of_app. split; [done|by left].
    + tauto.
  - simpl. done.
Qed.

(** ** Initialisation *)

Lemma registered_replicate n : registered (replicate n NULL) = [].
Proof. induction n as [|n IH]; [done|]. simpl. done. Qed.

Lemma memory_init_spec pf fuel k0 :
  ram k0 = ∅ → memory_used k0 = 0 →
  (1 <= MAX_MEMPOOLS pf)%nat → 0 < sizeof_MemoryPool pf <= MB →
  (3 <= fuel)%nat →
  ∃ k',
    memory_init pf fuel k0 = Ret ERR_SUCCESS k' ∧
    good k' [(align8 (sizeof_MemoryPool pf), false); (MB, false);
             (heap_size - align8 (sizeof_MemoryPool pf) - MB - 48, true)] ∧
    memory_pools k'
    = (heap_start + 16) :: replicate (MAX_MEMPOOLS pf - 1) NULL ∧
    memory_pool_count k' = 1 ∧
    pool_ram k'
    = <[heap_start + 16 :=
          mkPool 1 (strncpy_name pf "default") MEM_POOL_DEFAULT
            (heap_start + align8 (sizeof_MemoryPool pf) + 32) MB 128
            0 0 0 0 0]> (pool_ram k0).
Proof.
  intros Hram Hused Hmax Hsz Hfuel.
  set (k1 := mkKernel (<[heap_start := mkBlock (heap_size - 16) true 0 0]> ∅)
               (pool_ram k0) (16 * MB) 0 (16 * MB) 1 heap_start
               (replicate (MAX_MEMPOOLS pf) NULL) 0).
  assert (Hun : memory_init pf fuel k0
                = (let* default_pool :=
                     mempool_create pf fuel "default" MEM_POOL_DEFAULT (1 * MB) in
                   if default_pool =? NULL then panic else ret ERR_SUCCESS) k1).
  { unfold memory_init, store. rewrite !bind_modify. knorm.
    rewrite Hram, Hused. rewrite !lookup_insert_eq, lookup_empty. simpl.
    rewrite !insert_insert_eq. done. }
  rewrite Hun. clear Hun.
  destruct (align8_bounds (sizeof_MemoryPool pf)) as [Hr H8];
    [lia|unfold MB in *; lia|].
  set (r := align8 (sizeof_MemoryPool pf)) in *.
  assert (Hg1 : good k1 [(heap_size - 16, true)]).
  { split; [split|split; [done|]]; subst k1; simpl.
    - done.
    - split; [unfold heap_size, MB; lia|]. split; [done|].
      split; [|done]. by rewrite lookup_insert_eq.
    - done.
    - unfold sizeof_MemoryBlock. lia.
    - done.
    - intros c b Hc Hb. apply lookup_insert_Some in Hc as [[_ <-]|[_ Hc]]; done.
    - split; [done|]. split; [done|]. simpl. lia. }
  assert (Hfit1 : header_fits (sizeof_MemoryPool pf)).
  { unfold header_fits, sizeof_MemoryBlock. fold r. unfold MB in *. lia. }
  assert (Hfit2 : header_fits (1 * MB)) by (unfold header_fits; vm_compute; done).
  destruct (mempool_create_cases pf fuel k1 _ "default" MEM_POOL_DEFAULT (1 * MB)
              Hg1 ltac:(simpl; lia) ltac:(lia) Hfit1 Hfit2)
    as (p & k' & He & Hcases).
  assert (Hff1 : first_fit r heap_start [(heap_size - 16, true)]
                 = Some (heap_start, [(r, false); (heap_size - 16 - r - 16, true)])).
  { simpl. unfold sizeof_MemoryBlock.
    assert (Hle : (r + 16 <=? heap_size - 16) = true)
      by (apply Z.leb_le; unfold heap_size, MB in *; lia).
    by rewrite Hle. }
  assert (Hal : align8 (1 * MB) = MB) by (vm_compute; done).
  assert (Hff2 : first_fit MB heap_start [(r, false); (heap_size - 16 - r - 16, true)]
                 = Some (heap_start + 16 + r,
                         [(r, false); (MB, false);
                          (heap_size - 16 - r - 16 - MB - 16, true)])).
  { simpl. unfold sizeof_MemoryBlock.
    assert (Hle : (MB + 16 <=? heap_size - 16 - r - 16) = true)
      by (apply Z.leb_le; unfold heap_size, MB in *; lia).
    by rewrite Hle. }
  fold r in Hcases. rewrite Hal, Hff1 in Hcases.
  destruct Hcases as [(_ & _ & _ & Hwhy)|
                      (c1 & l1 & c2 & l2 & _ & _ & [= <- <-] & Hff2' & -> & Hg'
                       & Hpr & Hmp & Hpc & _)].
  { exfalso. destruct Hwhy as [Hw|[Hw|(c1 & l1 & [= <- <-] & [Hw|Hw])]].
    - subst k1. simpl in Hw. lia.
    - done.
    - unfold MB in Hw. lia.
    - rewrite Hff2 in Hw. done. }
  rewrite Hff2 in Hff2'. injection Hff2' as <- <-.
  exists k'. unfold bind. rewrite He.
  assert (Hz : (heap_start + 16 =? NULL) = false) by done. rewrite Hz.
  split; [done|].
  replace (heap_size - r - MB - 48) with (heap_size - 16 - r - 16 - MB - 16) by lia.
  split; [done|].
  subst k1. simpl in *.
  split.
  { rewrite Hmp. destruct (MAX_MEMPOOLS pf) as [|n]; [lia|]. simpl.
    by rewrite Nat.sub_0_r. }
  split; [rewrite Hpc; done|].
  rewrite Hpr. do 2 f_equal. lia.
Qed.

Lemma memory_init_pools pf k' :
  good k' [(align8 (sizeof_MemoryPool pf), false); (MB, false);
           (heap_size - align8 (sizeof_MemoryPool pf) - MB - 48, true)] →
  (1 <= MAX_MEMPOOLS pf)%nat →
  memory_pools k' = (heap_start + 16) :: replicate (MAX_MEMPOOLS pf - 1) NULL →
  memory_pool_count k' = 1 →
  (∃ nm, pool_ram k' !! (heap_start + 16)
         = Some (mkPool 1 nm MEM_POOL_DEFAULT
                   (heap_start + align8 (sizeof_MemoryPool pf) + 32) MB 128
                   0 0 0 0 0)) →
  pools_inv pf k'
    [(align8 (sizeof_MemoryPool pf), false); (MB, false);
     (heap_size - align8 (sizeof_MemoryPool pf) - MB - 48, true)].
Proof.
  intros Hg Hmax Hmp Hpc [nm Hps].
  assert (Hregd : registered (memory_pools k') = [heap_start + 16]).
  { rewrite Hmp. simpl. by rewrite registered_replicate. }
  destruct (align8_range (sizeof_MemoryPool pf)) as [Hr _].
  split.
  - rewrite Hmp. simpl. rewrite length_replicate. lia.
  - rewrite Hregd, Hpc. done.
  - intros p. rewrite Hregd. intros ->%list_elem_of_singleton.
    eexists. split; [exact Hps|]. simpl.
    assert (HMB : align8 MB = MB) by (vm_compute; done).
    rewrite HMB. unfold sizeof_MemoryBlock.
    split; [by left|]. rewrite !elem_of_cons. right. left.
    f_equal. lia.
  - rewrite Hregd. simpl. rewrite Hps. simpl.
    apply NoDup_cons. split; [|apply NoDup_singleton].
    intros Heq%list_elem_of_singleton. lia.
Qed.

(** X14.  [memory_init] on any platform.  With at least one registry
    slot and a pool structure of 1 MB at most, from statics that hold no
    header and count no used byte (the boot state is one), [memory_init]
    returns [ERR_SUCCESS] and leaves a heap of three blocks: the
    structure of the default pool, its body of 1 MB, and the free rest of
    the 4 MB arena.  Heap and registry are in order, the default pool
    sits in slot 0 with id 1, type [MEM_POOL_DEFAULT], block size 128 and
    its name cut to the field, and the count is 1. *)
Theorem memory_init_ready pf fuel k0 :
  ram k0 = ∅ → memory_used k0 = 0 →
  (1 <= MAX_MEMPOOLS pf)%nat → 0 < sizeof_MemoryPool pf <= MB →
  (3 <= fuel)%nat →
  ∃ k',
    memory_init pf fuel k0 = Ret ERR_SUCCESS k' ∧
    good k' [(align8 (sizeof_MemoryPool pf), false); (MB, false);
             (heap_size - align8 (sizeof_MemoryPool pf) - MB - 48, true)] ∧
    pools_inv pf k'
      [(align8 (sizeof_MemoryPool pf), false); (MB, false);
       (heap_size - align8 (sizeof_MemoryPool pf) - MB - 48, true)] ∧
    memory_pools k'
    = (heap_start + 16) :: replicate (MAX_MEMPOOLS pf - 1) NULL ∧
    memory_pool_count k' = 1 ∧
    pool_ram k'
    = <[heap_start + 16 :=
          mkPool 1 (strncpy_name pf "default") MEM_POOL_DEFAULT
            (heap_start + align8 (sizeof_MemoryPool pf) + 32) MB 128
            0 0 0 0 0]> (pool_ram k0).
Proof.
  intros Hram Hused Hmax Hsz Hfuel.
  destruct (memory_init_spec pf fuel k0 Hram Hused Hmax Hsz Hfuel)
    as (k' & He & Hg & Hmp & Hpc & Hpr).
  exists k'. split; [done|]. split; [done|]. split; [|done].
  apply memory_init_pools; try done.
  eexists. rewrite Hpr. apply lookup_insert_eq.
Qed.

Lemma memory_init_ready_witness :
  ∃ k',
    memory_init demo 64 (boot demo) = Ret ERR_SUCCESS k' ∧
    good k' [(align8 (sizeof_MemoryPool demo), false); (MB, false);
             (heap_size - align8 (sizeof_MemoryPool demo) - MB - 48, true)] ∧
    pools_inv demo k'
      [(align8 (sizeof_MemoryPool demo), false); (MB, false);
       (heap_size - align8 (sizeof_MemoryPool demo) - MB - 48, true)] ∧
    memory_pools k'
    = (heap_start + 16) :: replicate (MAX_MEMPOOLS demo - 1) NULL ∧
    memory_pool_count k' = 1 ∧
    pool_ram k'
    = <[heap_start + 16 :=
          mkPool 1 (strncpy_name demo "default") MEM_POOL_DEFAULT
            (heap_start + align8 (sizeof_MemoryPool demo) + 32) MB 128
            0 0 0 0 0]> (pool_ram (boot demo)).
Proof.
  apply (memory_init_ready demo 64 (boot demo)).
  - reflexivity.
  - reflexivity.
  - simpl. lia.
  - simpl. unfold MB. lia.
  - lia.
Defined.

Lemma k_init_state :
  good k_init l_init ∧ pools_inv demo k_init l_init.
Proof.
  destruct (memory_init_spec demo 64 (boot demo))
    as (k' & He & Hg & Hmp & Hpc & Hpr);
    [done|done|simpl; lia|simpl; unfold MB; lia|lia|].
  assert (Hk : k_init = k') by (unfold k_init; rewrite He; done).
  assert (Hl : l_init = [(align8 (sizeof_MemoryPool demo), false); (MB, false);
             (heap_size - align8 (sizeof_MemoryPool demo) - MB - 48, true)])
    by (vm_compute; done).
  rewrite Hk, Hl. split; [done|].
  apply memory_init_pools; try done; [simpl; lia|].
  eexists. rewrite Hpr. apply lookup_insert_eq.
Qed.


(** ** Looking pools up *)

Lemma find_slot_none test m slots :
  (∀ p, p ∈ registered slots → ∃ ps, m !! p = Some ps ∧ test ps = false) →
  find_slot test m slots = Some NULL.
Proof.
  induction slots as [|s rest IH]; [done|]. simpl. intros H.
  destruct (s =? NULL) eqn:Hz; [by apply IH|].
  destruct (H s) as (ps & -> & ->); [by left|].
  apply IH. intros p Hp. apply H. by right.
Qed.

Lemma find_slot_first test m s1 r s2 ps :
  (∀ p, p ∈ registered s1 → ∃ ps, m !! p = Some ps ∧ test ps = false) →
  r ≠ NULL → m !! r = Some ps → test ps = true →
  find_slot test m (s1 ++ r :: s2) = Some r.
Proof.
  intros H Hr Hps Ht.
  induction s1 as [|s rest IH]; simpl.
  - assert (Hz : (r =? NULL) = false) by (by apply Z.eqb_neq).
    by rewrite Hz, Hps, Ht.
  - simpl in H. destruct (s =? NULL) eqn:Hz; [by apply IH|].
    destruct (H s) as (ps' & -> & ->); [by left|].
    apply IH. intros p Hp. apply H. by right.
Qed.

(** Linear search: the result is the first pool of the array that passes
    the test, or [NULL] when none does. *)
Lemma find_slot_cases test m slots :
  (∀ p, p ∈ registered slots → is_Some (m !! p)) →
  ∃ r, find_slot test m slots = Some r ∧
    ((r = NULL ∧
      ∀ p ps, p ∈ registered slots → m !! p = Some ps → test ps = false) ∨
     (∃ s1 s2 ps,
        slots = s1 ++ r :: s2 ∧ r ≠ NULL ∧ m !! r = Some ps ∧ test ps = true ∧
        ∀ p ps', p ∈ registered s1 → m !! p = Some ps' → test ps' = false)).
Proof.
  induction slots as [|s rest IH]; intros H.
  { exists NULL. split; [done|]. left. split; [done|].
    intros p ps Hp. by apply elem_of_nil in Hp. }
  simpl in *. destruct (s =? NULL) eqn:Hz.
  - destruct (IH H) as (r & He & Hc). exists r. split; [done|].
    destruct Hc as [Hc|(s1 & s2 & ps & -> & Hr & Hps & Ht & Hbefore)]; [by left|].
    right. exists (s :: s1), s2, ps. split; [done|]. simpl. rewrite Hz. done.
  - destruct (H s) as [ps Hps]; [by left|]. rewrite Hps.
    apply Z.eqb_neq in Hz.
    destruct (test ps) eqn:Ht.
    + exists s. split; [done|]. right. exists [], rest, ps.
      split; [done|]. split; [done|]. split; [done|]. split; [done|].
      intros p ps' Hp. by apply elem_of_nil in Hp.
    + destruct IH as (r & He & Hc); [intros p Hp; apply H; by right|].
      exists r. split; [done|].
      destruct Hc as [[-> Hc]|(s1 & s2 & ps1 & -> & Hr & Hps1 & Ht1 & Hbefore)].
      * left. split; [done|]. intros p ps' [->|Hp]%elem_of_cons Hps'.
        -- congruence.
        -- by eapply Hc.
      * right. exists (s :: s1), s2, ps1. split; [done|]. split; [done|].
        split; [done|]. split; [done|].
        simpl. assert (Hz' : (s =? NULL) = false) by (by apply Z.eqb_neq).
        rewrite Hz'. intros p ps' [->|Hp]%elem_of_cons Hps'.
        -- congruence.
        -- by eapply Hbefore.
Qed.

(** X18.  [mempool_find] is a first-match search.  When every
    registered pool has its structure in memory, the call returns and
    changes nothing; the result is [NULL] exactly when no registered pool
    bears the name, and otherwise the pool of the first slot, in array
    order, whose pool bears it: names are not unique, and a later pool of
    the same name is never found. *)
Theorem mempool_find_first_match k name :
  (∀ p, p ∈ registered (memory_pools k) → is_Some (pool_ram k !! p)) →
  ∃ r, mempool_find name k = Ret r k ∧
    ((r = NULL ∧
      ∀ p ps, p ∈ registered (memory_pools k) → pool_ram k !! p = Some ps →
              pool_name ps ≠ name) ∨
     (∃ s1 s2 ps,
        memory_pools k = s1 ++ r :: s2 ∧ r ≠ NULL ∧
        pool_ram k !! r = Some ps ∧ pool_name ps = name ∧
        ∀ p ps', p ∈ registered s1 → pool_ram k !! p = Some ps' →
                 pool_name ps' ≠ name)).
Proof.
  intros H.
  destruct (find_slot_cases (fun p => bool_decide (pool_name p = name))
              (pool_ram k) (memory_pools k) H) as (r & He & Hc).
  exists r. unfold mempool_find. rewrite He. split; [done|].
  destruct Hc as [[-> Hc]|(s1 & s2 & ps & Hs & Hr & Hps & Ht & Hbefore)].
  - left. split; [done|]. intros p ps Hp Hps.
    specialize (Hc p ps Hp Hps). by apply bool_decide_eq_false in Hc.
  - right. exists s1, s2, ps. split; [done|]. split; [done|]. split; [done|].
    split; [by apply bool_decide_eq_true in Ht|].
    intros p ps' Hp Hps'. specialize (Hbefore p ps' Hp Hps').
    by apply bool_decide_eq_false in Hbefore.
Qed.

(** X19.  [mempool_find_by_id] is a first-match search.  When every
    registered pool has its structure in memory, the call returns and
    changes nothing; the result is [NULL] exactly when no registered pool
    has the id, and otherwise the pool of the first slot, in array order,
    whose pool has it. *)
Theorem mempool_find_by_id_first_match k id :
  (∀ p, p ∈ registered (memory_pools k) → is_Some (pool_ram k !! p)) →
  ∃ r, mempool_find_by_id id k = Ret r k ∧
    ((r = NULL ∧
      ∀ p ps, p ∈ registered (memory_pools k) → pool_ram k !! p = Some ps →
              pool_id ps ≠ id) ∨
     (∃ s1 s2 ps,
        memory_pools k = s1 ++ r :: s2 ∧ r ≠ NULL ∧
        pool_ram k !! r = Some ps ∧ pool_id ps = id ∧
        ∀ p ps', p ∈ registered s1 → pool_ram k !! p = Some ps' →
                 pool_id ps' ≠ id)).
Proof.
  intros H.
  destruct (find_slot_cases (fun p => pool_id p =? id)
              (pool_ram k) (memory_pools k) H) as (r & He & Hc).
  exists r. unfold mempool_find_by_id. rewrite He. split; [done|].
  destruct Hc as [[-> Hc]|(s1 & s2 & ps & Hs & Hr & Hps & Ht & Hbefore)].
  - left. split; [done|]. intros p ps Hp Hps.
    specialize (Hc p ps Hp Hps). by apply Z.eqb_neq in Hc.
  - right. exists s1, s2, ps. split; [done|]. split; [done|]. split; [done|].
    split; [by apply Z.eqb_eq in Ht|].
    intros p ps' Hp Hps'. specialize (Hbefore p ps' Hp Hps').
    by apply Z.eqb_neq in Hbefore.
Qed.

Lemma create_fresh pf k l r c1 l1 :
  good k l → pools_inv pf k l →
  first_fit r heap_start l = Some (c1, l1) →
  c1 + 16 ≠ NULL ∧ c1 + 16 ∉ memory_pools k.
Proof.
  intros (Hinv & _) Hpi Hff.
  pose proof (inv_chain _ _ Hinv) as Hch.
  destruct (first_fit_Some _ _ _ _ _ Hff) as (pre & s & post & Hl & _ & _ & Hc1 & _).
  assert (Hn : c1 + 16 ≠ NULL).
  { rewrite Hl in Hch. pose proof (chain_prefix_nonneg _ _ _ _ _ Hch).
    unfold NULL, heap_start in *. lia. }
  split; [done|]. intros Hin.
  assert (Hin' : c1 + 16 ∈ registered (memory_pools k))
    by (by apply elem_of_registered).
  destruct (pi_owned _ _ _ Hpi _ Hin') as (ps & _ & H1 & _).
  by apply (first_fit_fresh _ _ _ _ _ _ _ _ Hch Hff H1).
Qed.

Lemma substring_all n s :
  (String.length s <= n)%nat → String.substring 0 n s = s.
Proof.
  revert n. induction s as [|c s IH]; intros n Hn.
  - by destruct n.
  - destruct n as [|n]; [simpl in Hn; lia|]. simpl. f_equal. apply IH.
    simpl in Hn. lia.
Qed.

Lemma length_substring n s :
  (String.length (String.substring 0 n s) <= n)%nat.
Proof.
  revert n. induction s as [|c s IH]; intros n.
  - destruct n; simpl; lia.
  - destruct n as [|n]; simpl; [lia|]. specialize (IH n). lia.
Qed.

Lemma strncpy_name_fits pf name :
  strncpy_name pf name = name ↔
  (String.length name <= sizeof_pool_name pf - 1)%nat.
Proof.
  unfold strncpy_name. split.
  - intros H. rewrite <- H at 1. apply length_substring.
  - apply substring_all.
Qed.

(** X20.  Looking up a pool that was just created.  After a successful
    [mempool_create] on a heap between calls whose registry is in order:
    [mempool_find] returns the new pool under the name as stored (cut to
    the field width less one), when no older pool bears that name; under
    the name as given it returns [NULL] when that name is too long for
    the field and no older pool bears it; and [mempool_find_by_id]
    returns the new pool under the id count + 1, when no older pool has
    that id. *)
Theorem mempool_find_created pf fuel k l name type size pool k1 :
  good k l → pools_inv pf k l → (S (length l) < fuel)%nat →
  Z.of_nat (MAX_MEMPOOLS pf) < 2 ^ 32 →
  sizeof_MemoryPool pf ≠ 0 → header_fits (sizeof_MemoryPool pf) →
  header_fits size →
  mempool_create pf fuel name type size k = Ret pool k1 → pool ≠ NULL →
  ((∀ p ps, p ∈ registered (memory_pools k) → pool_ram k !! p = Some ps →
            pool_name ps ≠ strncpy_name pf name) →
   mempool_find (strncpy_name pf name) k1 = Ret pool k1) ∧
  ((sizeof_pool_name pf - 1 < String.length name)%nat →
   (∀ p ps, p ∈ registered (memory_pools k) → pool_ram k !! p = Some ps →
            pool_name ps ≠ name) →
   mempool_find name k1 = Ret NULL k1) ∧
  ((∀ p ps, p ∈ registered (memory_pools k) → pool_ram k !! p = Some ps →
            pool_id ps ≠ memory_pool_count k + 1) →
   mempool_find_by_id (memory_pool_count k + 1) k1 = Ret pool k1).
Proof.
  intros Hg Hpi Hfuel Hmax Hsz0 Hfit1 Hfit2 Hcreate Hpool.
  destruct (mempool_create_cases pf fuel k l name type size Hg Hfuel Hsz0 Hfit1 Hfit2)
    as (r & k' & He & [(-> & _)|
                       (c1 & l1 & c2 & l2 & Hcnt & Hs0 & Hff1 & Hff2 & -> & Hg'
                        & Hpr & Hmp & Hpc & Ht)]);
    rewrite He in Hcreate; injection Hcreate as <- <-; [done|].
  destruct (create_fresh _ _ _ _ _ _ Hg Hpi Hff1) as [_ Hnew].
  pose proof (length_registered (memory_pools k)) as Hlr.
  destruct (registry_add_first (c1 + 16) (memory_pools k))
    as (s1 & s2 & Hslots & Hn1 & Hadd).
  { rewrite (pi_slots _ _ _ Hpi). rewrite (pi_count _ _ _ Hpi) in Hcnt. lia. }
  assert (Hcount : u32 (memory_pool_count k + 1) = memory_pool_count k + 1).
  { apply u32_small. rewrite (pi_count _ _ _ Hpi) in *. lia. }
  rewrite Hcount in Hpr.
  assert (Hold : ∀ p, p ∈ registered s1 ++ registered s2 →
            p ∈ registered (memory_pools k) ∧
            ∃ ps, pool_ram k !! p = Some ps ∧ pool_ram k' !! p = Some ps).
  { intros p Hp.
    assert (Hpin : p ∈ registered (memory_pools k)).
    { rewrite Hslots, registered_app. simpl. done. }
    split; [done|].
    destruct (pi_owned _ _ _ Hpi _ Hpin) as (ps & Hps & _).
    exists ps. split; [done|]. rewrite Hpr, lookup_insert_ne; [done|].
    intros <-. apply Hnew. by apply elem_of_registered in Hpin as [? _]. }
  assert (Hps : pool_ram k' !! (c1 + 16)
                = Some (mkPool (memory_pool_count k + 1) (strncpy_name pf name)
                          type (c2 + 16) size (mempool_get_block_size type)
                          0 0 0 0 0)).
  { rewrite Hpr. apply lookup_insert_eq. }
  split; [|split].
  - intros Hnone. unfold mempool_find. rewrite Hmp, Hadd.
    erewrite find_slot_first; [done| |done|exact Hps|by apply bool_decide_eq_true].
    intros p Hp.
    destruct (Hold p) as (Hpin & ps & Hps0 & Hps1); [apply elem_of_app; by left|].
    exists ps. split; [done|]. apply bool_decide_eq_false. by eapply Hnone.
  - intros Hlong Hnone. unfold mempool_find. rewrite Hmp, Hadd.
    rewrite find_slot_none; [done|].
    intros p. rewrite registered_app. simpl.
    assert (Hz : (c1 + 16 =? NULL) = false) by (by apply Z.eqb_neq).
    rewrite Hz. rewrite elem_of_app, elem_of_cons.
    intros [Hp|[->|Hp]].
    + destruct (Hold p) as (Hpin & ps & Hps0 & Hps1); [apply elem_of_app; by left|].
      exists ps. split; [done|]. apply bool_decide_eq_false. by eapply Hnone.
    + eexists. split; [exact Hps|]. apply bool_decide_eq_false. simpl.
      intros Heq%strncpy_name_fits. lia.
    + destruct (Hold p) as (Hpin & ps & Hps0 & Hps1); [apply elem_of_app; by right|].
      exists ps. split; [done|]. apply bool_decide_eq_false. by eapply Hnone.
  - intros Hnone. unfold mempool_find_by_id. rewrite Hmp, Hadd.
    erewrite find_slot_first; [done| |done|exact Hps|by apply Z.eqb_eq].
    intros p Hp.
    destruct (Hold p) as (Hpin & ps & Hps0 & Hps1); [apply elem_of_app; by left|].
    exists ps. split; [done|]. apply Z.eqb_neq. by eapply Hnone.
Qed.

(** ** Allocation inside a pool *)

Lemma set_pool_ram_id k pool ps :
  pool_ram k !! pool = Some ps →
  set_pool_ram (fun m => <[pool := ps]> m) k = k.
Proof. intros H. destruct k. simpl in *. f_equal. by apply insert_id. Qed.

Lemma set_pool_ram_twice k pool ps ps' :
  set_pool_ram (fun m => <[pool := ps']> m)
    (set_pool_ram (fun m => <[pool := ps]> m) k)
  = set_pool_ram (fun m => <[pool := ps']> m) k.
Proof. destruct k. simpl. f_equal. apply insert_insert_eq. Qed.

(** X21.  A pool hands out its body from the bottom up.  For a pool
    with a non-null body that ends below [2^32] and [used <= size], along
    every sequence of [mempool_alloc] and [mempool_free] calls whose
    sizes do not wrap: the calls return and change nothing but the
    structure of the pool; the ranges that the successful allocations
    return lie back to back from [base_address + used] on; [used] grows
    by their total size and stays within [size], whatever was released
    in between, since [mempool_free] gives nothing back; the fields set
    at creation stay; and a peak usage equal to [used] stays equal to
    it. *)
Theorem pool_calls_packed cs : ∀ k pool ps,
  pool ≠ NULL → pool_ram k !! pool = Some ps →
  0 <= pool_used ps <= pool_size ps → 0 < pool_base_address ps →
  pool_base_address ps + pool_size ps < 2 ^ 32 →
  Forall (pool_call_ok ps) cs →
  ∃ got ps',
    pool_calls pool cs k
    = Ret got (set_pool_ram (fun m => <[pool := ps']> m) k) ∧
    same_pool ps ps' ∧
    packed (pool_base_address ps + pool_used ps) got ∧
    pool_used ps' = pool_used ps + total_size got ∧
    pool_used ps' <= pool_size ps ∧
    (pool_peak_usage ps = pool_used ps → pool_peak_usage ps' = pool_used ps').
Proof.
  induction cs as [|c cs IH]; intros k pool ps Hp Hps Hu Hb Hbs Hok.
  { exists [], ps. rewrite (set_pool_ram_id _ _ _ Hps).
    split; [done|]. split; [done|]. split; [done|].
    split; [simpl; lia|]. split; [lia|done]. }
  inversion Hok as [|? ? Hc Hcs]; subst.
  assert (Hpz : (pool =? NULL) = false) by (by apply Z.eqb_neq).
  destruct c as [n|q]; cbn [pool_calls pool_call_ok] in *.
  - destruct Hc as [Hn0 Hn].
    assert (Hstay : mempool_alloc pool n k = Ret NULL k →
      ∃ got ps',
        (let* p := mempool_alloc pool n in
         let* got := pool_calls pool cs in
         ret (if p =? NULL then got else (p, n) :: got)) k
        = Ret got (set_pool_ram (fun m => <[pool := ps']> m) k) ∧
        same_pool ps ps' ∧
        packed (pool_base_address ps + pool_used ps) got ∧
        pool_used ps' = pool_used ps + total_size got ∧
        pool_used ps' <= pool_size ps ∧
        (pool_peak_usage ps = pool_used ps →
         pool_peak_usage ps' = pool_used ps')).
    { intros He. destruct (IH k pool ps Hp Hps Hu Hb Hbs Hcs)
        as (got & ps' & Hrun & Hrest).
      exists got, ps'. rewrite (bind_run _ _ _ _ _ He).
      rewrite (bind_run _ _ _ _ _ Hrun). done. }
    destruct (decide (n = 0)) as [->|Hnz].
    { apply Hstay. unfold mempool_alloc. rewrite Hpz. done. }
    destruct (decide (pool_used ps + n <= pool_size ps)) as [Hle|Hgt].
    2:{ apply Hstay. apply (mempool_alloc_full k pool ps n); try done; lia. }
    pose proof (mempool_alloc_ok k pool ps n Hp Hps ltac:(lia) ltac:(lia)
                  ltac:(lia) Hle) as He.
    rewrite u32_small in He by lia.
    set (k1 := set_pool_ram (fun m => <[pool := bumped ps n]> m) k) in *.
    assert (Hps1 : pool_ram k1 !! pool = Some (bumped ps n)).
    { subst k1. cbn [pool_ram set_pool_ram]. apply lookup_insert_eq. }
    destruct (IH k1 pool (bumped ps n) Hp Hps1) as (got & ps' & Hrun & Hsame & Hpk
                                                     & Hused & Hcap & Hpeak);
      cbn [bumped pool_used pool_size pool_base_address]; try lia; try done.
    exists ((pool_base_address ps + pool_used ps, n) :: got), ps'.
    rewrite (bind_run _ _ _ _ _ He). rewrite (bind_run _ _ _ _ _ Hrun).
    assert (Hnn : (pool_base_address ps + pool_used ps =? NULL) = false).
    { apply Z.eqb_neq. unfold NULL. lia. }
    unfold ret. rewrite Hnn. subst k1. rewrite set_pool_ram_twice.
    cbn [bumped pool_used pool_size pool_base_address pool_peak_usage] in *.
    split; [done|]. split.
    { destruct Hsame as (?&?&?&?&?&?&?). repeat split; done. }
    split.
    { simpl. split; [done|]. split; [lia|].
      replace (pool_base_address ps + pool_used ps + n)
        with (pool_base_address ps + (pool_used ps + n)) by lia. done. }
    split; [simpl; lia|]. split; [done|].
    intros Hpu. apply Hpeak. rewrite Hpu.
    assert (Hlt : (pool_used ps <? pool_used ps + n) = true)
      by (apply Z.ltb_lt; lia).
    by rewrite Hlt.
  - destruct (decide (q = NULL)) as [->|Hq].
    + destruct (IH k pool ps Hp Hps Hu Hb Hbs Hcs) as (got & ps' & Hrun & Hrest).
      exists got, ps'.
      assert (He : mempool_free pool NULL k = Ret ERR_INVALID_ARG k).
      { unfold mempool_free. rewrite Hpz. done. }
      rewrite (bind_run _ _ _ _ _ He). done.
    + pose proof (mempool_free_ok k pool ps q Hp Hq Hps) as He.
      set (k1 := set_pool_ram (fun m => <[pool := released ps]> m) k) in *.
      assert (Hps1 : pool_ram k1 !! pool = Some (released ps)).
      { subst k1. cbn [pool_ram set_pool_ram]. apply lookup_insert_eq. }
      destruct (IH k1 pool (released ps) Hp Hps1) as (got & ps' & Hrun & Hsame & Hpk
                                                     & Hused & Hcap & Hpeak);
        cbn [released pool_used pool_size pool_base_address]; try lia; try done.
      exists got, ps'. rewrite (bind_run _ _ _ _ _ He). rewrite Hrun.
      subst k1. rewrite set_pool_ram_twice.
      cbn [released pool_used pool_size pool_base_address pool_peak_usage] in *.
      split; [done|]. split; [|done].
      destruct Hsame as (?&?&?&?&?&?&?). repeat split; done.
Qed.

(** ** Listing *)

Lemma list_rows_registered m slots :
  (∀ p, p ∈ registered slots → is_Some (m !! p)) →
  ∃ rows, list_rows m slots = Some rows ∧
          length rows = length (registered slots) ∧
          ∀ i p, registered slots !! i = Some p →
                 ∃ ps, m !! p = Some ps ∧ rows !! i = Some (row_of ps).
Proof.
  induction slots as [|s rest IH]; intros H.
  { exists []. split; [done|]. split; [done|]. intros i p Hi. done. }
  simpl in *. destruct (s =? NULL) eqn:Hz; [by apply IH|].
  destruct (H s) as [ps Hps]; [by left|]. rewrite Hps.
  destruct IH as (rows & -> & Hlen & Hrows); [intros p Hp; apply H; by right|].
  exists (row_of ps :: rows). split; [done|]. split; [simpl; lia|].
  intros [|i] p Hi; simpl in *.
  - injection Hi as <-. eauto.
  - by apply Hrows.
Qed.

(** X22.  [mempool_list_all], when the registry is in order, changes
    nothing and prints one line for each registered pool, in array order,
    with the id, name, type label, size and usage of its structure, under
    a heading whose count is the number of lines. *)
Theorem mempool_list_all_rows pf k l :
  pools_inv pf k l →
  ∃ rows,
    mempool_list_all k = Ret (memory_pool_count k, rows) k ∧
    Z.of_nat (length rows) = memory_pool_count k ∧
    (length rows <= MAX_MEMPOOLS pf)%nat ∧
    ∀ i p, registered (memory_pools k) !! i = Some p →
           ∃ ps, pool_ram k !! p = Some ps ∧ rows !! i = Some (row_of ps).
Proof.
  intros Hpi.
  destruct (list_rows_registered (pool_ram k) (memory_pools k))
    as (rows & He & Hlen & Hrows).
  { intros p Hp. destruct (pi_owned _ _ _ Hpi p Hp) as (ps & -> & _). eauto. }
  exists rows. unfold mempool_list_all. rewrite He.
  split; [done|]. split; [by rewrite Hlen, (pi_count _ _ _ Hpi)|].
  split; [|done].
  rewrite Hlen, <- (pi_slots _ _ _ Hpi). apply length_registered.
Qed.

(** X23.  The labels of [mempool_type_to_string] tell the pool types
    apart, and none of them is [UNKNOWN], the label of the [default]
    case. *)
Theorem mempool_type_to_string_distinct t1 t2 :
  (mempool_type_to_string t1 = mempool_type_to_string t2 ↔ t1 = t2) ∧
  mempool_type_to_string t1 ≠ "UNKNOWN".
Proof.
  split; [split; [|by intros ->]|]; destruct t1; try destruct t2; done.
Qed.

(** ** Instances on the platform [demo] *)

Lemma k_init_structs :
  ∀ p, p ∈ registered (memory_pools k_init) → is_Some (pool_ram k_init !! p).
Proof.
  intros p Hp. destruct k_init_state as [_ Hpi].
  destruct (pi_owned _ _ _ Hpi p Hp) as (ps & -> & _). eauto.
Qed.

Lemma memory_alloc_first_fit_witness :
  align8 100 = 8 * ((100 + 7) / 8) ∧
  (∀ pre s post,
     l_init = pre ++ (s, true) :: post →
     Forall (fun b => ¬ fits (align8 100) b) pre →
     align8 100 + sizeof_MemoryBlock <= s →
     ∃ k', memory_alloc 64 100 k_init
           = Ret (heap_start + footprint pre + sizeof_MemoryBlock) k' ∧
           heap_inv k' (pre ++ (align8 100, false)
                            :: (s - align8 100 - sizeof_MemoryBlock, true) :: post)) ∧
  (Forall (fun b => ¬ fits (align8 100) b) l_init →
   memory_alloc 64 100 k_init = Ret NULL k_init).
Proof.
  apply (memory_alloc_first_fit 64 k_init l_init 100).
  - apply heap_inv_check_sound. vm_compute. reflexivity.
  - simpl. lia.
  - unfold request_ok, sizeof_MemoryBlock. lia.
Defined.

Lemma memory_alloc_size_aligned_witness :
  ∃ b, ram k_alloc100 !! (2097272 - sizeof_MemoryBlock) = Some b ∧
       100 <= blk_size b ∧ (2097272 - heap_start) mod 8 = 0.
Proof.
  apply (memory_alloc_size_aligned 64 k_init l_init 100 2097272 k_alloc100).
  - apply heap_inv_check_sound. vm_compute. reflexivity.
  - simpl. lia.
  - unfold request_ok, sizeof_MemoryBlock. lia.
  - vm_compute. reflexivity.
  - done.
Defined.

Lemma mempool_create_keeps_registry_witness :
  ∃ r k' l',
    mempool_create demo 64 "net" MEM_POOL_SMALL 4096 k_init = Ret r k' ∧
    good k' l' ∧ pools_inv demo k' l' ∧
    (r = NULL → l' = l_init ∧ same_registry k_init k') ∧
    (r ≠ NULL →
     (r ∉ registered (memory_pools k_init)) ∧
     (∀ p, p ∈ registered (memory_pools k') ↔
           p = r ∨ p ∈ registered (memory_pools k_init)) ∧
     memory_pool_count k' = memory_pool_count k_init + 1 ∧
     ∃ base,
       pool_ram k' !! r
       = Some (mkPool (memory_pool_count k_init + 1) (strncpy_name demo "net")
                 MEM_POOL_SMALL base 4096
                 (mempool_get_block_size MEM_POOL_SMALL) 0 0 0 0 0) ∧
       ∀ q s, (q, s) ∈ live_blocks heap_start l' ↔
              (q, s) = (r, align8 (sizeof_MemoryPool demo)) ∨
              (q, s) = (base, align8 4096) ∨
              (q, s) ∈ live_blocks heap_start l_init).
Proof.
  apply (mempool_create_keeps_registry demo 64 k_init l_init "net"
           MEM_POOL_SMALL 4096).
  - apply k_init_state.
  - apply k_init_state.
  - simpl. lia.
  - simpl. lia.
  - done.
  - unfold header_fits. vm_compute. reflexivity.
  - unfold header_fits. vm_compute. reflexivity.
Defined.

Lemma mempool_destroy_registered_witness :
  ∃ k' l' ps,
    pool_ram k_init !! 1048592 = Some ps ∧
    mempool_destroy 64 1048592 k_init = Ret ERR_SUCCESS k' ∧
    good k' l' ∧ pools_inv demo k' l' ∧
    (∀ p, p ∈ registered (memory_pools k') ↔
          p ∈ registered (memory_pools k_init) ∧ p ≠ 1048592) ∧
    memory_pool_count k' = memory_pool_count k_init - 1 ∧
    ∀ q s, (q, s) ∈ live_blocks heap_start l' ↔
           (q, s) ∈ live_blocks heap_start l_init ∧
           q ≠ 1048592 ∧ q ≠ pool_base_address ps.
Proof.
  apply (mempool_destroy_registered demo 64 k_init l_init 1048592).
  - apply k_init_state.
  - apply k_init_state.
  - simpl. lia.
  - simpl. lia.
  - apply list_elem_of_In. vm_compute. tauto.
Defined.


Lemma mempool_find_first_match_witness :
  ∃ r, mempool_find "default" k_init = Ret r k_init ∧
    ((r = NULL ∧
      ∀ p ps, p ∈ registered (memory_pools k_init) →
              pool_ram k_init !! p = Some ps → pool_name ps ≠ "default") ∨
     (∃ s1 s2 ps,
        memory_pools k_init = s1 ++ r :: s2 ∧ r ≠ NULL ∧
        pool_ram k_init !! r = Some ps ∧ pool_name ps = "default" ∧
        ∀ p ps', p ∈ registered s1 → pool_ram k_init !! p = Some ps' →
                 pool_name ps' ≠ "default")).
Proof.
  apply (mempool_find_first_match k_init "default"). exact k_init_structs.
Defined.

Lemma mempool_find_by_id_first_match_witness :
  ∃ r, mempool_find_by_id 1 k_init = Ret r k_init ∧
    ((r = NULL ∧
      ∀ p ps, p ∈ registered (memory_pools k_init) →
              pool_ram k_init !! p = Some ps → pool_id ps ≠ 1) ∨
     (∃ s1 s2 ps,
        memory_pools k_init = s1 ++ r :: s2 ∧ r ≠ NULL ∧
        pool_ram k_init !! r = Some ps ∧ pool_id ps = 1 ∧
        ∀ p ps', p ∈ registered s1 → pool_ram k_init !! p = Some ps' →
                 pool_id ps' ≠ 1)).
Proof.
  apply (mempool_find_by_id_first_match k_init 1). exact k_init_structs.
Defined.

Lemma mempool_find_created_witness :
  ((∀ p ps, p ∈ registered (memory_pools k_init) →
            pool_ram k_init !! p = Some ps →
            pool_name ps ≠ strncpy_name demo "net") →
   mempool_find (strncpy_name demo "net") k_net = Ret 2097272 k_net) ∧
  ((sizeof_pool_name demo - 1 < String.length "net")%nat →
   (∀ p ps, p ∈ registered (memory_pools k_init) →
            pool_ram k_init !! p = Some ps → pool_name ps ≠ "net") →
   mempool_find "net" k_net = Ret NULL k_net) ∧
  ((∀ p ps, p ∈ registered (memory_pools k_init) →
            pool_ram k_init !! p = Some ps →
            pool_id ps ≠ memory_pool_count k_init + 1) →
   mempool_find_by_id (memory_pool_count k_init + 1) k_net = Ret 2097272 k_net).
Proof.
  apply (mempool_find_created demo 64 k_init l_init "net" MEM_POOL_SMALL 4096
           2097272 k_net).
  - apply k_init_state.
  - apply k_init_state.
  - simpl. lia.
  - simpl. lia.
  - done.
  - unfold header_fits. vm_compute. reflexivity.
  - unfold header_fits. vm_compute. reflexivity.
  - vm_compute. reflexivity.
  - done.
Defined.

Lemma pool_calls_packed_witness :
  ∃ got ps',
    pool_calls 2097272
      [PoolAlloc 100; PoolFree 2097360; PoolAlloc 0; PoolAlloc 4000;
       PoolAlloc 8] k_net
    = Ret got (set_pool_ram (fun m => <[2097272 := ps']> m) k_net) ∧
    same_pool p_net ps' ∧
    packed (pool_base_address p_net + pool_used p_net) got ∧
    pool_used ps' = pool_used p_net + total_size got ∧
    pool_used ps' <= pool_size p_net ∧
    (pool_peak_usage p_net = pool_used p_net →
     pool_peak_usage ps' = pool_used ps').
Proof.
  apply (pool_calls_packed
           [PoolAlloc 100; PoolFree 2097360; PoolAlloc 0; PoolAlloc 4000;
            PoolAlloc 8] k_net 2097272 p_net).
  - done.
  - vm_compute. reflexivity.
  - simpl. lia.
  - simpl. lia.
  - simpl. lia.
  - repeat constructor; simpl; lia.
Defined.

Lemma mempool_list_all_rows_witness :
  ∃ rows,
    mempool_list_all k_init = Ret (memory_pool_count k_init, rows) k_init ∧
    Z.of_nat (length rows) = memory_pool_count k_init ∧
    (length rows <= MAX_MEMPOOLS demo)%nat ∧
    ∀ i p, registered (memory_pools k_init) !! i = Some p →
           ∃ ps, pool_ram k_init !! p = Some ps ∧ rows !! i = Some (row_of ps).
Proof.
  apply (mempool_list_all_rows demo k_init l_init). apply k_init_state.
Defined.
